(** * Email HTML compatibility validator (lib/email-validation.ts)

    A shallow embedding of [EmailValidator] and of the pieces of the
    JavaScript runtime it calls: strings as sequences of UTF-16 code
    units, [String.prototype.includes], the three regular expressions of
    the validator run by a backtracking matcher, [parseInt], [Math.max]
    and the rendering of numbers inside template literals.

    Numbers of the source are IEEE doubles.  The widths the scan reads
    come from digit runs of any length, so they are modelled as doubles:
    [parseInt] rounds to the nearest double and the width message prints
    the double.  The counts, the indices and the score stay far below
    2^53, where integer arithmetic on doubles is exact; they are modelled
    in [Z]. *)

From Stdlib Require Import Strings.String Strings.Ascii.
From Stdlib Require Import Numbers.DecimalString Numbers.DecimalZ Numbers.DecimalFacts.
From Stdlib Require Import List Bool Arith ZArith NArith Lia.
Import ListNotations.

Set Implicit Arguments.

(** ** Strings *)

(** A JavaScript string is a finite sequence of 16-bit code units. *)
Definition jsstring := list N.

(** ASCII literals of the source, one code unit per character. *)
Definition lit (s : string) : jsstring :=
  map N_of_ascii (list_ascii_of_string s).

(** The double quote, written by its code unit. *)
Definition dq : jsstring := [34%N].

Fixpoint jsstring_eqb (a b : jsstring) : bool :=
  match a, b with
  | [], [] => true
  | x :: a', y :: b' => N.eqb x y && jsstring_eqb a' b'
  | _, _ => false
  end.

(** [String.prototype.startsWith]: [p] is a prefix of [s]. *)
Fixpoint startsWith (s p : jsstring) {struct p} : bool :=
  match p with
  | [] => true
  | x :: p' =>
      match s with
      | y :: s' => N.eqb x y && startsWith s' p'
      | [] => false
      end
  end.

(** [String.prototype.includes]: [p] occurs in [s] at some index. *)
Fixpoint includes (s p : jsstring) : bool :=
  startsWith s p ||
  match s with
  | [] => false
  | _ :: s' => includes s' p
  end.

(** ** Numbers *)

Definition MAX_SAFE_INTEGER : Z := 9007199254740991.

(** The Number values the validator meets: the integers a double can
    hold, the two infinities and NaN.  Minus zero is not told apart from
    zero. *)
Inductive number : Type :=
| NaN
| NegInfinity
| Finite (z : Z)
| Infinity.

(** The double nearest to the integer [a >= 0], ties going to the even
    significand.  Up to 2^53 every integer is a double; above, the doubles
    are the multiples of [ulp] between two powers of two.  The result is
    2^1024 or more when [a] rounds out of the range of the doubles. *)
Definition nearestDouble (a : Z) : Z :=
  if (a <=? 2 ^ 53)%Z then a
  else
    let ulp := (2 ^ (Z.log2 a - 52))%Z in
    let q := (a / ulp)%Z in
    let r := (a mod ulp)%Z in
    if (ulp <? 2 * r)%Z || ((2 * r =? ulp)%Z && Z.odd q)
    then ((q + 1) * ulp)%Z
    else (q * ulp)%Z.

(** The Number value for the mathematical integer [x]. *)
Definition toNumber (x : Z) : number :=
  let m := nearestDouble (Z.abs x) in
  if (2 ^ 1024 <=? m)%Z then (if (x <? 0)%Z then NegInfinity else Infinity)
  else Finite (Z.sgn x * m).

Definition isNaN (x : number) : bool :=
  match x with
  | NaN => true
  | _ => false
  end.

(** [a < b] on Numbers; false when either is NaN. *)
Definition numberLtb (a b : number) : bool :=
  match a, b with
  | NaN, _ | _, NaN => false
  | Finite x, Finite y => (x <? y)%Z
  | NegInfinity, NegInfinity => false
  | NegInfinity, _ => true
  | _, NegInfinity => false
  | Infinity, _ => false
  | _, Infinity => true
  end.

(** The decimal digits of the integer [z]: [Number::toString] of a Number
    that holds an integer up to 2^53 in size, as template literals use
    it. *)
Definition numberToString (z : Z) : jsstring :=
  lit (NilZero.string_of_int (Z.to_int z)).

(** White space of the runtime: [WhiteSpace] and [LineTerminator] code
    units.  It is the class [\s] of regular expressions and the set
    [parseInt] skips. *)
Definition isWhiteSpace (c : N) : bool :=
  ((9 <=? c) && (c <=? 13) || (c =? 32) || (c =? 160) || (c =? 5760)
   || (8192 <=? c) && (c <=? 8202) || (c =? 8232) || (c =? 8233)
   || (c =? 8239) || (c =? 8287) || (c =? 12288) || (c =? 65279))%N.

(** The class [\d]. *)
Definition isDigit (c : N) : bool := ((48 <=? c) && (c <=? 57))%N.

(** Value of a code unit as a digit in [radix] (10 or 16), if it is one. *)
Definition digitValue (radix : Z) (c : N) : option Z :=
  if isDigit c then Some (Z.of_N c - 48)%Z
  else if (radix =? 16)%Z && (97 <=? c)%N && (c <=? 102)%N then Some (Z.of_N c - 87)%Z
  else if (radix =? 16)%Z && (65 <=? c)%N && (c <=? 70)%N then Some (Z.of_N c - 55)%Z
  else None.

Fixpoint dropWhile (p : N -> bool) (s : jsstring) : jsstring :=
  match s with
  | c :: s' => if p c then dropWhile p s' else s
  | [] => []
  end.

Fixpoint takeWhile (p : N -> bool) (s : jsstring) : jsstring :=
  match s with
  | c :: s' => if p c then c :: takeWhile p s' else []
  | [] => []
  end.

(** The longest run of digits of [radix] at the head of [s], read as a
    number; [acc] is the value read so far and [seen] tells whether a
    digit was read. *)
Fixpoint parseDigits (radix : Z) (s : jsstring) (seen : bool) (acc : Z) : option Z :=
  match s with
  | c :: s' =>
      match digitValue radix c with
      | Some d => parseDigits radix s' true (acc * radix + d)%Z
      | None => if seen then Some acc else None
      end
  | [] => if seen then Some acc else None
  end.

(** [parseInt(s)] with no radix argument: the digits read as an integer,
    and that integer as a Number.  Every digit is read; an engine may take
    the digits after the twentieth for zeros. *)
Definition parseInt (s : jsstring) : number :=
  let s1 := dropWhile isWhiteSpace s in
  let '(sign, s2) :=
    match s1 with
    | 45%N :: t => ((-1)%Z, t)
    | 43%N :: t => (1%Z, t)
    | _ => (1%Z, s1)
    end in
  let '(radix, s3) :=
    match s2 with
    | 48%N :: 120%N :: t => (16%Z, t)
    | 48%N :: 88%N :: t => (16%Z, t)
    | _ => (10%Z, s2)
    end in
  match parseDigits radix s3 false 0%Z with
  | Some v => toNumber (sign * v)
  | None => NaN
  end.

(** Whether the integer [v] is printed for the double [x]: it rounds to it. *)
Definition roundsTo (v x : Z) : bool :=
  match toNumber v with
  | Finite y => (y =? x)%Z
  | _ => false
  end.

(** The decimal [Number::toString] prints for the integer double [x]: of
    the integers that round to [x], one with the fewest significant
    digits, and of those the nearest to [x].  [p] is the power of ten that
    leaves the digits tried, [x / p] and the next. *)
Fixpoint shortestDecimal (fuel : nat) (x p : Z) : Z :=
  match fuel with
  | O => x
  | S fuel' =>
      let lo := (x / p * p)%Z in
      let hi := (lo + p)%Z in
      match roundsTo lo x, roundsTo hi x with
      | true, true =>
          if (x - lo <? hi - x)%Z then lo
          else if (hi - x <? x - lo)%Z then hi
          else if Z.even (x / p) then lo else hi
      | true, false => lo
      | false, true => hi
      | false, false => shortestDecimal fuel' x (p / 10)
      end
  end.

(** The exponent form of a number of more than 21 digits [ds]: the
    significant digits with a point after the first, and the exponent. *)
Definition exponentForm (ds : jsstring) : jsstring :=
  match rev (dropWhile (N.eqb 48) (rev ds)) with
  | [d] => [d] ++ lit "e+" ++ numberToString (Z.of_nat (length ds) - 1)
  | d :: rest =>
      [d] ++ lit "." ++ rest ++ lit "e+" ++ numberToString (Z.of_nat (length ds) - 1)
  | [] => ds
  end.

(** [Number::toString] of a double that holds the integer [x >= 0]. *)
Definition magnitudeToString (x : Z) : jsstring :=
  if (x <=? 2 ^ 53)%Z then numberToString x
  else
    let n := length (numberToString x) in
    let ds := numberToString (shortestDecimal n x (10 ^ (Z.of_nat n - 1))) in
    if (length ds <=? 21)%nat then ds else exponentForm ds.

(** [Number::toString], as template literals use it. *)
Definition Number_toString (x : number) : jsstring :=
  match x with
  | NaN => lit "NaN"
  | Infinity => lit "Infinity"
  | NegInfinity => lit "-Infinity"
  | Finite z =>
      if (z <? 0)%Z then lit "-" ++ magnitudeToString (- z) else magnitudeToString z
  end.

(** The larger of two Numbers as [Math.max] takes it; NaN if either is. *)
Definition maxNumber (a b : number) : number :=
  match a, b with
  | NaN, _ | _, NaN => NaN
  | _, _ => if numberLtb a b then b else a
  end.

(** The value of [Math.max] on the arguments [x :: l]. *)
Definition Math_max (x : number) (l : list number) : number := fold_left maxNumber l x.

(** [widths.length > 0 ? Math.max(...widths) : 0] where the engine makes
    the call; [spreadMax] below tells when it does. *)
Definition maxWidthOf (widths : list number) : number :=
  match widths with
  | w :: ws => Math_max w ws
  | [] => Finite 0
  end.

(** ** Regular expressions *)

(** The fragment of the pattern language the validator uses.  Every
    starred or plussed atom in the source is a one-unit class, and every
    optional atom consumes at least one unit. *)
Inductive regex : Type :=
| Eps
| Char (p : N -> bool)
| Seq (r1 r2 : regex)
| Star (p : N -> bool)
| Opt (r : regex)
| Group (r : regex).

Definition Plus (p : N -> bool) : regex := Seq (Char p) (Star p).

(** A literal character under the [i] flag without the [u] flag: an
    ASCII letter matches its two cases, any other unit only itself. *)
Definition charI (c : N) : N -> bool :=
  fun x =>
    (x =? c)%N
    || ((97 <=? c) && (c <=? 122) && (x =? c - 32))%N
    || ((65 <=? c) && (c <=? 90) && (x =? c + 32))%N.

Fixpoint litI (s : jsstring) : regex :=
  match s with
  | [] => Eps
  | c :: s' => Seq (Char (charI c)) (litI s')
  end.

Definition oneOf (cs : jsstring) : N -> bool :=
  fun x => existsb (N.eqb x) cs.

Definition noneOf (cs : jsstring) : N -> bool :=
  fun x => negb (existsb (N.eqb x) cs).

(** What a successful match leaves: the input after the match and the
    captured groups in order. *)
Definition mresult : Type := jsstring * list jsstring.

(** Greedy [p*]: take a unit while it fits, give it back when the rest
    of the pattern fails. *)
Fixpoint star (p : N -> bool) (s : jsstring) (k : jsstring -> option mresult)
  : option mresult :=
  match s with
  | c :: s' =>
      if p c then
        match star p s' k with
        | Some x => Some x
        | None => k s
        end
      else k s
  | [] => k []
  end.

(** The backtracking matcher, in continuation-passing style: [k] is the
    rest of the pattern. *)
Fixpoint mre (r : regex) (s : jsstring) (caps : list jsstring)
  (k : jsstring -> list jsstring -> option mresult) : option mresult :=
  match r with
  | Eps => k s caps
  | Char p =>
      match s with
      | c :: s' => if p c then k s' caps else None
      | [] => None
      end
  | Seq r1 r2 => mre r1 s caps (fun s' caps' => mre r2 s' caps' k)
  | Star p => star p s (fun s' => k s' caps)
  | Opt r' =>
      match mre r' s caps k with
      | Some x => Some x
      | None => k s caps
      end
  | Group r' =>
      mre r' s caps
        (fun s' caps' => k s' (caps' ++ [firstn (length s - length s') s]))
  end.

Definition matchHere (r : regex) (s : jsstring) : option mresult :=
  mre r s [] (fun s' caps => Some (s', caps)).

(** The array [exec] returns: [matched] is element 0, [groups] are the
    elements from 1 on; [after] is the input from the new [lastIndex]. *)
Record RegExpMatch : Type := {
  matched : jsstring;
  groups : list jsstring;
  after : jsstring
}.

(** [RegExp.prototype.exec] of a global pattern on the input from
    [lastIndex] on: the leftmost index at which the pattern matches. *)
Fixpoint exec (r : regex) (s : jsstring) : option RegExpMatch :=
  match matchHere r s with
  | Some (s', caps) =>
      Some {| matched := firstn (length s - length s') s;
              groups := caps;
              after := s' |}
  | None =>
      match s with
      | [] => None
      | _ :: t => exec r t
      end
  end.

(** [m[i]] for [i >= 1]; a missing element is [undefined], which
    [parseInt] and [toLowerCase] see as the text of that word. *)
Definition group (m : RegExpMatch) (i : nat) : jsstring :=
  nth (i - 1) (groups m) (lit "undefined").

(** [String.prototype.match] with a global pattern: all matches from left
    to right, stepping over an empty match by one unit (and stopping when
    that step leaves the input).  [fuel] bounds the number of matches. *)
Fixpoint matchAll (fuel : nat) (r : regex) (s : jsstring) : option (list jsstring) :=
  match fuel with
  | O => None
  | S fuel' =>
      match exec r s with
      | None => Some []
      | Some m =>
          match matched m, after m with
          | [], [] => Some [matched m]
          | [], _ :: next | _ :: _, next =>
              match matchAll fuel' r next with
              | Some l => Some (matched m :: l)
              | None => None
              end
          end
      end
  end.

(** ** Findings and results *)

Inductive FindingType : Type := error | warning.

Inductive Category : Type :=
  structure | css | images | compatibility | accessibility.

(** [ValidationError]; [ValidationWarning] is the same record with
    [type] fixed to [warning]. *)
Record ValidationError : Type := {
  type : FindingType;
  category : Category;
  message : jsstring;
  suggestion : option jsstring;
  line : option Z;
  column : option Z
}.

Record ValidationResult : Type := {
  isValid : bool;
  errors : list ValidationError;
  warnings : list ValidationError;
  score : Z
}.

(** The object literal every check pushes: the four fields it sets. *)
Definition finding (t : FindingType) (c : Category) (m s : jsstring)
  : ValidationError :=
  {| type := t; category := c; message := m; suggestion := Some s;
     line := None; column := None |}.

Definition FindingType_eqb (a b : FindingType) : bool :=
  match a, b with
  | error, error | warning, warning => true
  | _, _ => false
  end.

(** [e => e.type === 'error'] *)
Definition isError (e : ValidationError) : bool := FindingType_eqb (type e) error.

Definition isWarning (e : ValidationError) : bool := FindingType_eqb (type e) warning.

(** [Array.prototype.push] of one element. *)
Definition push {A : Type} (l : list A) (x : A) : list A := l ++ [x].

(** [EMAIL_CONSTRAINTS] of lib/tambo.ts, the field the validator reads. *)
Module EMAIL_CONSTRAINTS.
Definition MAX_WIDTH : Z := 600.
End EMAIL_CONSTRAINTS.

(** The two arrays the checks push to. *)
Definition findings : Type := (list ValidationError * list ValidationError)%type.

(** ** The checks *)

Definition validateStructure (html : jsstring) (st : findings) : findings :=
  let '(errors, warnings) := st in
  let errors :=
    if negb (includes html (lit "<table")) then
      push errors (finding error structure
        (lit "Email must use table-based layout for maximum email client compatibility")
        (lit "Use <table> elements for layout instead of <div> elements"))
    else errors in
  let warnings :=
    if negb (includes html (lit "DOCTYPE html PUBLIC")) then
      push warnings (finding warning structure
        (lit "Missing HTML 4.01 Transitional DOCTYPE")
        (lit "Add DOCTYPE html PUBLIC " ++ dq ++ lit "-//W3C//DTD HTML 4.01 Transitional//EN"
           ++ dq ++ lit " for better compatibility"))
    else warnings in
  let warnings :=
    if negb (includes html (lit "<html")) || negb (includes html (lit "<body")) then
      push warnings (finding warning structure
        (lit "Missing proper HTML document structure")
        (lit "Include <html> and <body> tags with proper attributes"))
    else warnings in
  let warnings :=
    if negb (includes html (lit "viewport")) then
      push warnings (finding warning structure
        (lit "Missing viewport meta tag")
        (lit "Add <meta name=" ++ dq ++ lit "viewport" ++ dq ++ lit " content=" ++ dq
           ++ lit "width=device-width, initial-scale=1.0" ++ dq ++ lit "/> for mobile support"))
    else warnings in
  let errors :=
    if includes html (lit "<script") || includes html (lit "javascript:") then
      push errors (finding error structure
        (lit "JavaScript is not supported in email clients")
        (lit "Remove all JavaScript code as it will be stripped by email clients"))
    else errors in
  let warnings :=
    if includes html (lit "<form") then
      push warnings (finding warning structure
        (lit "Forms have limited support in email clients")
        (lit "Consider using links to external forms instead"))
    else warnings in
  (errors, warnings).

(** The pattern of the width scan, global and case-insensitive: the
    word width, white space, [=] or [:], white space, an optional single
    or double quote, the captured digits [(\d+)], an optional [px] and an
    optional quote. *)
Definition widthRegex : regex :=
  Seq (litI (lit "width"))
  (Seq (Star isWhiteSpace)
  (Seq (Char (oneOf (lit "=:")))
  (Seq (Star isWhiteSpace)
  (Seq (Opt (Char (oneOf (dq ++ lit "'"))))
  (Seq (Group (Plus isDigit))
  (Seq (Opt (litI (lit "px")))
       (Opt (Char (oneOf (dq ++ lit "'")))))))))).

(** The pattern [font-family\s*:\s*([^;]+)], global and case-insensitive. *)
Definition fontFamilyRegex : regex :=
  Seq (litI (lit "font-family"))
  (Seq (Star isWhiteSpace)
  (Seq (Char (charI 58))
  (Seq (Star isWhiteSpace)
       (Group (Plus (noneOf (lit ";"))))))).

(** The pattern [<img[^>]*>], global and case-insensitive. *)
Definition imgRegex : regex :=
  Seq (litI (lit "<img"))
  (Seq (Star (noneOf (lit ">")))
       (Char (charI 62))).

(** The table of denylisted declarations: [prop] and [message]. *)
Definition unsupportedProperties : list (jsstring * jsstring) :=
  [ (lit "position: fixed", lit "Fixed positioning is not supported");
    (lit "position: absolute", lit "Absolute positioning has limited support");
    (lit "float:", lit "Float property has inconsistent support");
    (lit "display: flex", lit "Flexbox is not supported in most email clients");
    (lit "display: grid", lit "CSS Grid is not supported in email clients");
    (lit "transform:", lit "CSS transforms are not supported");
    (lit "animation:", lit "CSS animations are not supported");
    (lit "@media", lit "Media queries have limited support");
    (lit "@keyframes", lit "CSS animations are not supported") ].

(** The loop [while ((match = widthRegex.exec(html)) !== null)]: [s] is
    the input from [lastIndex] on.  [None] when [fuel] iterations do not
    reach the end of the loop. *)
Fixpoint widthLoop (fuel : nat) (s : jsstring) (widths : list number)
  : option (list number) :=
  match fuel with
  | O => None
  | S fuel' =>
      match exec widthRegex s with
      | None => Some widths
      | Some m =>
          let width := parseInt (group m 1) in
          if negb (isNaN width) then widthLoop fuel' (after m) (push widths width)
          else widthLoop fuel' (after m) widths
      end
  end.

(** The message of the width error: [maxWidth] and the limit as the
    template literal prints them. *)
Definition widthMessage (maxWidth : number) : jsstring :=
  lit "Maximum width exceeded: " ++ Number_toString maxWidth
    ++ lit "px (limit: " ++ numberToString EMAIL_CONSTRAINTS.MAX_WIDTH ++ lit "px)".

Definition widthSuggestion : jsstring :=
  lit "Use max-width: " ++ numberToString EMAIL_CONSTRAINTS.MAX_WIDTH
    ++ lit "px for email compatibility".

Section Validator.

(** [String.prototype.toLowerCase] follows the case tables of the
    runtime, which are not part of the repository. *)
Variable toLowerCase : jsstring -> jsstring.

(** The loop over the matches of [fontFamilyRegex]. *)
Fixpoint fontLoop (fuel : nat) (s : jsstring) (warnings : list ValidationError)
  : option (list ValidationError) :=
  match fuel with
  | O => None
  | S fuel' =>
      match exec fontFamilyRegex s with
      | None => Some warnings
      | Some fontMatch =>
          let fontFamily := toLowerCase (group fontMatch 1) in
          if negb (includes fontFamily (lit "arial"))
             && negb (includes fontFamily (lit "helvetica"))
             && negb (includes fontFamily (lit "sans-serif"))
          then
            fontLoop fuel' (after fontMatch)
              (push warnings (finding warning css
                 (lit "Non-web-safe font detected")
                 (lit "Use web-safe fonts like Arial, Helvetica, or sans-serif with fallbacks")))
          else fontLoop fuel' (after fontMatch) warnings
      end
  end.

(** The callback of [unsupportedProperties.forEach]. *)
Definition checkProperty (html : jsstring)
  (warnings : list ValidationError) (entry : jsstring * jsstring)
  : list ValidationError :=
  let '(prop, message) := entry in
  if includes (toLowerCase html) (toLowerCase prop) then
    push warnings (finding warning css
      (lit "CSS property " ++ dq ++ prop ++ dq ++ lit " - " ++ message)
      (lit "Use table-based layout and inline styles for better compatibility"))
  else warnings.

Definition validateCSS (html : jsstring) (st : findings) : option findings :=
  let '(errors, warnings) := st in
  let errors :=
    if includes html (lit "<link") && includes html (lit "stylesheet") then
      push errors (finding error css
        (lit "External stylesheets are blocked by most email clients")
        (lit "Use inline styles instead of external CSS files"))
    else errors in
  let errors :=
    if includes html (lit "<style>") then
      push errors (finding error css
        (lit "Style tags have limited support in email clients")
        (lit "Move all CSS to inline style attributes"))
    else errors in
  let warnings := fold_left (checkProperty html) unsupportedProperties warnings in
  match widthLoop (S (length html)) html [] with
  | None => None
  | Some widths =>
      let maxWidth := maxWidthOf widths in
      let errors :=
        if numberLtb (Finite EMAIL_CONSTRAINTS.MAX_WIDTH) maxWidth then
          push errors (finding error css (widthMessage maxWidth) widthSuggestion)
        else errors in
      match fontLoop (S (length html)) html warnings with
      | None => None
      | Some warnings => Some (errors, warnings)
      end
  end.

(** [String.prototype.match] with a global pattern returns [null]
    (here the inner [None]) when nothing matches. *)
Definition String_match (fuel : nat) (r : regex) (s : jsstring)
  : option (option (list jsstring)) :=
  match matchAll fuel r s with
  | None => None
  | Some [] => Some None
  | Some l => Some (Some l)
  end.

(** [Array.prototype.forEach] with the callback's index argument. *)
Fixpoint forEach {A S : Type} (f : A -> Z -> S -> S) (l : list A) (index : Z) (st : S) : S :=
  match l with
  | [] => st
  | x :: l' => forEach f l' (index + 1)%Z (f x index st)
  end.

(** The callback of [images.forEach]. *)
Definition checkImage (img : jsstring) (index : Z) (warnings : list ValidationError)
  : list ValidationError :=
  let warnings :=
    if negb (includes img (lit "alt=")) then
      push warnings (finding warning accessibility
        (lit "Image " ++ numberToString (index + 1) ++ lit " is missing alt text")
        (lit "Add alt attribute for accessibility and when images are blocked"))
    else warnings in
  let warnings :=
    if negb (includes img (lit "width=")) then
      push warnings (finding warning images
        (lit "Image " ++ numberToString (index + 1) ++ lit " is missing width attribute")
        (lit "Add width attribute for consistent rendering across email clients"))
    else warnings in
  let warnings :=
    if negb (includes img (lit "height=")) then
      push warnings (finding warning images
        (lit "Image " ++ numberToString (index + 1) ++ lit " is missing height attribute")
        (lit "Add height attribute for consistent rendering across email clients"))
    else warnings in
  let warnings :=
    if negb (includes img (lit "display: block")) && negb (includes img (lit "display:block")) then
      push warnings (finding warning images
        (lit "Image " ++ numberToString (index + 1) ++ lit " should use display: block")
        (lit "Add style=" ++ dq ++ lit "display: block;" ++ dq ++ lit " to prevent spacing issues"))
    else warnings in
  warnings.

Definition validateImages (html : jsstring) (st : findings) : option findings :=
  let '(errors, warnings) := st in
  match String_match (S (length html)) imgRegex html with
  | None => None
  | Some m =>
      let images :=
        match m with
        | Some l => l
        | None => []
        end in
      Some (errors, forEach checkImage images 0%Z warnings)
  end.

Definition validateCompatibility (html : jsstring) (st : findings) : findings :=
  let '(errors, warnings) := st in
  let warnings :=
    if includes html (lit "<table") then
      let warnings :=
        if negb (includes html (lit "cellpadding=" ++ dq ++ lit "0" ++ dq)) then
          push warnings (finding warning compatibility
            (lit "Tables should include cellpadding=" ++ dq ++ lit "0" ++ dq)
            (lit "Add cellpadding=" ++ dq ++ lit "0" ++ dq
               ++ lit " for consistent spacing across email clients"))
        else warnings in
      let warnings :=
        if negb (includes html (lit "cellspacing=" ++ dq ++ lit "0" ++ dq)) then
          push warnings (finding warning compatibility
            (lit "Tables should include cellspacing=" ++ dq ++ lit "0" ++ dq)
            (lit "Add cellspacing=" ++ dq ++ lit "0" ++ dq
               ++ lit " for consistent spacing across email clients"))
        else warnings in
      let warnings :=
        if negb (includes html (lit "border=" ++ dq ++ lit "0" ++ dq)) then
          push warnings (finding warning compatibility
            (lit "Tables should include border=" ++ dq ++ lit "0" ++ dq)
            (lit "Add border=" ++ dq ++ lit "0" ++ dq ++ lit " to remove default table borders"))
        else warnings in
      warnings
    else warnings in
  let warnings :=
    if includes html (lit "background-image:") then
      push warnings (finding warning compatibility
        (lit "Background images have limited support in Outlook")
        (lit "Consider using VML fallbacks for Outlook or avoid background images"))
    else warnings in
  (errors, warnings).

Definition validateAccessibility (html : jsstring) (st : findings) : findings :=
  let '(errors, warnings) := st in
  let warnings :=
    if includes html (lit "<div") && negb (includes html (lit "role=")) then
      push warnings (finding warning accessibility
        (lit "Consider using semantic HTML or ARIA roles")
        (lit "Add role attributes or use semantic HTML elements for better accessibility"))
    else warnings in
  let warnings :=
    if includes html (lit "color:") && negb (includes html (lit "background-color:")) then
      push warnings (finding warning accessibility
        (lit "Ensure sufficient color contrast")
        (lit "Test color combinations for accessibility compliance"))
    else warnings in
  (errors, warnings).

(** ** The score and the entry point *)

Definition calculateCompatibilityScore (errors warnings : list ValidationError) : Z :=
  let score := 100%Z in
  let errorCount := Z.of_nat (length (filter isError errors)) in
  let score := (score - errorCount * 15)%Z in
  let warningCount := Z.of_nat (length warnings) in
  let score := (score - warningCount * 5)%Z in
  Z.max 0 (Z.min 100 score).

(** [EmailValidator.validate] where the engine makes every call it is
    asked for; [validateOn] below is the function on an engine that limits
    the arguments of a call.  [None] only if one of the loops does not
    come to its end. *)
Definition validate (html : jsstring) : option ValidationResult :=
  let st := validateStructure html ([], []) in
  match validateCSS html st with
  | None => None
  | Some st =>
      match validateImages html st with
      | None => None
      | Some st =>
          let st := validateCompatibility html st in
          let '(errors, warnings) := validateAccessibility html st in
          let score := calculateCompatibilityScore errors warnings in
          Some {| isValid := (length errors =? 0)%nat;
                  errors := errors ++ warnings;
                  warnings := warnings;
                  score := score |}
      end
  end.

End Validator.

(** [s] after a count that is not one. *)
Definition plural (n : Z) : jsstring := if (n =? 1)%Z then [] else lit "s".

(** The three signs that open the summaries: a check mark, a warning
    sign with its variation selector, a cross mark. *)
Definition checkMark : jsstring := [9989%N].
Definition warningSign : jsstring := [9888%N; 65039%N].
Definition crossMark : jsstring := [10060%N].

(** [EmailValidator.getValidationSummary] *)
Definition getValidationSummary (result : ValidationResult) : jsstring :=
  let errorCount := Z.of_nat (length (filter isError (errors result))) in
  let warningCount := Z.of_nat (length (warnings result)) in
  if (errorCount =? 0)%Z && (warningCount =? 0)%Z then
    checkMark ++ lit " Perfect! Your email template is fully compatible (Score: "
      ++ numberToString (score result) ++ lit "/100)"
  else if (errorCount =? 0)%Z then
    warningSign ++ lit " Good compatibility with " ++ numberToString warningCount
      ++ lit " minor issue" ++ plural warningCount
      ++ lit " (Score: " ++ numberToString (score result) ++ lit "/100)"
  else
    crossMark ++ lit " " ++ numberToString errorCount ++ lit " error" ++ plural errorCount
      ++ lit " and " ++ numberToString warningCount ++ lit " warning" ++ plural warningCount
      ++ lit " found (Score: " ++ numberToString (score result) ++ lit "/100)".

(** Lower-casing of ASCII text: the built-in restricted to the units it
    maps inside ASCII.  It stands for [toLowerCase] where a check is run
    on a concrete ASCII input. *)
Definition asciiToLowerCase (s : jsstring) : jsstring :=
  map (fun c => if ((65 <=? c) && (c <=? 90))%N then (c + 32)%N else c) s.

(** ** The engine's limit on the arguments of a call *)

(** How a call ends: with a value, or with an exception thrown. *)
Inductive exception : Type := RangeError.

Inductive completion (A : Type) : Type :=
| Normal (a : A)
| Throw (e : exception).

Arguments Throw {A} e.

(** [widths.length > 0 ? Math.max(...widths) : 0] on an engine that
    passes at most [argumentLimit] arguments to a call.  The spread hands
    every element of [widths] to [Math.max] as an argument of its own, and
    the engine throws [RangeError] when they are more than it passes. *)
Definition spreadMax (argumentLimit : nat) (widths : list number) : completion number :=
  match widths with
  | [] => Normal (Finite 0)
  | w :: ws =>
      if (argumentLimit <? length widths)%nat then Throw RangeError
      else Normal (Math_max w ws)
  end.

Section Engine.

(** The most arguments the engine passes to a call; it depends on the
    engine and on the stack it has left. *)
Variable argumentLimit : nat.

Variable toLowerCase : jsstring -> jsstring.

(** [validateCSS] on such an engine: what the spread call throws leaves
    the function, which has no [try]. *)
Definition validateCSSOn (html : jsstring) (st : findings) : option (completion findings) :=
  let '(errors, warnings) := st in
  let errors :=
    if includes html (lit "<link") && includes html (lit "stylesheet") then
      push errors (finding error css
        (lit "External stylesheets are blocked by most email clients")
        (lit "Use inline styles instead of external CSS files"))
    else errors in
  let errors :=
    if includes html (lit "<style>") then
      push errors (finding error css
        (lit "Style tags have limited support in email clients")
        (lit "Move all CSS to inline style attributes"))
    else errors in
  let warnings := fold_left (checkProperty toLowerCase html) unsupportedProperties warnings in
  match widthLoop (S (length html)) html [] with
  | None => None
  | Some widths =>
      match spreadMax argumentLimit widths with
      | Throw e => Some (Throw e)
      | Normal maxWidth =>
          let errors :=
            if numberLtb (Finite EMAIL_CONSTRAINTS.MAX_WIDTH) maxWidth then
              push errors (finding error css (widthMessage maxWidth) widthSuggestion)
            else errors in
          match fontLoop toLowerCase (S (length html)) html warnings with
          | None => None
          | Some warnings => Some (Normal (errors, warnings))
          end
      end
  end.

(** [EmailValidator.validate] on such an engine: it has no [try] either,
    so that a call throws what [validateCSS] throws.  [None] only if one
    of the loops does not come to its end. *)
Definition validateOn (html : jsstring) : option (completion ValidationResult) :=
  let st := validateStructure html ([], []) in
  match validateCSSOn html st with
  | None => None
  | Some (Throw e) => Some (Throw e)
  | Some (Normal st) =>
      match validateImages html st with
      | None => None
      | Some st =>
          let st := validateCompatibility html st in
          let '(errors, warnings) := validateAccessibility html st in
          let score := calculateCompatibilityScore errors warnings in
          Some (Normal {| isValid := (length errors =? 0)%nat;
                          errors := errors ++ warnings;
                          warnings := warnings;
                          score := score |})
      end
  end.

End Engine.

(** ** Vocabulary of the properties *)

(** [p] occurs in [s]. *)
Definition substring (p s : jsstring) : Prop :=
  exists pre post, s = pre ++ p ++ post.

Definition clamp (x lo hi : Z) : Z := Z.max lo (Z.min hi x).

(** [a <= b] on Numbers that are not NaN. *)
Definition numberLeb (a b : number) : bool :=
  negb (isNaN a) && negb (isNaN b) && negb (numberLtb b a).

(** The number a run of decimal digits denotes. *)
Definition decimalValue (ds : jsstring) : Z :=
  fold_left (fun acc c => (acc * 10 + (Z.of_N c - 48))%Z) ds 0%Z.

(** [w] is the word [p] up to the case of ASCII letters. *)
Definition sameWordI (p w : jsstring) : Prop :=
  Forall2 (fun c x => charI c x = true) p w.

(** An occurrence in [h] of the word width (in any case), white space,
    [=] or [:], white space, an optional quote and a run of digits that
    denotes [v]. *)
Definition widthOccurrence (h : jsstring) (v : Z) : Prop :=
  exists pre w ws1 c ws2 q ds post,
    h = pre ++ w ++ ws1 ++ [c] ++ ws2 ++ q ++ ds ++ post
    /\ sameWordI (lit "width") w
    /\ Forall (fun x => isWhiteSpace x = true) ws1
    /\ (c = 61%N \/ c = 58%N)
    /\ Forall (fun x => isWhiteSpace x = true) ws2
    /\ (q = [] \/ q = dq \/ q = lit "'")
    /\ ds <> []
    /\ Forall (fun x => isDigit x = true) ds
    /\ v = decimalValue ds.

(** A regular expression that cannot match the empty string. *)
Fixpoint consumes (r : regex) : bool :=
  match r with
  | Char _ => true
  | Seq r1 r2 => consumes r1 || consumes r2
  | Group r' => consumes r'
  | Eps | Star _ | Opt _ => false
  end.

(** What it is for [pre] to match [r] with the groups [gs] captured:
    the matches the pattern allows, with no word on which of them the
    matcher prefers. *)
Fixpoint matchesC (r : regex) (pre : jsstring) (gs : list jsstring) : Prop :=
  match r with
  | Eps => pre = [] /\ gs = []
  | Char p => (exists c, pre = [c] /\ p c = true) /\ gs = []
  | Seq r1 r2 =>
      exists a b g1 g2,
        pre = a ++ b /\ gs = g1 ++ g2 /\ matchesC r1 a g1 /\ matchesC r2 b g2
  | Star p => Forall (fun c => p c = true) pre /\ gs = []
  | Opt r' => (pre = [] /\ gs = []) \/ matchesC r' pre gs
  | Group r' => exists g, matchesC r' pre g /\ gs = g ++ [pre]
  end.

(** The list a guarded [push] adds. *)
Definition when {A : Type} (b : bool) (x : A) : list A := if b then [x] else [].

Definition allOfType (t : FindingType) (l : list ValidationError) : Prop :=
  Forall (fun f => type f = t) l.

(** A warning whose message does not speak of a numbered image. *)
Definition plainWarning (f : ValidationError) : Prop :=
  type f = warning /\ startsWith (message f) (lit "Image ") = false.

(** The object [validate] returns for the final contents of the two arrays. *)
Definition resultOf (es ws : list ValidationError) : ValidationResult :=
  {| isValid := (length es =? 0)%nat;
     errors := es ++ ws;
     warnings := ws;
     score := calculateCompatibilityScore es ws |}.

Definition tableError : ValidationError :=
  finding error structure
    (lit "Email must use table-based layout for maximum email client compatibility")
    (lit "Use <table> elements for layout instead of <div> elements").

Definition scriptError : ValidationError :=
  finding error structure
    (lit "JavaScript is not supported in email clients")
    (lit "Remove all JavaScript code as it will be stripped by email clients").

Definition stylesheetError : ValidationError :=
  finding error css
    (lit "External stylesheets are blocked by most email clients")
    (lit "Use inline styles instead of external CSS files").

Definition styleTagError : ValidationError :=
  finding error css
    (lit "Style tags have limited support in email clients")
    (lit "Move all CSS to inline style attributes").

Definition widthError (maxWidth : number) : ValidationError :=
  finding error css (widthMessage maxWidth) widthSuggestion.

(** The internal errors array at the end of [validate], for the widths
    the scan collected. *)
Definition errorFindings (h : jsstring) (widths : list number) : list ValidationError :=
  when (negb (includes h (lit "<table"))) tableError
  ++ when (includes h (lit "<script") || includes h (lit "javascript:")) scriptError
  ++ when (includes h (lit "<link") && includes h (lit "stylesheet")) stylesheetError
  ++ when (includes h (lit "<style>")) styleTagError
  ++ when (numberLtb (Finite EMAIL_CONSTRAINTS.MAX_WIDTH) (maxWidthOf widths))
       (widthError (maxWidthOf widths)).

(** A style tag that carries an attribute. *)
Definition styleTagWithAttribute : jsstring :=
  lit "<table><tr><td><style type=" ++ dq ++ lit "text/css" ++ dq
    ++ lit ">td { margin: 0; }</style></td></tr></table>".

(** The units that end a line. *)
Definition isLineTerminator (c : N) : bool :=
  ((c =? 10) || (c =? 13) || (c =? 8232) || (c =? 8233))%N.

Definition oneLine (s : jsstring) : Prop :=
  forallb (fun c => negb (isLineTerminator c)) s = true.

(** The end of every summary. *)
Definition scoreText (r : ValidationResult) : jsstring :=
  lit "(Score: " ++ numberToString (score r) ++ lit "/100)".

(** The number of findings of [l] with the message [m]. *)
Definition countMessage (m : jsstring) (l : list ValidationError) : nat :=
  length (filter (fun f => jsstring_eqb (message f) m) l).

(** The message of an image finding: the position of the image and what
    is said of it. *)
Definition imageMessage (n : Z) (what : jsstring) : jsstring :=
  lit "Image " ++ numberToString n ++ what.

(** An image tag as the pattern sees it: the tag name in any case, units
    other than the closing bracket, and the closing bracket. *)
Definition isImgTag (img : jsstring) : Prop :=
  exists name body,
    img = name ++ body ++ lit ">"
    /\ sameWordI (lit "<img") name
    /\ Forall (fun c => c <> 62%N) body.

(** A table-based document with no finding of its own around the image
    tag [img]. *)
Definition documentAround (img : jsstring) : jsstring :=
  lit "<!DOCTYPE html PUBLIC " ++ dq ++ lit "-//W3C//DTD HTML 4.01 Transitional//EN" ++ dq
    ++ lit "><html><head><meta name=" ++ dq ++ lit "viewport" ++ dq ++ lit " content=" ++ dq
    ++ lit "width=device-width, initial-scale=1.0" ++ dq ++ lit "/></head><body>"
    ++ lit "<table cellpadding=" ++ dq ++ lit "0" ++ dq ++ lit " cellspacing=" ++ dq ++ lit "0"
    ++ dq ++ lit " border=" ++ dq ++ lit "0" ++ dq ++ lit "><tr><td>" ++ img
    ++ lit "</td></tr></table></body></html>".

Definition bareImage : jsstring :=
  lit "<img src=" ++ dq ++ lit "x.png" ++ dq ++ lit ">".

Definition completeImage : jsstring :=
  lit "<img src=" ++ dq ++ lit "x.png" ++ dq ++ lit " alt=" ++ dq ++ lit "x" ++ dq
    ++ lit " width=" ++ dq ++ lit "10" ++ dq ++ lit " height=" ++ dq ++ lit "10" ++ dq
    ++ lit " style=" ++ dq ++ lit "display: block;" ++ dq ++ lit ">".

(** The four things said of an image. *)
Definition imageRemarks : list jsstring :=
  [ lit " is missing alt text"; lit " is missing width attribute";
    lit " is missing height attribute"; lit " should use display: block" ].

(** Whether the image [img] lacks what the remark [what] asks for. *)
Definition lacks (img what : jsstring) : bool :=
  if jsstring_eqb what (lit " is missing alt text") then negb (includes img (lit "alt="))
  else if jsstring_eqb what (lit " is missing width attribute") then
    negb (includes img (lit "width="))
  else if jsstring_eqb what (lit " is missing height attribute") then
    negb (includes img (lit "height="))
  else negb (includes img (lit "display: block")) && negb (includes img (lit "display:block")).

(** A continuation that always succeeds and hands the groups on as they
    are. *)
Definition keeps (k : jsstring -> list jsstring -> option mresult) : Prop :=
  forall s caps, exists s', k s caps = Some (s', caps).

(** The end of the width pattern: an optional px and an optional quote. *)
Definition widthTail : regex :=
  Seq (Opt (litI (lit "px"))) (Opt (Char (oneOf (dq ++ lit "'")))).

(** Neither case of the letter that opens the word width. *)
Definition notW (c : N) : Prop := c <> 119%N /\ c <> 87%N.

(** The value [validateCSS] gives its constant [maxWidth] on the input [h]. *)
Definition maxWidth (h : jsstring) : number :=
  match widthLoop (S (length h)) h [] with
  | Some widths => maxWidthOf widths
  | None => Finite 0
  end.

(** An error about the width limit. *)
Definition isWidthError (f : ValidationError) : bool :=
  isError f && startsWith (message f) (lit "Maximum width exceeded").

(** The input of the second scenario of the specification. *)
Definition wideCell : jsstring :=
  lit "<table><tr><td style=" ++ dq ++ lit "width:601px" ++ dq ++ lit ">x</td></tr></table>".

(** The text width=1 and a space, [n] times over. *)
Fixpoint manyWidths (n : nat) : jsstring :=
  match n with
  | O => []
  | S n' => lit "width=1 " ++ manyWidths n'
  end.

(** A warning about a numbered image. *)
Definition isImageWarning (f : ValidationError) : bool :=
  startsWith (message f) (lit "Image ").

(** The strings of [l] lie in [s] from left to right, none over another. *)
Fixpoint inOrder (l : list jsstring) (s : jsstring) : Prop :=
  match l with
  | [] => True
  | m :: l' => exists pre rest, s = pre ++ m ++ rest /\ inOrder l' rest
  end.

(** An image tag that lacks none of the four, with a width above the
    limit. *)
Definition wideImage : jsstring :=
  lit "<img src=" ++ dq ++ lit "x.png" ++ dq ++ lit " alt=" ++ dq ++ lit "x" ++ dq
    ++ lit " width=" ++ dq ++ lit "700" ++ dq ++ lit " height=" ++ dq ++ lit "10" ++ dq
    ++ lit " style=" ++ dq ++ lit "display: block;" ++ dq ++ lit ">".

(** A cell whose width is the first integer that is not a double. *)
Definition unsafeWidthCell : jsstring :=
  lit "<table><tr><td style=" ++ dq ++ lit "width:9007199254740993px" ++ dq
    ++ lit ">x</td></tr></table>".

(** ** Users of the validator *)

(** The object [validateEmailHTML] returns: the validity flag and the
    messages of the two arrays of the result. *)
Module Legacy.
Record Result : Type := {
  isValid : bool;
  errors : list jsstring;
  warnings : list jsstring
}.
End Legacy.

(** [validateEmailHTML], the entry point kept for older callers, on an
    engine that passes at most [argumentLimit] arguments to a call: it
    throws what the call of [validate] throws. *)
Definition validateEmailHTML (argumentLimit : nat) (toLowerCase : jsstring -> jsstring)
  (html : jsstring) : option (completion Legacy.Result) :=
  match validateOn argumentLimit toLowerCase html with
  | None => None
  | Some (Throw e) => Some (Throw e)
  | Some (Normal result) =>
      Some (Normal {| Legacy.isValid := isValid result;
                      Legacy.errors := map message (errors result);
                      Legacy.warnings := map message (warnings result) |})
  end.




(** [handleSave] of the canvas editor (components/canvas/index.ts):
    [None] when it returns without calling [onSave], otherwise the [html]
    and the [validation_score] of the template it hands to [onSave]. *)
Definition handleSave (content : jsstring) (validationResult : option ValidationResult)
  : option (jsstring * Z) :=
  match validationResult with
  | None => None
  | Some validationResult =>
      let criticalErrors := filter isError (errors validationResult) in
      if (0 <? length criticalErrors)%nat then None
      else Some (content, score validationResult)
  end.

(** Content that holds a script. *)
Definition scriptContent : jsstring :=
  lit "<table><tr><td><script>alert(1)</script></td></tr></table>".

(** [getScoreColor] and [getScoreBgColor] of the canvas editor. *)
Definition getScoreColor (score : Z) : jsstring :=
  if (90 <=? score)%Z then lit "text-green-600"
  else if (70 <=? score)%Z then lit "text-yellow-600"
  else lit "text-red-600".

Definition getScoreBgColor (score : Z) : jsstring :=
  if (90 <=? score)%Z then lit "bg-green-50 border-green-200"
  else if (70 <=? score)%Z then lit "bg-yellow-50 border-yellow-200"
  else lit "bg-red-50 border-red-200".

(** The simple editor (components/canvas/SimpleCanvasEditor.tsx): the
    class of its score line, the entries of [errors] it lists and the
    number it announces as left out. *)
Module SimpleCanvasEditor.
Definition scoreClass (score : Z) : jsstring :=
  if (80 <=? score)%Z then lit "text-green-600"
  else if (60 <=? score)%Z then lit "text-yellow-600"
  else lit "text-red-600".

Definition listedIssues (validationResult : ValidationResult) : list ValidationError :=
  firstn 5 (errors validationResult).

Definition moreIssues (validationResult : ValidationResult) : option nat :=
  if (5 <? length (errors validationResult))%nat
  then Some (length (errors validationResult) - 5)
  else None.
End SimpleCanvasEditor.

(** ** Vocabulary of the further properties *)

(** The warning the font scan pushes. *)
Definition fontWarning : ValidationError :=
  finding warning css
    (lit "Non-web-safe font detected")
    (lit "Use web-safe fonts like Arial, Helvetica, or sans-serif with fallbacks").

(** The message of the warning about the denylisted declaration [prop]. *)
Definition propertyMessage (prop message : jsstring) : jsstring :=
  lit "CSS property " ++ dq ++ prop ++ dq ++ lit " - " ++ message.

(** A finding as every check writes it: with a suggestion and without a
    position. *)
Definition wellFormedFinding (f : ValidationError) : Prop :=
  suggestion f <> None /\ line f = None /\ column f = None.

(** An occurrence in [h] of the words font-family in any case. *)
Definition mentionsFontFamily (h : jsstring) : Prop :=
  exists w, sameWordI (lit "font-family") w /\ substring w h.

(** An input no check of type error objects to: it holds the text
    <table, holds neither <script nor javascript:, does not hold both
    <link and stylesheet, does not hold the bare tag <style>, and writes
    no width above 600. *)
Definition passesErrorChecks (h : jsstring) : Prop :=
  substring (lit "<table") h
  /\ ~ substring (lit "<script") h
  /\ ~ substring (lit "javascript:") h
  /\ ~ (substring (lit "<link") h /\ substring (lit "stylesheet") h)
  /\ ~ substring (lit "<style>") h
  /\ (forall v, widthOccurrence h v -> (v <= 600)%Z).

(** * Properties *)

(** ** Substring search *)

Lemma startsWith_iff (s p : jsstring) :
  startsWith s p = true <-> exists post, s = p ++ post.
Proof.
  revert s; induction p as [|x p IH]; intros s; simpl.
  - split; [intros _; now exists s | reflexivity].
  - destruct s as [|y s].
    + split; [discriminate | intros [post H]; discriminate].
    + rewrite andb_true_iff, N.eqb_eq, IH. split.
      * intros [-> [post ->]]. now exists post.
      * intros [post H]. injection H as -> ->. split; [reflexivity | now exists post].
Qed.

Lemma includes_iff (s p : jsstring) :
  includes s p = true <-> substring p s.
Proof.
  unfold substring. induction s as [|y s IH].
  - simpl. rewrite orb_false_r, startsWith_iff. split.
    + intros [post H]. now exists [], post.
    + intros [pre [post H]]. destruct pre; [now exists post | discriminate].
  - cbn [includes]. rewrite orb_true_iff, startsWith_iff, IH. split.
    + intros [[post H] | [pre [post H]]].
      * now exists [], post.
      * exists (y :: pre), post. now rewrite H.
    + intros [pre [post H]]. destruct pre as [|z pre].
      * left. now exists post.
      * right. injection H as _ H. now exists pre, post.
Qed.

(** ** The matcher finds matches of the pattern *)

Lemma star_sound (p : N -> bool) (s : jsstring) k x :
  star p s k = Some x ->
  exists pre s', s = pre ++ s' /\ Forall (fun c => p c = true) pre /\ k s' = Some x.
Proof.
  induction s as [|c s IH]; simpl; intros H.
  - now exists [], [].
  - destruct (p c) eqn:Ep.
    + destruct (star p s k) as [y|] eqn:E.
      * injection H as ->. destruct (IH eq_refl) as (pre & s' & -> & Hp & Hk).
        exists (c :: pre), s'. repeat split; [now constructor | assumption].
      * now exists [], (c :: s).
    + now exists [], (c :: s).
Qed.

Lemma firstn_app_exact (pre s' : jsstring) :
  firstn (length (pre ++ s') - length s') (pre ++ s') = pre.
Proof.
  rewrite length_app, Nat.add_sub. rewrite firstn_app, Nat.sub_diag, firstn_all.
  simpl. apply app_nil_r.
Qed.

Lemma mre_sound (r : regex) : forall s caps k x,
  mre r s caps k = Some x ->
  exists pre s' gs,
    s = pre ++ s' /\ matchesC r pre gs /\ k s' (caps ++ gs) = Some x.
Proof.
  induction r as [|p|r1 IH1 r2 IH2|p|r IH|r IH]; intros s caps k x H; simpl in H.
  - exists [], s, []. rewrite app_nil_r. repeat split. assumption.
  - destruct s as [|c s]; [discriminate|]. destruct (p c) eqn:Ep; [|discriminate].
    exists [c], s, []. rewrite app_nil_r. split; [reflexivity|]. split; [|assumption].
    split; [now exists c | reflexivity].
  - apply IH1 in H. destruct H as (pre1 & s1 & g1 & -> & M1 & H).
    apply IH2 in H. destruct H as (pre2 & s2 & g2 & -> & M2 & H).
    exists (pre1 ++ pre2), s2, (g1 ++ g2). rewrite <- !app_assoc in *.
    repeat split; [|assumption]. now exists pre1, pre2, g1, g2.
  - apply star_sound in H. destruct H as (pre & s' & -> & Hp & H).
    exists pre, s', []. rewrite app_nil_r. repeat split; assumption.
  - destruct (mre r s caps k) as [y|] eqn:E.
    + injection H as ->. apply IH in E. destruct E as (pre & s' & gs & -> & M & H).
      exists pre, s', gs. repeat split; [now right | assumption].
    + exists [], s, []. rewrite app_nil_r. repeat split; [now left | assumption].
  - apply IH in H. destruct H as (pre & s' & gs & -> & M & H).
    rewrite firstn_app_exact, <- app_assoc in H.
    exists pre, s', (gs ++ [pre]). repeat split; [now exists gs | assumption].
Qed.

Lemma matchesC_consumes (r : regex) : forall gs,
  matchesC r [] gs -> consumes r = false.
Proof.
  induction r as [|p|r1 IH1 r2 IH2|p|r IH|r IH]; intros gs H; simpl in *;
    try reflexivity.
  - destruct H as ((c & H & _) & _). discriminate.
  - destruct H as (a & b & g1 & g2 & E & _ & M1 & M2).
    symmetry in E. apply app_eq_nil in E. destruct E as [-> ->].
    now rewrite (IH1 _ M1), (IH2 _ M2).
  - destruct H as (g & M & _). now apply IH in M.
Qed.

Lemma matchHere_inv (r : regex) (s s' : jsstring) caps :
  matchHere r s = Some (s', caps) ->
  exists pre,
    s = pre ++ s' /\ matchesC r pre caps /\ (consumes r = true -> pre <> []).
Proof.
  unfold matchHere. intros H. apply mre_sound in H.
  destruct H as (pre & s1 & gs & -> & M & H). injection H as -> <-.
  exists pre. repeat split; [assumption|].
  intros C ->. apply matchesC_consumes in M. congruence.
Qed.

Lemma exec_inv (r : regex) : forall s m,
  exec r s = Some m ->
  exists pre,
    s = pre ++ matched m ++ after m
    /\ matchHere r (matched m ++ after m) = Some (after m, groups m)
    /\ matchesC r (matched m) (groups m)
    /\ (consumes r = true -> matched m <> []).
Proof.
  induction s as [|c s IH]; intros m H; cbn [exec] in H.
  - destruct (matchHere r []) as [[s' caps]|] eqn:E; [|discriminate].
    injection H as <-. simpl.
    destruct (matchHere_inv _ _ E) as (pre & Hs & M & C).
    symmetry in Hs. apply app_eq_nil in Hs. destruct Hs as [-> ->].
    exists []. repeat split; assumption.
  - remember (c :: s) as t eqn:Et.
    destruct (matchHere r t) as [[s' caps]|] eqn:E.
    + injection H as <-. cbn [matched groups after].
      destruct (matchHere_inv _ _ E) as (pre & Hs & M & C).
      rewrite Hs, firstn_app_exact. exists []. simpl. rewrite <- Hs.
      repeat split; assumption.
    + subst t. apply IH in H. destruct H as (pre & -> & H & C).
      exists (c :: pre). repeat split; assumption || apply C.
Qed.

Lemma exec_shorter (r : regex) (s : jsstring) m :
  consumes r = true -> exec r s = Some m -> length (after m) < length s.
Proof.
  intros C H. apply exec_inv in H. destruct H as (pre & -> & _ & _ & N).
  specialize (N C). rewrite !length_app.
  destruct (matched m); [congruence | simpl; lia].
Qed.

Lemma exec_not_longer (r : regex) (s : jsstring) m :
  exec r s = Some m -> length (matched m) + length (after m) <= length s.
Proof.
  intros H. apply exec_inv in H. destruct H as (pre & -> & _).
  rewrite !length_app. lia.
Qed.

(** ** The loops come to their end *)

Lemma widthLoop_total : forall fuel s widths,
  length s < fuel -> exists l, widthLoop fuel s widths = Some l.
Proof.
  induction fuel as [|fuel IH]; intros s widths Hf; [lia|]. simpl.
  destruct (exec widthRegex s) as [m|] eqn:E; [|now exists widths].
  assert (length (after m) < fuel)
    by (pose proof (exec_shorter widthRegex s eq_refl E); lia).
  destruct (negb (isNaN (parseInt (group m 1)))); now apply IH.
Qed.

Lemma fontLoop_total lc : forall fuel s ws,
  length s < fuel -> exists l, fontLoop lc fuel s ws = Some l.
Proof.
  induction fuel as [|fuel IH]; intros s ws Hf; [lia|]. simpl.
  destruct (exec fontFamilyRegex s) as [m|] eqn:E; [|now exists ws].
  assert (length (after m) < fuel)
    by (pose proof (exec_shorter fontFamilyRegex s eq_refl E); lia).
  match goal with |- context [if ?b then _ else _] => destruct b end; now apply IH.
Qed.

Lemma matchAll_total (r : regex) : forall fuel s,
  length s < fuel -> exists l, matchAll fuel r s = Some l.
Proof.
  induction fuel as [|fuel IH]; intros s Hf; [lia|]. simpl.
  destruct (exec r s) as [m|] eqn:E; [|now exists []].
  pose proof (exec_not_longer r s E) as L.
  destruct (matched m) as [|c mt] eqn:Em; [destruct (after m) as [|d next] eqn:Ea|].
  - now eexists.
  - destruct (IH next) as [l ->]; [simpl in L; lia | now eexists].
  - destruct (IH (after m)) as [l ->]; [simpl in L; lia | now eexists].
Qed.

(** ** The checks only append *)

Lemma if_push {A : Type} (b : bool) (l : list A) (x : A) :
  (if b then push l x else l) = l ++ when b x.
Proof. destruct b; simpl; [reflexivity | now rewrite app_nil_r]. Qed.

Ltac frame_tac :=
  cbv zeta; rewrite ?if_push; cbn [fst snd];
  rewrite ?app_nil_l, <- ?app_assoc; reflexivity.

Lemma validateStructure_frame (h : jsstring) e w :
  validateStructure h (e, w)
  = (e ++ fst (validateStructure h ([], [])), w ++ snd (validateStructure h ([], []))).
Proof. unfold validateStructure. frame_tac. Qed.

Lemma validateCompatibility_frame (h : jsstring) e w :
  validateCompatibility h (e, w) = (e, w ++ snd (validateCompatibility h ([], []))).
Proof.
  unfold validateCompatibility. cbv zeta. cbn [snd].
  destruct (includes h (lit "<table")); frame_tac.
Qed.

Lemma validateAccessibility_frame (h : jsstring) e w :
  validateAccessibility h (e, w) = (e, w ++ snd (validateAccessibility h ([], []))).
Proof. unfold validateAccessibility. frame_tac. Qed.

Lemma checkImage_frame (img : jsstring) (index : Z) w :
  checkImage img index w = w ++ checkImage img index [].
Proof. unfold checkImage. frame_tac. Qed.

Lemma forEach_checkImage_frame : forall imgs index w,
  forEach checkImage imgs index w = w ++ forEach checkImage imgs index [].
Proof.
  induction imgs as [|img imgs IH]; intros index w; simpl.
  - now rewrite app_nil_r.
  - rewrite IH, (IH _ (checkImage img index [])), checkImage_frame.
    now rewrite app_assoc.
Qed.

Lemma forEach_checkImage_cons (img : jsstring) imgs index :
  forEach checkImage (img :: imgs) index []
  = checkImage img index [] ++ forEach checkImage imgs (index + 1)%Z [].
Proof. simpl. apply forEach_checkImage_frame. Qed.

Lemma validateImages_frame (h : jsstring) e w :
  validateImages h (e, w)
  = match validateImages h ([], []) with
    | Some (_, w') => Some (e, w ++ w')
    | None => None
    end.
Proof.
  unfold validateImages. destruct (String_match _ _ _) as [m|]; [|reflexivity].
  now rewrite forEach_checkImage_frame.
Qed.

Lemma fontLoop_frame lc : forall fuel s w,
  fontLoop lc fuel s w
  = match fontLoop lc fuel s [] with
    | Some w' => Some (w ++ w')
    | None => None
    end.
Proof.
  induction fuel as [|fuel IH]; intros s w; simpl; [reflexivity|].
  destruct (exec fontFamilyRegex s) as [m|]; [|now rewrite app_nil_r].
  match goal with |- context [if ?b then _ else _] => destruct b end.
  - rewrite IH, (IH _ (push [] _)).
    destruct (fontLoop lc fuel (after m) []); [|reflexivity].
    unfold push. now rewrite <- app_assoc.
  - apply IH.
Qed.

Lemma checkProperty_frame lc (h : jsstring) : forall props w,
  fold_left (checkProperty lc h) props w
  = w ++ fold_left (checkProperty lc h) props [].
Proof.
  induction props as [|[prop msg] props IH]; intros w; simpl.
  - now rewrite app_nil_r.
  - rewrite IH. symmetry. rewrite IH. rewrite !if_push, app_nil_l.
    now rewrite app_assoc.
Qed.

Lemma validateCSS_frame lc (h : jsstring) e w :
  validateCSS lc h (e, w)
  = match validateCSS lc h ([], []) with
    | Some (e', w') => Some (e ++ e', w ++ w')
    | None => None
    end.
Proof.
  unfold validateCSS. cbv zeta.
  destruct (widthLoop (S (length h)) h []) as [widths|]; [|reflexivity].
  rewrite (checkProperty_frame lc h unsupportedProperties w).
  set (wp := fold_left (checkProperty lc h) unsupportedProperties []).
  rewrite fontLoop_frame. symmetry. rewrite fontLoop_frame. symmetry.
  destruct (fontLoop lc (S (length h)) h []) as [wf|]; [|reflexivity].
  rewrite !if_push, !app_nil_l, <- !app_assoc. reflexivity.
Qed.

(** ** What each array holds *)

Lemma Forall_when {A : Type} (P : A -> Prop) (b : bool) (x : A) :
  P x -> Forall P (when b x).
Proof. intros H. destruct b; constructor; [assumption | constructor]. Qed.

Lemma Forall_plain_type (l : list ValidationError) :
  Forall plainWarning l -> allOfType warning l.
Proof. apply Forall_impl. now intros f [H _]. Qed.

(** Every finding a check pushes is written out in the check, so a
    property of the pushed findings is read off their literals. *)
Ltac pushed_tac :=
  cbv zeta; rewrite ?if_push; cbn [fst snd]; rewrite ?app_nil_l;
  repeat (apply Forall_app; split);
  apply Forall_when; solve [reflexivity | split; reflexivity].

Lemma structureErrors_type (h : jsstring) :
  allOfType error (fst (validateStructure h ([], []))).
Proof. unfold validateStructure, allOfType. pushed_tac. Qed.

Lemma structureWarnings_plain (h : jsstring) :
  Forall plainWarning (snd (validateStructure h ([], []))).
Proof. unfold validateStructure. pushed_tac. Qed.

Lemma compatibilityWarnings_plain (h : jsstring) :
  Forall plainWarning (snd (validateCompatibility h ([], []))).
Proof.
  unfold validateCompatibility. cbv zeta. cbn [snd].
  destruct (includes h (lit "<table")); [pushed_tac|].
  rewrite if_push. apply Forall_when. split; reflexivity.
Qed.

Lemma accessibilityWarnings_plain (h : jsstring) :
  Forall plainWarning (snd (validateAccessibility h ([], []))).
Proof. unfold validateAccessibility. pushed_tac. Qed.

Lemma checkImage_type (img : jsstring) (index : Z) :
  allOfType warning (checkImage img index []).
Proof. unfold checkImage, allOfType. pushed_tac. Qed.

Lemma forEach_checkImage_type : forall imgs index,
  allOfType warning (forEach checkImage imgs index []).
Proof.
  induction imgs as [|img imgs IH]; intros index.
  - constructor.
  - rewrite forEach_checkImage_cons. apply Forall_app. split; [apply checkImage_type | apply IH].
Qed.

Lemma checkProperty_plain lc (h : jsstring) : forall props,
  Forall plainWarning (fold_left (checkProperty lc h) props []).
Proof.
  induction props as [|[prop msg] props IH]; simpl.
  - constructor.
  - rewrite checkProperty_frame, if_push, app_nil_l. apply Forall_app.
    split; [|exact IH]. apply Forall_when. split; reflexivity.
Qed.

Lemma fontLoop_plain lc : forall fuel s w,
  fontLoop lc fuel s [] = Some w -> Forall plainWarning w.
Proof.
  induction fuel as [|fuel IH]; intros s w; simpl; [discriminate|].
  destruct (exec fontFamilyRegex s) as [m|].
  - match goal with |- context [if ?b then _ else _] => destruct b end.
    + rewrite fontLoop_frame.
      destruct (fontLoop lc fuel (after m) []) as [w'|] eqn:E; [|discriminate].
      intros H. injection H as <-. constructor; [split; reflexivity|].
      now apply (IH (after m)).
    + apply IH.
  - intros H. injection H as <-. constructor.
Qed.

Lemma validateCSS_total lc (h : jsstring) :
  exists ec wc, validateCSS lc h ([], []) = Some (ec, wc).
Proof.
  unfold validateCSS. cbv zeta.
  destruct (@widthLoop_total (S (length h)) h [] (Nat.lt_succ_diag_r _)) as [widths ->].
  rewrite fontLoop_frame.
  destruct (@fontLoop_total lc (S (length h)) h [] (Nat.lt_succ_diag_r _)) as [wf ->].
  now eexists _, _.
Qed.

Lemma validateCSS_type lc (h : jsstring) ec wc :
  validateCSS lc h ([], []) = Some (ec, wc) ->
  allOfType error ec /\ Forall plainWarning wc.
Proof.
  unfold validateCSS. cbv zeta.
  destruct (widthLoop (S (length h)) h []) as [widths|]; [|discriminate].
  rewrite fontLoop_frame.
  destruct (fontLoop lc (S (length h)) h []) as [wf|] eqn:E; [|discriminate].
  pose proof (checkProperty_plain lc h unsupportedProperties) as Hp.
  set (wp := fold_left (checkProperty lc h) unsupportedProperties []) in *.
  intros H. injection H as <- <-. rewrite !if_push, !app_nil_l. split.
  - unfold allOfType. repeat (apply Forall_app; split); apply Forall_when; reflexivity.
  - apply Forall_app. split; [exact Hp | now apply fontLoop_plain in E].
Qed.

Lemma validateImages_total (h : jsstring) :
  exists wi, validateImages h ([], []) = Some ([], wi).
Proof.
  unfold validateImages, String_match.
  destruct (@matchAll_total imgRegex (S (length h)) h (Nat.lt_succ_diag_r _)) as [l ->].
  destruct l; now eexists.
Qed.

Lemma validateImages_type (h : jsstring) e wi :
  validateImages h ([], []) = Some (e, wi) -> allOfType warning wi.
Proof.
  unfold validateImages. destruct (String_match _ _ _) as [m|]; [|discriminate].
  intros H. injection H as _ <-. apply forEach_checkImage_type.
Qed.

(** ** The shape of the result *)

Lemma validate_shape lc (h : jsstring) :
  exists ec wc wi,
    validateCSS lc h ([], []) = Some (ec, wc)
    /\ validateImages h ([], []) = Some ([], wi)
    /\ validate lc h
       = Some (resultOf
                 (fst (validateStructure h ([], [])) ++ ec)
                 (snd (validateStructure h ([], [])) ++ wc ++ wi
                    ++ snd (validateCompatibility h ([], []))
                    ++ snd (validateAccessibility h ([], [])))).
Proof.
  destruct (validateCSS_total lc h) as (ec & wc & Hc).
  destruct (validateImages_total h) as (wi & Hi).
  exists ec, wc, wi. repeat split; try assumption.
  unfold validate.
  destruct (validateStructure h ([], [])) as [es ws] eqn:Es. cbn [fst snd].
  rewrite validateCSS_frame, Hc, validateImages_frame, Hi.
  rewrite validateCompatibility_frame, validateAccessibility_frame.
  unfold resultOf. now rewrite <- !app_assoc.
Qed.

Lemma shape_warnings lc (h : jsstring) ec wc wi :
  validateCSS lc h ([], []) = Some (ec, wc) ->
  validateImages h ([], []) = Some ([], wi) ->
  allOfType warning
    (snd (validateStructure h ([], [])) ++ wc ++ wi
       ++ snd (validateCompatibility h ([], []))
       ++ snd (validateAccessibility h ([], []))).
Proof.
  intros Hc Hi. apply validateCSS_type in Hc. destruct Hc as [_ Hwc].
  apply validateImages_type in Hi.
  repeat (apply Forall_app; split);
    solve [assumption
          | apply Forall_plain_type;
            solve [assumption | apply structureWarnings_plain
                  | apply compatibilityWarnings_plain | apply accessibilityWarnings_plain]].
Qed.

(** [validate] returns, and its arrays hold what their names say. *)
Lemma validate_arrays lc (h : jsstring) :
  exists es ws,
    validate lc h = Some (resultOf es ws)
    /\ allOfType error es /\ allOfType warning ws.
Proof.
  destruct (validate_shape lc h) as (ec & wc & wi & Hc & Hi & Hv).
  eexists _, _. split; [exact Hv|]. split.
  - apply Forall_app. split; [apply structureErrors_type|].
    now apply validateCSS_type in Hc.
  - exact (@shape_warnings lc h ec wc wi Hc Hi).
Qed.

Lemma filter_isError_errors (es : list ValidationError) :
  allOfType error es -> filter isError es = es.
Proof.
  induction 1 as [|f es Hf _ IH]; simpl; [reflexivity|].
  unfold isError at 1. now rewrite Hf, IH.
Qed.

Lemma filter_isError_warnings (ws : list ValidationError) :
  allOfType warning ws -> filter isError ws = [].
Proof.
  induction 1 as [|f ws Hf _ IH]; simpl; [reflexivity|].
  unfold isError at 1. now rewrite Hf.
Qed.

Lemma filter_isWarning_warnings (ws : list ValidationError) :
  allOfType warning ws -> filter isWarning ws = ws.
Proof.
  induction 1 as [|f ws Hf _ IH]; simpl; [reflexivity|].
  unfold isWarning at 1. now rewrite Hf, IH.
Qed.

Lemma filter_isWarning_errors (es : list ValidationError) :
  allOfType error es -> filter isWarning es = [].
Proof.
  induction 1 as [|f es Hf _ IH]; simpl; [reflexivity|].
  unfold isWarning at 1. now rewrite Hf.
Qed.

Lemma result_errors_split (es ws : list ValidationError) :
  allOfType error es -> allOfType warning ws ->
  filter isError (errors (resultOf es ws)) = es
  /\ filter isWarning (errors (resultOf es ws)) = ws.
Proof.
  intros He Hw. simpl. rewrite !filter_app.
  rewrite filter_isError_errors, filter_isError_warnings by assumption.
  rewrite filter_isWarning_errors, filter_isWarning_warnings by assumption.
  now rewrite app_nil_r.
Qed.

(** ** The score, validity and the two arrays of the result *)

(** C1: for every input the score of the result is
    100 - 15 * errorCount - 5 * warningCount clamped to the interval from
    0 to 100, where the two counts are the numbers of findings of type
    error and of type warning in the result; so the score lies between 0
    and 100. *)
Theorem validate_score_formula (toLowerCase : jsstring -> jsstring) (h : jsstring) :
  exists r,
    validate toLowerCase h = Some r
    /\ (let errorCount := Z.of_nat (length (filter isError (errors r))) in
        let warningCount := Z.of_nat (length (filter isWarning (errors r))) in
        score r = clamp (100 - 15 * errorCount - 5 * warningCount) 0 100)%Z
    /\ (0 <= score r <= 100)%Z.
Proof.
  destruct (validate_arrays toLowerCase h) as (es & ws & Hv & He & Hw).
  exists (resultOf es ws). split; [exact Hv|].
  destruct (result_errors_split He Hw) as [-> ->].
  cbn [score resultOf]. unfold calculateCompatibilityScore, clamp. cbv zeta.
  rewrite filter_isError_errors by assumption. split; [f_equal; f_equal|]; lia.
Qed.

(** C2: for every input, isValid is true exactly when no finding of the
    result has type error, that is, when the number of findings of type
    error is zero. *)
Theorem validate_isValid_iff (toLowerCase : jsstring -> jsstring) (h : jsstring) :
  exists r,
    validate toLowerCase h = Some r
    /\ (isValid r = true <-> (forall f, In f (errors r) -> type f <> error))
    /\ (isValid r = true <-> length (filter isError (errors r)) = 0).
Proof.
  destruct (validate_arrays toLowerCase h) as (es & ws & Hv & He & Hw).
  exists (resultOf es ws). split; [exact Hv|].
  destruct (result_errors_split He Hw) as [-> _].
  cbn [isValid errors resultOf]. rewrite Nat.eqb_eq. split; [|reflexivity].
  split.
  - intros L f Hf. destruct es; [|discriminate]. simpl in Hf.
    unfold allOfType in Hw. rewrite Forall_forall in Hw. rewrite (Hw f Hf). discriminate.
  - intros H. destruct es as [|f es]; [reflexivity|]. exfalso.
    apply (H f); [now left | now inversion He].
Qed.

(** The scans of [validate] come to their end on every input; whether
    the engine lets the call return is told by [validateOn]. *)
Lemma validate_loops_end (toLowerCase : jsstring -> jsstring) (h : jsstring) :
  exists r, validate toLowerCase h = Some r.
Proof.
  destruct (validate_arrays toLowerCase h) as (es & ws & Hv & _).
  now exists (resultOf es ws).
Qed.


(** ** The findings of type error *)

Lemma validate_errors lc (h : jsstring) :
  exists widths ws,
    widthLoop (S (length h)) h [] = Some widths
    /\ allOfType warning ws
    /\ validate lc h = Some (resultOf (errorFindings h widths) ws).
Proof.
  destruct (validate_shape lc h) as (ec & wc & wi & Hc & Hi & Hv).
  pose proof (@shape_warnings lc h ec wc wi Hc Hi) as Hws.
  revert Hc. unfold validateCSS. cbv zeta.
  destruct (widthLoop (S (length h)) h []) as [widths|] eqn:Ew; [|discriminate].
  destruct (fontLoop lc (S (length h)) h _) as [wf|]; [|discriminate].
  intros Hc. injection Hc as <- _.
  exists widths. eexists. split; [reflexivity|]. split; [|rewrite Hv; f_equal; f_equal].
  - exact Hws.
  - unfold validateStructure, errorFindings. cbv zeta. rewrite !if_push. cbn [fst].
    rewrite !app_nil_l, <- !app_assoc. reflexivity.
Qed.

Lemma In_when {A : Type} (b : bool) (x y : A) :
  In y (when b x) <-> b = true /\ y = x.
Proof.
  destruct b; simpl; split.
  - intros [H|[]]. now split.
  - intros [_ H]. now left.
  - intros [].
  - intros [H _]. discriminate.
Qed.

Lemma In_errorFindings (h : jsstring) widths f :
  In f (errorFindings h widths) <->
    (includes h (lit "<table") = false /\ f = tableError)
    \/ (includes h (lit "<script") || includes h (lit "javascript:") = true /\ f = scriptError)
    \/ (includes h (lit "<link") && includes h (lit "stylesheet") = true /\ f = stylesheetError)
    \/ (includes h (lit "<style>") = true /\ f = styleTagError)
    \/ (numberLtb (Finite EMAIL_CONSTRAINTS.MAX_WIDTH) (maxWidthOf widths) = true
        /\ f = widthError (maxWidthOf widths)).
Proof.
  unfold errorFindings. rewrite !in_app_iff, !In_when, negb_true_iff. tauto.
Qed.

(** The findings of type error in the result are those of [errorFindings]. *)
Lemma In_result_error es ws f :
  allOfType warning ws ->
  (In f (errors (resultOf es ws)) /\ type f = error) <-> (In f es /\ type f = error).
Proof.
  intros Hw. cbn [errors resultOf]. rewrite in_app_iff. split; [|tauto].
  intros [[H|H] T]; [tauto|]. exfalso.
  unfold allOfType in Hw. rewrite Forall_forall in Hw. apply Hw in H. congruence.
Qed.

(** Two messages that differ in their first units. *)
Ltac differ H :=
  exfalso; apply (f_equal (firstn 3)) in H;
  vm_compute in H; discriminate H.

(** ** Scripts, style tags and external stylesheets *)

(** C6: an input that contains the text <script or the text javascript:
    gets an error of category structure whose message says that
    JavaScript is not supported in email clients, and is not valid,
    whatever else it contains. *)
Theorem script_is_error (toLowerCase : jsstring -> jsstring) (h : jsstring) :
  substring (lit "<script") h \/ substring (lit "javascript:") h ->
  exists r,
    validate toLowerCase h = Some r
    /\ (exists f, In f (errors r) /\ type f = error /\ category f = structure
                  /\ message f = lit "JavaScript is not supported in email clients")
    /\ isValid r = false.
Proof.
  intros H. rewrite <- !includes_iff, <- orb_true_iff in H.
  destruct (validate_errors toLowerCase h) as (widths & ws & _ & Hw & Hv).
  exists (resultOf (errorFindings h widths) ws). split; [exact Hv|].
  assert (Hin : In scriptError (errorFindings h widths))
    by (apply In_errorFindings; tauto).
  split.
  - exists scriptError. repeat split. cbn [errors resultOf]. apply in_app_iff. now left.
  - cbn [isValid resultOf]. destruct (errorFindings h widths); [destruct Hin | reflexivity].
Qed.

Lemma script_is_error_witness :
  substring (lit "<script") (lit "<script>alert(1)</script>")
  /\ exists r,
       validate asciiToLowerCase (lit "<script>alert(1)</script>") = Some r
       /\ (exists f, In f (errors r) /\ type f = error /\ category f = structure
                     /\ message f = lit "JavaScript is not supported in email clients")
       /\ isValid r = false.
Proof.
  assert (H : substring (lit "<script") (lit "<script>alert(1)</script>"))
    by (exists [], (lit ">alert(1)</script>"); reflexivity).
  split; [exact H|].
  apply (@script_is_error asciiToLowerCase (lit "<script>alert(1)</script>")).
  left. exact H.
Defined.

(** C7, on the code: the input [styleTagWithAttribute] has an opening
    style tag, yet the result has no error about style tags, because the
    check looks for the tag closed right after its name. *)
Theorem style_tag_with_attribute_not_flagged (toLowerCase : jsstring -> jsstring) :
  substring (lit "<style") styleTagWithAttribute
  /\ exists r,
       validate toLowerCase styleTagWithAttribute = Some r
       /\ (forall f, In f (errors r) -> type f = error ->
             message f <> lit "Style tags have limited support in email clients")
       /\ isValid r = true.
Proof.
  split.
  - apply includes_iff. vm_compute. reflexivity.
  - destruct (validate_errors toLowerCase styleTagWithAttribute)
      as (widths & ws & Hl & Hw & Hv).
    exists (resultOf (errorFindings styleTagWithAttribute widths) ws).
    split; [exact Hv|].
    vm_compute in Hl. injection Hl as <-. split.
    + intros f Hf Tf M.
      assert (Hin : In f (errorFindings styleTagWithAttribute []))
        by (apply (In_result_error _ f Hw); tauto).
      vm_compute in Hin. exact Hin.
    + reflexivity.
Qed.

(** C10: the css error about external stylesheets is in the result
    exactly when the input contains the text <link somewhere and the text
    stylesheet somewhere, wherever the two stand; such an input is not
    valid, and an input without the text stylesheet never gets this
    error. *)
Theorem stylesheet_error_iff (toLowerCase : jsstring -> jsstring) (h : jsstring) :
  exists r,
    validate toLowerCase h = Some r
    /\ ((exists f, In f (errors r) /\ type f = error /\ category f = css
           /\ message f = lit "External stylesheets are blocked by most email clients")
        <-> substring (lit "<link") h /\ substring (lit "stylesheet") h)
    /\ (substring (lit "<link") h /\ substring (lit "stylesheet") h -> isValid r = false)
    /\ (~ substring (lit "stylesheet") h ->
        forall f, In f (errors r) -> type f = error ->
          message f <> lit "External stylesheets are blocked by most email clients").
Proof.
  destruct (validate_errors toLowerCase h) as (widths & ws & _ & Hw & Hv).
  exists (resultOf (errorFindings h widths) ws). split; [exact Hv|].
  rewrite <- !includes_iff, <- andb_true_iff.
  assert (Hiff : (exists f, In f (errors (resultOf (errorFindings h widths) ws))
                   /\ type f = error /\ category f = css
                   /\ message f = lit "External stylesheets are blocked by most email clients")
                 <-> includes h (lit "<link") && includes h (lit "stylesheet") = true).
  { split.
    - intros (f & Hin & Tf & _ & M).
      assert (Hf : In f (errorFindings h widths))
        by (apply (In_result_error _ f Hw); tauto).
      apply In_errorFindings in Hf.
      destruct Hf as [[_ ->]|[[_ ->]|[[Hb _]|[[_ ->]|[_ ->]]]]];
        solve [exact Hb | differ M].
    - intros Hb. exists stylesheetError. repeat split.
      cbn [errors resultOf]. apply in_app_iff. left. apply In_errorFindings. tauto. }
  split; [exact Hiff|]. split.
  - intros Hb. cbn [isValid resultOf].
    assert (Hin : In stylesheetError (errorFindings h widths))
      by (apply In_errorFindings; tauto).
    destruct (errorFindings h widths); [destruct Hin | reflexivity].
  - intros Hn f Hin Tf M. apply Hn. apply includes_iff.
    assert (Hb : includes h (lit "<link") && includes h (lit "stylesheet") = true).
    { apply Hiff. exists f. repeat split; try assumption.
      assert (Hf : In f (errorFindings h widths))
        by (apply (In_result_error _ f Hw); tauto).
      apply In_errorFindings in Hf.
      destruct Hf as [[_ ->]|[[_ ->]|[[_ ->]|[[_ ->]|[_ ->]]]]];
        solve [reflexivity | differ M]. }
    apply andb_true_iff in Hb. tauto.
Qed.

(** ** Numbers in messages *)

Lemma lit_inj (a b : string) : lit a = lit b -> a = b.
Proof.
  unfold lit. intros H.
  rewrite <- (string_of_list_ascii_of_string a), <- (string_of_list_ascii_of_string b).
  f_equal. revert H. generalize (list_ascii_of_string a) (list_ascii_of_string b).
  induction l as [|x l IH]; intros [|y l']; simpl; try discriminate; [reflexivity|].
  intros H. injection H as Hx Hl. f_equal; [|now apply IH].
  now rewrite <- (ascii_N_embedding x), <- (ascii_N_embedding y), Hx.
Qed.

Lemma to_int_proper (z : Z) :
  Z.to_int z <> Decimal.Pos Decimal.Nil /\ Z.to_int z <> Decimal.Neg Decimal.Nil.
Proof.
  destruct z as [|p|p]; simpl; split; try discriminate;
    intros H; injection H as H; now apply DecimalPos.Unsigned.to_uint_nonnil in H.
Qed.

Lemma numberToString_inj (a b : Z) :
  numberToString a = numberToString b -> a = b.
Proof.
  unfold numberToString. intros H. apply lit_inj in H.
  apply DecimalZ.to_int_inj.
  destruct (to_int_proper a) as [A1 A2], (to_int_proper b) as [B1 B2].
  pose proof (NilZero.isi _ A1 A2) as Ha. pose proof (NilZero.isi _ B1 B2) as Hb.
  rewrite H in Ha. congruence.
Qed.

Lemma string_of_uint_digits (d : Decimal.uint) :
  Forall (fun c => isDigit c = true) (lit (NilEmpty.string_of_uint d)).
Proof. induction d; simpl; constructor; solve [reflexivity | assumption]. Qed.

Lemma NilZero_string_of_uint_digits (d : Decimal.uint) :
  Forall (fun c => isDigit c = true) (lit (NilZero.string_of_uint d)).
Proof.
  destruct d; try apply string_of_uint_digits. repeat constructor.
Qed.

Lemma numberToString_digits (z : Z) :
  (0 <= z)%Z -> Forall (fun c => isDigit c = true) (numberToString z).
Proof.
  unfold numberToString. destruct z as [|p|p]; intros H; try lia;
    apply NilZero_string_of_uint_digits.
Qed.

Lemma numberToString_units (z : Z) :
  Forall (fun c => isDigit c = true \/ c = 45%N) (numberToString z).
Proof.
  destruct z as [|p|p].
  - repeat constructor.
  - eapply Forall_impl; [|apply (@numberToString_digits (Z.pos p)); lia]. tauto.
  - unfold numberToString. simpl. constructor; [now right|].
    eapply Forall_impl; [|apply NilZero_string_of_uint_digits]. tauto.
Qed.

(** ** The summary *)

Lemma oneLine_app (a b : jsstring) : oneLine a -> oneLine b -> oneLine (a ++ b).
Proof. unfold oneLine. intros Ha Hb. now rewrite forallb_app, Ha, Hb. Qed.

Lemma oneLine_numberToString (z : Z) : oneLine (numberToString z).
Proof.
  unfold oneLine. apply forallb_forall. intros c Hc.
  pose proof (numberToString_units z) as H. rewrite Forall_forall in H.
  destruct (H c Hc) as [D| ->]; [|reflexivity].
  unfold isDigit in D. unfold isLineTerminator.
  apply andb_true_iff in D. destruct D as [D1 D2].
  apply N.leb_le in D1, D2.
  repeat rewrite (proj2 (N.eqb_neq _ _)) by lia. reflexivity.
Qed.

Lemma oneLine_plural (n : Z) : oneLine (plural n).
Proof. unfold plural. now destruct (n =? 1)%Z. Qed.

(** C9: the summary of a result is one of three one-line texts: the
    perfect one when the result has no finding of type error and no
    warning, the minor-issues one when it has no finding of type error but
    some warning, and the errors-and-warnings one when it has a finding of
    type error; each contains the score followed by /100. *)
Theorem summary_variants (r : ValidationResult) :
  let errorCount := Z.of_nat (length (filter isError (errors r))) in
  let warningCount := Z.of_nat (length (warnings r)) in
  (filter isError (errors r) = [] /\ warnings r = [] /\
     getValidationSummary r
     = checkMark ++ lit " Perfect! Your email template is fully compatible " ++ scoreText r
   \/ filter isError (errors r) = [] /\ warnings r <> [] /\
     getValidationSummary r
     = warningSign ++ lit " Good compatibility with " ++ numberToString warningCount
         ++ lit " minor issue" ++ plural warningCount ++ lit " " ++ scoreText r
   \/ filter isError (errors r) <> [] /\
     getValidationSummary r
     = crossMark ++ lit " " ++ numberToString errorCount ++ lit " error" ++ plural errorCount
         ++ lit " and " ++ numberToString warningCount ++ lit " warning"
         ++ plural warningCount ++ lit " found " ++ scoreText r)
  /\ substring (numberToString (score r) ++ lit "/100") (getValidationSummary r)
  /\ oneLine (getValidationSummary r).
Proof.
  intros errorCount warningCount.
  assert (V : filter isError (errors r) = [] /\ warnings r = [] /\
     getValidationSummary r
     = checkMark ++ lit " Perfect! Your email template is fully compatible " ++ scoreText r
   \/ filter isError (errors r) = [] /\ warnings r <> [] /\
     getValidationSummary r
     = warningSign ++ lit " Good compatibility with " ++ numberToString warningCount
         ++ lit " minor issue" ++ plural warningCount ++ lit " " ++ scoreText r
   \/ filter isError (errors r) <> [] /\
     getValidationSummary r
     = crossMark ++ lit " " ++ numberToString errorCount ++ lit " error" ++ plural errorCount
         ++ lit " and " ++ numberToString warningCount ++ lit " warning"
         ++ plural warningCount ++ lit " found " ++ scoreText r).
  { unfold getValidationSummary, scoreText. cbv zeta.
    fold errorCount warningCount. subst errorCount warningCount.
    destruct (filter isError (errors r)) as [|f fs]; destruct (warnings r) as [|w ws].
    - left. split; [reflexivity|]. split; reflexivity.
    - right; left. split; [reflexivity|]. split; [discriminate|].
      cbn [length Z.of_nat Z.eqb andb].
      change (lit " (Score: ") with (lit " " ++ lit "(Score: ").
      rewrite <- !app_assoc. reflexivity.
    - right; right. split; [discriminate|].
      cbn [length Z.of_nat Z.eqb andb].
      change (lit " found (Score: ") with (lit " found " ++ lit "(Score: ").
      rewrite <- !app_assoc. reflexivity.
    - right; right. split; [discriminate|].
      cbn [length Z.of_nat Z.eqb andb].
      change (lit " found (Score: ") with (lit " found " ++ lit "(Score: ").
      rewrite <- !app_assoc. reflexivity. }
  split; [exact V|].
  assert (S : forall a, substring (numberToString (score r) ++ lit "/100") (a ++ scoreText r)).
  { intros a. exists (a ++ lit "(Score: "), (lit ")"). unfold scoreText.
    change (lit "/100)") with (lit "/100" ++ lit ")"). now rewrite <- !app_assoc. }
  assert (L : oneLine (scoreText r)).
  { unfold scoreText. repeat apply oneLine_app;
      solve [reflexivity | apply oneLine_numberToString]. }
  destruct V as [(_ & _ & ->)|[(_ & _ & ->)|(_ & ->)]]; split.
  - rewrite app_assoc. apply S.
  - repeat apply oneLine_app;
      solve [reflexivity | apply oneLine_numberToString | apply oneLine_plural | exact L].
  - rewrite !app_assoc. apply S.
  - repeat apply oneLine_app;
      solve [reflexivity | apply oneLine_numberToString | apply oneLine_plural | exact L].
  - rewrite !app_assoc. apply S.
  - repeat apply oneLine_app;
      solve [reflexivity | apply oneLine_numberToString | apply oneLine_plural | exact L].
Qed.

(** ** Images *)

Lemma jsstring_eqb_eq (a b : jsstring) : jsstring_eqb a b = true <-> a = b.
Proof.
  revert b; induction a as [|x a IH]; intros [|y b]; simpl;
    try (split; [discriminate | intros H; discriminate H]); [tauto|].
  rewrite andb_true_iff, N.eqb_eq, IH. split.
  - now intros [-> ->].
  - intros H. injection H as -> ->. tauto.
Qed.

Lemma countMessage_app (m : jsstring) l1 l2 :
  countMessage m (l1 ++ l2) = countMessage m l1 + countMessage m l2.
Proof. unfold countMessage. now rewrite filter_app, length_app. Qed.

Lemma countMessage_plain (m : jsstring) l :
  startsWith m (lit "Image ") = true -> Forall plainWarning l -> countMessage m l = 0.
Proof.
  intros Hm. induction 1 as [|f l [_ Hf] _ IH]; [reflexivity|].
  unfold countMessage in *. simpl.
  destruct (jsstring_eqb (message f) m) eqn:E; [|exact IH].
  apply jsstring_eqb_eq in E. congruence.
Qed.

(** A run of units of one class is determined by the text it opens when
    what follows the run does not start in the class. *)
Lemma run_unique (p : N -> bool) : forall x y s1 s2 : jsstring,
  Forall (fun c => p c = true) x -> Forall (fun c => p c = true) y ->
  match s1 with c :: _ => p c = false | [] => True end ->
  match s2 with c :: _ => p c = false | [] => True end ->
  x ++ s1 = y ++ s2 -> x = y /\ s1 = s2.
Proof.
  induction x as [|a x IH]; intros y s1 s2 Hx Hy H1 H2 E.
  - destruct y as [|b y]; [now split|]. simpl in E. subst s1.
    inversion Hy; subst. congruence.
  - destruct y as [|b y].
    + simpl in E. subst s2. inversion Hx; subst. congruence.
    + injection E as -> E. inversion Hx; inversion Hy; subst.
      destruct (IH y s1 s2) as [-> ->]; auto.
Qed.

Lemma imageMessage_inj (n n' : Z) (s s' : jsstring) :
  (0 <= n)%Z -> (0 <= n')%Z ->
  match s with c :: _ => isDigit c = false | [] => True end ->
  match s' with c :: _ => isDigit c = false | [] => True end ->
  imageMessage n s = imageMessage n' s' -> n = n' /\ s = s'.
Proof.
  intros Hn Hn' Hs Hs' E. unfold imageMessage in E. apply app_inv_head in E.
  apply (run_unique isDigit) in E;
    auto using numberToString_digits.
  destruct E as [E ->]. split; [now apply numberToString_inj | reflexivity].
Qed.

Lemma imageMessage_eqb (n n' : Z) (s s' : jsstring) :
  (0 <= n)%Z -> (0 <= n')%Z ->
  match s with c :: _ => isDigit c = false | [] => True end ->
  match s' with c :: _ => isDigit c = false | [] => True end ->
  jsstring_eqb (imageMessage n s) (imageMessage n' s')
  = (n =? n')%Z && jsstring_eqb s s'.
Proof.
  intros Hn Hn' Hs Hs'.
  destruct (jsstring_eqb (imageMessage n s) (imageMessage n' s')) eqn:E.
  - apply jsstring_eqb_eq in E. apply imageMessage_inj in E; auto.
    destruct E as [-> ->]. rewrite Z.eqb_refl. symmetry. now apply jsstring_eqb_eq.
  - destruct (n =? n')%Z eqn:En; [|reflexivity].
    destruct (jsstring_eqb s s') eqn:Es; [|reflexivity].
    apply Z.eqb_eq in En. apply jsstring_eqb_eq in Es. subst.
    assert (T : jsstring_eqb (imageMessage n' s') (imageMessage n' s') = true)
      by now apply jsstring_eqb_eq.
    congruence.
Qed.

Lemma countMessage_when (m : jsstring) (b : bool) f :
  countMessage m (when b f) = if b && jsstring_eqb (message f) m then 1 else 0.
Proof.
  unfold countMessage. destruct b; simpl; [|reflexivity].
  now destruct (jsstring_eqb (message f) m).
Qed.

Lemma countMessage_checkImage (img : jsstring) (index n : Z) (what : jsstring) :
  (0 <= index)%Z -> (0 <= n)%Z -> In what imageRemarks ->
  countMessage (imageMessage n what) (checkImage img index [])
  = if ((index + 1 =? n)%Z && lacks img what)%bool then 1 else 0.
Proof.
  intros Hi Hn Hw. unfold checkImage. cbv zeta. rewrite !if_push, app_nil_l.
  rewrite !countMessage_app, !countMessage_when. unfold finding. cbn [message].
  change (lit "Image " ++ numberToString (index + 1) ++ ?s)
    with (imageMessage (index + 1) s).
  assert (Hi1 : (0 <= index + 1)%Z) by lia.
  simpl in Hw. destruct Hw as [<-|[<-|[<-|[<-|[]]]]];
    rewrite !imageMessage_eqb by (assumption || reflexivity);
    unfold lacks; cbn [jsstring_eqb lit map list_ascii_of_string N_of_ascii N.eqb
                         N_of_digits Pos.eqb andb negb];
    destruct (index + 1 =? n)%Z; cbn [andb]; rewrite ?andb_false_r, ?andb_true_r;
    repeat match goal with |- context [includes img ?x] => destruct (includes img x) end;
    reflexivity.
Qed.

Lemma countMessage_forEach_below : forall imgs index n what,
  (0 <= n <= index)%Z -> In what imageRemarks ->
  countMessage (imageMessage n what) (forEach checkImage imgs index []) = 0.
Proof.
  induction imgs as [|img imgs IH]; intros index n what Hn Hw; [reflexivity|].
  rewrite forEach_checkImage_cons, countMessage_app.
  rewrite countMessage_checkImage by (assumption || lia).
  rewrite IH by (assumption || lia).
  destruct (index + 1 =? n)%Z eqn:E; [apply Z.eqb_eq in E; lia | reflexivity].
Qed.

Lemma countMessage_forEach : forall imgs index i img what,
  (0 <= index)%Z -> nth_error imgs i = Some img -> In what imageRemarks ->
  countMessage (imageMessage (index + Z.of_nat i + 1) what)
    (forEach checkImage imgs index [])
  = if lacks img what then 1 else 0.
Proof.
  induction imgs as [|img0 imgs IH]; intros index i img what Hi Hn Hw.
  - destruct i; discriminate.
  - rewrite forEach_checkImage_cons, countMessage_app.
    rewrite countMessage_checkImage by (assumption || lia).
    destruct i as [|i]; simpl in Hn.
    + injection Hn as ->.
      rewrite countMessage_forEach_below by (assumption || simpl; lia).
      replace (index + 1 =? index + Z.of_nat 0 + 1)%Z with true
        by (symmetry; apply Z.eqb_eq; simpl; lia).
      simpl. destruct (lacks img what); reflexivity.
    + replace (index + 1 =? index + Z.of_nat (S i) + 1)%Z with false
        by (symmetry; apply Z.eqb_neq; lia).
      replace (index + Z.of_nat (S i) + 1)%Z with (index + 1 + Z.of_nat i + 1)%Z by lia.
      simpl. apply IH; assumption || lia.
Qed.

Lemma matchesC_litI : forall (w pre : jsstring) gs,
  matchesC (litI w) pre gs -> sameWordI w pre /\ gs = [].
Proof.
  induction w as [|c w IH]; intros pre gs H; simpl in H.
  - destruct H as [-> ->]. split; [constructor | reflexivity].
  - destruct H as (a & b & g1 & g2 & -> & -> & ((x & -> & Hx) & ->) & H).
    apply IH in H. destruct H as [H ->]. split; [|reflexivity].
    simpl. now constructor.
Qed.

Lemma imgRegex_matches (img : jsstring) gs :
  matchesC imgRegex img gs -> isImgTag img.
Proof.
  unfold imgRegex. cbn [matchesC].
  intros (name & rest & g1 & g2 & -> & _ & Hname & H).
  destruct H as (body & last & g3 & g4 & -> & _ & (Hbody & _) & ((c & -> & Hc) & _)).
  apply matchesC_litI in Hname. destruct Hname as [Hname _].
  exists name, body. repeat split; [|assumption|].
  - unfold charI in Hc. simpl in Hc. rewrite !orb_false_r in Hc.
    apply N.eqb_eq in Hc. now subst c.
  - eapply Forall_impl; [|exact Hbody]. intros a Ha ->. discriminate.
Qed.

Lemma substring_suffix (m pre s : jsstring) :
  substring m s -> substring m (pre ++ s).
Proof.
  intros (a & b & ->). exists (pre ++ a), b. now rewrite <- app_assoc.
Qed.

Lemma matchAll_sound (r : regex) : forall fuel s l,
  matchAll fuel r s = Some l ->
  Forall (fun m => substring m s /\ exists gs, matchesC r m gs) l.
Proof.
  induction fuel as [|fuel IH]; intros s l; simpl; [discriminate|].
  destruct (exec r s) as [m|] eqn:E; [|intros H; injection H as <-; constructor].
  apply exec_inv in E. destruct E as (pre & Es & _ & M & _).
  assert (Hm : substring (matched m) s /\ exists gs, matchesC r (matched m) gs).
  { split; [now exists pre, (after m) | now exists (groups m)]. }
  assert (Step : forall next pre' l',
             s = pre' ++ next -> matchAll fuel r next = Some l' ->
             Forall (fun m => substring m s /\ exists gs, matchesC r m gs) (matched m :: l')).
  { intros next pre' l' En Hl. constructor; [exact Hm|].
    apply IH in Hl. eapply Forall_impl; [|exact Hl].
    intros a [Ha Hg]. split; [|exact Hg]. rewrite En. now apply substring_suffix. }
  destruct (matched m) as [|c mt] eqn:Em; [destruct (after m) as [|d next] eqn:Ea|].
  - intros H. injection H as <-. constructor; [exact Hm | constructor].
  - destruct (matchAll fuel r next) as [l'|] eqn:El; [|discriminate].
    intros H. injection H as <-. apply (Step next (pre ++ [d])); [|exact El].
    rewrite Es. simpl. now rewrite <- app_assoc.
  - destruct (matchAll fuel r (after m)) as [l'|] eqn:El; [|discriminate].
    intros H. injection H as <-. apply (Step (after m) (pre ++ c :: mt)); [|exact El].
    rewrite Es. now rewrite <- app_assoc.
Qed.

Lemma validateImages_matches (h : jsstring) imgs :
  matchAll (S (length h)) imgRegex h = Some imgs ->
  validateImages h ([], []) = Some ([], forEach checkImage imgs 0%Z []).
Proof.
  intros H. unfold validateImages, String_match. rewrite H. now destruct imgs.
Qed.

(** ** The width scan *)

(** *** Digits *)

Lemma parseDigits_digits : forall (ds : jsstring) (seen : bool) (acc : Z),
  Forall (fun c => isDigit c = true) ds ->
  parseDigits 10 ds seen acc
  = if seen || negb (length ds =? 0)%nat
    then Some (fold_left (fun a c => (a * 10 + (Z.of_N c - 48))%Z) ds acc)
    else None.
Proof.
  induction ds as [|c ds IH]; intros seen acc H; simpl.
  - now destruct seen.
  - inversion H as [|? ? Hc Hds]; subst. unfold digitValue. rewrite Hc.
    rewrite IH by assumption. simpl. now rewrite orb_true_r.
Qed.

Lemma digit_cases (c : N) :
  isDigit c = true -> In c [48; 49; 50; 51; 52; 53; 54; 55; 56; 57]%N.
Proof.
  unfold isDigit. intros H. apply andb_true_iff in H. destruct H as [L U].
  apply N.leb_le in L, U. simpl.
  assert (c = 48 \/ c = 49 \/ c = 50 \/ c = 51 \/ c = 52 \/ c = 53 \/ c = 54
          \/ c = 55 \/ c = 56 \/ c = 57)%N by lia.
  intuition.
Qed.

Lemma parseInt_digits (ds : jsstring) :
  ds <> [] -> Forall (fun c => isDigit c = true) ds ->
  parseInt ds = toNumber (decimalValue ds).
Proof.
  intros Hne H.
  assert (E : parseInt ds
              = match parseDigits 10 ds false 0 with
                | Some v => toNumber (1 * v)
                | None => NaN
                end).
  { destruct ds as [|c ds]; [congruence|].
    inversion H as [|? ? Hc Hds]; subst.
    apply digit_cases in Hc. simpl in Hc.
    destruct Hc as [<-|[<-|[<-|[<-|[<-|[<-|[<-|[<-|[<-|[<-|[]]]]]]]]]]];
      try reflexivity.
    destruct ds as [|d ds]; [reflexivity|].
    inversion Hds as [|? ? Hd _]; subst.
    apply digit_cases in Hd. simpl in Hd.
    destruct Hd as [<-|[<-|[<-|[<-|[<-|[<-|[<-|[<-|[<-|[<-|[]]]]]]]]]]]; reflexivity. }
  rewrite E, parseDigits_digits by assumption.
  destruct ds as [|c ds]; [congruence|]. cbn [length Nat.eqb negb orb].
  unfold decimalValue. f_equal. lia.
Qed.

Lemma fold_digits_ge : forall (e : jsstring) (acc : Z),
  Forall (fun c => isDigit c = true) e -> (0 <= acc)%Z ->
  (acc <= fold_left (fun a c => (a * 10 + (Z.of_N c - 48))%Z) e acc)%Z.
Proof.
  induction e as [|c e IH]; intros acc H Ha; simpl; [lia|].
  inversion H as [|? ? Hc He]; subst.
  unfold isDigit in Hc. apply andb_true_iff in Hc. destruct Hc as [L _].
  apply N.leb_le in L.
  etransitivity; [|apply IH; [assumption | lia]]. lia.
Qed.

Lemma decimalValue_app_ge (ds e : jsstring) :
  Forall (fun c => isDigit c = true) ds -> Forall (fun c => isDigit c = true) e ->
  (decimalValue ds <= decimalValue (ds ++ e))%Z.
Proof.
  intros Hd He. unfold decimalValue. rewrite fold_left_app.
  apply fold_digits_ge; [assumption|].
  apply (@fold_digits_ge ds 0%Z); [assumption | lia].
Qed.

Lemma decimalValue_nonneg (ds : jsstring) :
  Forall (fun c => isDigit c = true) ds -> (0 <= decimalValue ds)%Z.
Proof. intros H. apply (@fold_digits_ge ds 0%Z); [assumption | lia]. Qed.

(** *** Integers as doubles *)

Lemma nearestDouble_exact (a : Z) : (a <= 2 ^ 53)%Z -> nearestDouble a = a.
Proof. intros H. unfold nearestDouble. apply Z.leb_le in H. now rewrite H. Qed.

Lemma ulp_facts (a : Z) :
  (2 ^ 53 < a)%Z ->
  let ulp := (2 ^ (Z.log2 a - 52))%Z in
  (2 <= ulp /\ 2 ^ 52 * ulp <= a < 2 ^ 53 * ulp)%Z.
Proof.
  intros H ulp.
  assert (L : (53 <= Z.log2 a)%Z).
  { change 53%Z with (Z.log2 (2 ^ 53)). apply Z.log2_le_mono. lia. }
  destruct (Z.log2_spec a) as [Lo Hi]; [lia|].
  assert (E1 : (2 ^ Z.log2 a = 2 ^ 52 * ulp)%Z).
  { unfold ulp. rewrite <- Z.pow_add_r by lia. f_equal. lia. }
  assert (E2 : (2 ^ Z.succ (Z.log2 a) = 2 ^ 53 * ulp)%Z).
  { unfold ulp. rewrite <- Z.pow_add_r by lia. f_equal. lia. }
  split; [|lia].
  unfold ulp. change 2%Z with (2 ^ 1)%Z at 1. apply Z.pow_le_mono_r; lia.
Qed.

Lemma nearestDouble_bounds (a : Z) :
  (2 ^ 53 < a)%Z ->
  let ulp := (2 ^ (Z.log2 a - 52))%Z in
  (2 ^ 52 * ulp <= nearestDouble a <= 2 ^ 53 * ulp)%Z.
Proof.
  intros H ulp. destruct (ulp_facts H) as (U & Lo & Hi). fold ulp in U, Lo, Hi.
  unfold nearestDouble. destruct (Z.leb_spec a (2 ^ 53)); [lia|]. fold ulp.
  pose proof (Z.div_mod a ulp ltac:(lia)) as D.
  pose proof (Z.mod_pos_bound a ulp ltac:(lia)) as R.
  assert (Q1 : (2 ^ 52 <= a / ulp)%Z) by (apply Z.div_le_lower_bound; lia).
  assert (Q2 : (a / ulp < 2 ^ 53)%Z) by (apply Z.div_lt_upper_bound; lia).
  destruct (_ || _); nia.
Qed.

Lemma nearestDouble_large (a : Z) : (2 ^ 53 < a)%Z -> (2 ^ 53 <= nearestDouble a)%Z.
Proof.
  intros H. pose proof (nearestDouble_bounds H) as B. cbv zeta in B.
  destruct (ulp_facts H) as (U & _). cbv zeta in U. nia.
Qed.

(** Rounding keeps the order. *)
Lemma nearestDouble_mono (a b : Z) :
  (0 <= a <= b)%Z -> (nearestDouble a <= nearestDouble b)%Z.
Proof.
  intros H. destruct (Z.le_gt_cases a (2 ^ 53)) as [Ha|Ha].
  - rewrite (nearestDouble_exact Ha).
    destruct (Z.le_gt_cases b (2 ^ 53)) as [Hb|Hb].
    + rewrite (nearestDouble_exact Hb). lia.
    + pose proof (nearestDouble_large Hb). lia.
  - assert (Hb : (2 ^ 53 < b)%Z) by lia.
    assert (L : (Z.log2 a <= Z.log2 b)%Z) by (apply Z.log2_le_mono; lia).
    destruct (Z.eq_dec (Z.log2 a) (Z.log2 b)) as [E|N].
    + destruct (ulp_facts Ha) as (U & Lo & Hi). cbv zeta in U, Lo, Hi.
      unfold nearestDouble.
      destruct (Z.leb_spec a (2 ^ 53)); [lia|]. destruct (Z.leb_spec b (2 ^ 53)); [lia|].
      rewrite <- E. set (ulp := (2 ^ (Z.log2 a - 52))%Z) in *.
      pose proof (Z.div_mod a ulp ltac:(lia)) as Da.
      pose proof (Z.mod_pos_bound a ulp ltac:(lia)) as Ra.
      pose proof (Z.div_mod b ulp ltac:(lia)) as Db.
      pose proof (Z.mod_pos_bound b ulp ltac:(lia)) as Rb.
      assert (Q : (a / ulp <= b / ulp)%Z) by (apply Z.div_le_mono; lia).
      destruct (Z.eq_dec (a / ulp) (b / ulp)) as [Eq|Nq].
      * rewrite <- Eq in *. set (q := (a / ulp)%Z) in *.
        set (ra := (a mod ulp)%Z) in *. set (rb := (b mod ulp)%Z) in *.
        assert (Hr : (ra <= rb)%Z) by lia.
        destruct (Z.ltb_spec ulp (2 * ra)), (Z.ltb_spec ulp (2 * rb)),
          (Z.eqb_spec (2 * ra) ulp), (Z.eqb_spec (2 * rb) ulp), (Z.odd q);
          cbn [orb andb]; nia.
      * assert (Q' : (a / ulp + 1 <= b / ulp)%Z) by lia.
        destruct (_ || _), (_ || _); nia.
    + pose proof (nearestDouble_bounds Ha) as Ba.
      pose proof (nearestDouble_bounds Hb) as Bb. cbv zeta in Ba, Bb.
      assert (P : (2 ^ 53 * 2 ^ (Z.log2 a - 52) <= 2 ^ 52 * 2 ^ (Z.log2 b - 52))%Z).
      { assert (53 <= Z.log2 a)%Z.
        { change 53%Z with (Z.log2 (2 ^ 53)). apply Z.log2_le_mono. lia. }
        rewrite <- !Z.pow_add_r by lia. apply Z.pow_le_mono_r; lia. }
      lia.
Qed.

(** An integer up to 2^53 is the double it is read as. *)
Lemma toNumber_exact (v : Z) : (0 <= v <= 2 ^ 53)%Z -> toNumber v = Finite v.
Proof.
  intros H. unfold toNumber. rewrite Z.abs_eq by lia.
  rewrite nearestDouble_exact by lia.
  destruct (Z.leb_spec (2 ^ 1024) v) as [B|_].
  - exfalso. assert ((2 ^ 53 < 2 ^ 1024)%Z) by (apply Z.pow_lt_mono_r; lia). lia.
  - f_equal. destruct (Z.eq_dec v 0) as [->|N]; [reflexivity|].
    rewrite Z.sgn_pos by lia. lia.
Qed.

Lemma toNumber_large (v : Z) :
  (2 ^ 53 < v)%Z ->
  toNumber v = Infinity \/ exists m, toNumber v = Finite m /\ (2 ^ 53 <= m)%Z.
Proof.
  intros H. unfold toNumber. rewrite Z.abs_eq by lia.
  pose proof (nearestDouble_large H) as L.
  destruct (Z.leb_spec (2 ^ 1024) (nearestDouble v)).
  - left. destruct (Z.ltb_spec v 0); [lia | reflexivity].
  - right. eexists. split; [reflexivity|]. rewrite Z.sgn_pos by lia. lia.
Qed.

Lemma toNumber_isNaN (v : Z) : isNaN (toNumber v) = false.
Proof.
  unfold toNumber. destruct (2 ^ 1024 <=? _)%Z; [|reflexivity].
  now destruct (v <? 0)%Z.
Qed.

Lemma toNumber_mono (a b : Z) :
  (0 <= a <= b)%Z -> numberLeb (toNumber a) (toNumber b) = true.
Proof.
  intros H. pose proof (nearestDouble_mono H) as M.
  assert (Pa : (0 <= nearestDouble a)%Z).
  { destruct (Z.le_gt_cases a (2 ^ 53)) as [Ha|Ha].
    - rewrite (nearestDouble_exact Ha). lia.
    - pose proof (nearestDouble_large Ha). lia. }
  unfold toNumber. rewrite !Z.abs_eq by lia.
  destruct (Z.ltb_spec a 0); [lia|]. destruct (Z.ltb_spec b 0); [lia|].
  destruct (Z.leb_spec (2 ^ 1024) (nearestDouble a)), (Z.leb_spec (2 ^ 1024) (nearestDouble b));
    try reflexivity; try lia.
  unfold numberLeb. cbn [isNaN negb andb numberLtb].
  apply negb_true_iff, Z.ltb_ge.
  destruct (Z.eq_dec a 0) as [->|Na].
  - rewrite nearestDouble_exact in * by lia. cbn [Z.sgn].
    destruct (Z.eq_dec b 0) as [->|Nb]; [rewrite nearestDouble_exact by lia; reflexivity|].
    rewrite Z.sgn_pos by lia. lia.
  - rewrite !Z.sgn_pos by lia. lia.
Qed.

(** A written value above the limit is above it as a double, and only
    such a value is. *)
Lemma toNumber_exceeds (bound v : Z) :
  (0 <= bound < 2 ^ 53)%Z -> (0 <= v)%Z ->
  numberLtb (Finite bound) (toNumber v) = true <-> (bound < v)%Z.
Proof.
  intros Hb Hv. destruct (Z.le_gt_cases v (2 ^ 53)) as [H|H].
  - rewrite toNumber_exact by lia. cbn [numberLtb]. apply Z.ltb_lt.
  - split; [lia|]. intros _.
    destruct (toNumber_large H) as [->|(m & -> & Hm)]; [reflexivity|].
    cbn [numberLtb]. apply Z.ltb_lt. lia.
Qed.

(** *** The order of the Numbers and the maximum of the collected widths *)

Lemma numberLeb_trans (a b c : number) :
  numberLeb a b = true -> numberLeb b c = true -> numberLeb a c = true.
Proof.
  unfold numberLeb.
  destruct a as [| |x|], b as [| |y|], c as [| |z|];
    cbn [isNaN negb andb numberLtb]; try discriminate; try reflexivity.
  rewrite !negb_true_iff, !Z.ltb_ge. lia.
Qed.

Lemma numberLtb_leb_trans (a b c : number) :
  numberLtb a b = true -> numberLeb b c = true -> numberLtb a c = true.
Proof.
  unfold numberLeb.
  destruct a as [| |x|], b as [| |y|], c as [| |z|];
    cbn [isNaN negb andb numberLtb]; try discriminate; try reflexivity.
  rewrite negb_true_iff, Z.ltb_ge, !Z.ltb_lt. lia.
Qed.

Lemma numberLeb_Finite (x y : Z) : numberLeb (Finite x) (Finite y) = true <-> (x <= y)%Z.
Proof. unfold numberLeb. cbn [isNaN negb andb numberLtb]. now rewrite negb_true_iff, Z.ltb_ge. Qed.

Lemma numberLeb_refl (a : number) : isNaN a = false -> numberLeb a a = true.
Proof.
  unfold numberLeb. destruct a as [| |x|]; cbn [isNaN negb andb numberLtb];
    try discriminate; try reflexivity.
  intros _. now rewrite Z.ltb_irrefl.
Qed.

Lemma maxNumber_spec (a b : number) :
  isNaN a = false -> isNaN b = false ->
  isNaN (maxNumber a b) = false
  /\ numberLeb a (maxNumber a b) = true /\ numberLeb b (maxNumber a b) = true.
Proof.
  unfold numberLeb.
  destruct a as [| |x|], b as [| |y|]; cbn [isNaN]; try discriminate; intros _ _;
    cbn [maxNumber numberLtb isNaN negb andb]; rewrite ?Z.ltb_irrefl;
    try (repeat split; reflexivity).
  destruct (Z.ltb_spec x y); cbn [isNaN negb andb numberLtb];
    rewrite !negb_true_iff, !Z.ltb_ge; repeat split; lia.
Qed.

Lemma maxNumber_cases (a b : number) : maxNumber a b = a \/ maxNumber a b = b.
Proof.
  destruct a as [| |x|], b as [| |y|]; cbn [maxNumber numberLtb]; try tauto.
  destruct (x <? y)%Z; tauto.
Qed.

Lemma Math_max_ge : forall (l : list number) (x w : number),
  isNaN x = false -> Forall (fun y => isNaN y = false) l ->
  w = x \/ In w l -> numberLeb w (Math_max x l) = true /\ isNaN (Math_max x l) = false.
Proof.
  unfold Math_max. induction l as [|y l IH]; intros x w Hx Hl H; simpl.
  - destruct H as [->|[]]. split; [now apply numberLeb_refl | exact Hx].
  - inversion Hl as [|? ? Hy Hl']; subst.
    destruct (@maxNumber_spec x y Hx Hy) as (Hm & Lx & Ly).
    destruct H as [->|[->|H]].
    + destruct (IH (maxNumber x y) (maxNumber x y) Hm Hl' (or_introl eq_refl)) as [L N].
      split; [exact (@numberLeb_trans _ _ _ Lx L) | exact N].
    + destruct (IH (maxNumber x w) (maxNumber x w) Hm Hl' (or_introl eq_refl)) as [L N].
      split; [exact (@numberLeb_trans _ _ _ Ly L) | exact N].
    + apply IH; [assumption | assumption | now right].
Qed.

Lemma Math_max_in : forall (l : list number) (x : number),
  Math_max x l = x \/ In (Math_max x l) l.
Proof.
  unfold Math_max. induction l as [|y l IH]; intros x; simpl; [now left|].
  destruct (IH (maxNumber x y)) as [H|H]; [|now right; right].
  rewrite H. destruct (maxNumber_cases x y) as [->| ->]; [now left | right; now left].
Qed.

Lemma maxWidthOf_ge (l : list number) (w : number) :
  Forall (fun y => isNaN y = false) l -> In w l -> numberLeb w (maxWidthOf l) = true.
Proof.
  destruct l as [|x l]; [intros _ []|]. intros Hl H.
  inversion Hl as [|? ? Hx Hl']; subst. apply Math_max_ge; try assumption.
  destruct H as [->|H]; [now left | now right].
Qed.

Lemma maxWidthOf_in (l : list number) : l <> [] -> In (maxWidthOf l) l.
Proof.
  destruct l as [|x l]; [congruence|]. intros _. simpl.
  destruct (Math_max_in l x) as [->|H]; [now left | now right].
Qed.

(** *** How the matcher runs on the width pattern *)

Lemma mre_litI_app : forall (w x t : jsstring) caps k,
  sameWordI w x -> mre (litI w) (x ++ t) caps k = k t caps.
Proof.
  intros w x t caps k H. induction H as [|c a w x Hc _ IH]; simpl; [reflexivity|].
  now rewrite Hc.
Qed.

Lemma star_run (p : N -> bool) (t : jsstring) k y : forall x : jsstring,
  Forall (fun c => p c = true) x ->
  match t with c :: _ => p c = false | [] => True end ->
  k t = Some y -> star p (x ++ t) k = Some y.
Proof.
  induction x as [|a x IH]; intros Hx Ht Hk; simpl.
  - destruct t as [|c t']; simpl; [assumption|]. now rewrite Ht.
  - inversion Hx as [|? ? Ha Hx']; subst. rewrite Ha.
    now rewrite IH.
Qed.

Lemma star_total (p : N -> bool) k :
  (forall t, exists y, k t = Some y) ->
  forall s, star p s k = k (dropWhile p s).
Proof.
  intros Hk. induction s as [|c s IH]; simpl; [reflexivity|].
  destruct (p c); [|reflexivity]. rewrite IH.
  destruct (Hk (dropWhile p s)) as [y ->]. reflexivity.
Qed.

Lemma keeps_opt (r : regex) k :
  (forall pre gs, matchesC r pre gs -> gs = []) ->
  keeps k -> keeps (fun s caps => mre (Opt r) s caps k).
Proof.
  intros Hr Hk s caps. simpl.
  destruct (mre r s caps k) as [x|] eqn:E; [|apply Hk].
  apply mre_sound in E. destruct E as (pre & s' & gs & _ & M & E).
  apply Hr in M. subst gs. rewrite app_nil_r in E.
  destruct (Hk s' caps) as [s'' E']. exists s''. congruence.
Qed.

Lemma takeWhile_dropWhile (p : N -> bool) (s : jsstring) :
  s = takeWhile p s ++ dropWhile p s.
Proof.
  induction s as [|c s IH]; simpl; [reflexivity|].
  destruct (p c); simpl; [now rewrite <- IH | reflexivity].
Qed.

Lemma takeWhile_app (p : N -> bool) (x t : jsstring) :
  Forall (fun c => p c = true) x -> takeWhile p (x ++ t) = x ++ takeWhile p t.
Proof.
  induction 1 as [|a x Ha _ IH]; simpl; [reflexivity|]. now rewrite Ha, IH.
Qed.

Lemma takeWhile_all (p : N -> bool) (s : jsstring) :
  Forall (fun c => p c = true) (takeWhile p s).
Proof.
  induction s as [|c s IH]; simpl; [constructor|].
  destruct (p c) eqn:E; now constructor.
Qed.

Lemma oneOf_quote (c : N) :
  oneOf (dq ++ lit "'") c = true <-> c = 34%N \/ c = 39%N.
Proof.
  unfold oneOf. simpl. rewrite !orb_true_iff, !N.eqb_eq. intuition discriminate.
Qed.

Lemma oneOf_assign (c : N) :
  oneOf (lit "=:") c = true <-> c = 61%N \/ c = 58%N.
Proof.
  unfold oneOf. simpl. rewrite !orb_true_iff, !N.eqb_eq. intuition discriminate.
Qed.

Lemma keeps_widthTail :
  keeps (fun s caps => mre widthTail s caps (fun s' caps' => Some (s', caps'))).
Proof.
  unfold widthTail. cbn [mre].
  apply (@keeps_opt (litI (lit "px"))).
  - intros pre gs M. now apply matchesC_litI in M.
  - apply (@keeps_opt (Char (oneOf (dq ++ lit "'")))).
    + intros pre gs [_ M]. exact M.
    + intros s caps. now exists s.
Qed.

Lemma mre_seq (r1 r2 : regex) (s : jsstring) caps k :
  mre (Seq r1 r2) s caps k = mre r1 s caps (fun s' caps' => mre r2 s' caps' k).
Proof. reflexivity. Qed.

Lemma mre_star (p : N -> bool) (s : jsstring) caps k :
  mre (Star p) s caps k = star p s (fun s' => k s' caps).
Proof. reflexivity. Qed.

Lemma mre_group (r : regex) (s : jsstring) caps k :
  mre (Group r) s caps k
  = mre r s caps (fun s' caps' => k s' (caps' ++ [firstn (length s - length s') s])).
Proof. reflexivity. Qed.

Lemma mre_char_true (p : N -> bool) (c : N) (t : jsstring) caps k :
  p c = true -> mre (Char p) (c :: t) caps k = k t caps.
Proof. intros H. simpl. now rewrite H. Qed.

Lemma opt_char_skip (p : N -> bool) (c : N) (t : jsstring) caps k :
  p c = false -> mre (Opt (Char p)) (c :: t) caps k = k (c :: t) caps.
Proof. intros H. simpl. now rewrite H. Qed.

Lemma opt_char_take (p : N -> bool) (c : N) (t : jsstring) caps k y :
  p c = true -> k t caps = Some y -> mre (Opt (Char p)) (c :: t) caps k = Some y.
Proof. intros H Hk. simpl. now rewrite H, Hk. Qed.

(** At an occurrence the pattern matches, and the group it captures is
    the whole run of digits that starts there. *)
Lemma widthRegex_at_occurrence (w ws1 : jsstring) (c : N) (ws2 q ds post : jsstring) :
  sameWordI (lit "width") w ->
  Forall (fun x => isWhiteSpace x = true) ws1 ->
  c = 61%N \/ c = 58%N ->
  Forall (fun x => isWhiteSpace x = true) ws2 ->
  q = [] \/ q = dq \/ q = lit "'" ->
  ds <> [] ->
  Forall (fun x => isDigit x = true) ds ->
  exists s',
    matchHere widthRegex (w ++ ws1 ++ [c] ++ ws2 ++ q ++ ds ++ post)
    = Some (s', [ds ++ takeWhile isDigit post]).
Proof.
  intros Hw Hws1 Hc Hws2 Hq Hne Hds.
  destruct ds as [|d ds]; [congruence|]. inversion Hds as [|? ? Hd Hds']; subst.
  assert (Hdw : isWhiteSpace d = false).
  { apply digit_cases in Hd. simpl in Hd.
    destruct Hd as [<-|[<-|[<-|[<-|[<-|[<-|[<-|[<-|[<-|[<-|[]]]]]]]]]]]; reflexivity. }
  assert (Hdq : oneOf (dq ++ lit "'") d = false).
  { apply digit_cases in Hd. simpl in Hd.
    destruct Hd as [<-|[<-|[<-|[<-|[<-|[<-|[<-|[<-|[<-|[<-|[]]]]]]]]]]]; reflexivity. }
  pose proof keeps_widthTail as Ktail.
  set (k0 := fun (s' : jsstring) (caps' : list jsstring) => Some (s', caps')) in *.
  set (dsmax := (d :: ds) ++ takeWhile isDigit post).
  destruct (Ktail (dropWhile isDigit (ds ++ post)) [dsmax]) as [s' Hs'].
  exists s'. unfold matchHere, widthRegex, Plus. fold widthTail. fold k0.
  rewrite mre_seq, mre_litI_app by assumption.
  rewrite mre_seq, mre_star. apply star_run; [assumption | | ].
  { simpl. destruct Hc as [->| ->]; reflexivity. }
  cbn [app]. rewrite mre_seq, mre_char_true by (now apply oneOf_assign).
  rewrite mre_seq, mre_star. apply star_run; [assumption | | ].
  { destruct Hq as [->|[->| ->]]; simpl; [assumption | reflexivity | reflexivity]. }
  assert (Hgroup :
    mre (Seq (Group (Seq (Char isDigit) (Star isDigit))) widthTail)
      (d :: ds ++ post) [] k0 = Some (s', [dsmax])).
  { rewrite mre_seq, mre_group, mre_seq, mre_char_true by assumption.
    rewrite mre_star, star_total.
    - cbn [app]. replace (firstn _ (d :: ds ++ post)) with dsmax; [exact Hs'|].
      unfold dsmax. symmetry.
      pose proof (firstn_app_exact (d :: takeWhile isDigit (ds ++ post))
                    (dropWhile isDigit (ds ++ post))) as F.
      cbn [app] in F. rewrite <- (takeWhile_dropWhile isDigit (ds ++ post)) in F.
      rewrite F. now rewrite (takeWhile_app isDigit post Hds').
    - intros t. destruct (Ktail t ([] ++ [firstn (length (d :: ds ++ post) - length t)
                                           (d :: ds ++ post)])) as [y Hy].
      eexists. exact Hy. }
  rewrite mre_seq.
  destruct Hq as [->|[->| ->]].
  - cbn [app]. rewrite opt_char_skip by assumption. exact Hgroup.
  - apply (@opt_char_take _ 34%N); [reflexivity | exact Hgroup].
  - apply (@opt_char_take _ 39%N); [reflexivity | exact Hgroup].
Qed.

(** What a match of the width pattern is made of. *)
Lemma widthRegex_matches (m : jsstring) gs :
  matchesC widthRegex m gs ->
  exists w ws1 c ws2 q ds tail,
    m = w ++ ws1 ++ [c] ++ ws2 ++ q ++ ds ++ tail
    /\ sameWordI (lit "width") w
    /\ Forall (fun x => isWhiteSpace x = true) ws1
    /\ (c = 61%N \/ c = 58%N)
    /\ Forall (fun x => isWhiteSpace x = true) ws2
    /\ (q = [] \/ q = dq \/ q = lit "'")
    /\ ds <> []
    /\ Forall (fun x => isDigit x = true) ds
    /\ Forall (fun x => x <> 119%N /\ x <> 87%N) tail
    /\ gs = [ds].
Proof.
  unfold widthRegex, Plus. cbn [matchesC].
  intros (w & m1 & g1 & g1' & -> & -> & Hw & H).
  destruct H as (ws1 & m2 & g2 & g2' & -> & -> & (Hws1 & ->) & H).
  destruct H as (c1 & m3 & g3 & g3' & -> & -> & ((c & -> & Hc) & ->) & H).
  destruct H as (ws2 & m4 & g4 & g4' & -> & -> & (Hws2 & ->) & H).
  destruct H as (q & m5 & g5 & g5' & -> & -> & Hq & H).
  destruct H as (ds & m6 & g6 & g6' & -> & -> & Hds & H).
  destruct H as (px & q2 & g7 & g8 & -> & -> & Hpx & Hq2).
  apply matchesC_litI in Hw. destruct Hw as [Hw ->].
  destruct Hds as (g & (d1 & dr & g9 & g9' & -> & -> & ((d & -> & Hd) & ->) & (Hdr & ->)) & ->).
  exists w, ws1, c, ws2, q, ([d] ++ dr), (px ++ q2).
  assert (Hq' : (q = [] \/ q = dq \/ q = lit "'") /\ g5 = []).
  { destruct Hq as [[-> ->]|[(x & -> & Hx) ->]]; [tauto|].
    apply oneOf_quote in Hx. destruct Hx as [->| ->]; tauto. }
  destruct Hq' as [Hq' ->].
  assert (Hpx' : Forall (fun x => x <> 119%N /\ x <> 87%N) px /\ g7 = []).
  { destruct Hpx as [[-> ->]|Hpx]; [split; [constructor | reflexivity]|].
    apply matchesC_litI in Hpx. destruct Hpx as [Hpx ->]. split; [|reflexivity].
    inversion Hpx as [|? a ? t Ha Ht]; subst.
    inversion Ht as [|? b ? t' Hb Ht']; subst. inversion Ht'; subst.
    unfold charI in Ha, Hb. simpl in Ha, Hb.
    rewrite !orb_false_r, !orb_true_iff, !N.eqb_eq in Ha, Hb.
    repeat constructor; intros ->; intuition discriminate. }
  destruct Hpx' as [Hpx' ->].
  assert (Hq2' : Forall (fun x => x <> 119%N /\ x <> 87%N) q2 /\ g8 = []).
  { destruct Hq2 as [[-> ->]|[(x & -> & Hx) ->]]; [split; [constructor | reflexivity]|].
    apply oneOf_quote in Hx. split; [|reflexivity].
    repeat constructor; intros ->; intuition discriminate. }
  destruct Hq2' as [Hq2' ->].
  repeat split; try assumption.
  - now apply oneOf_assign.
  - discriminate.
  - now constructor.
  - now apply Forall_app.
Qed.

Lemma sameWord_width (w : jsstring) :
  sameWordI (lit "width") w ->
  exists c0 body,
    w = c0 :: body /\ (c0 = 119%N \/ c0 = 87%N) /\ Forall notW body.
Proof.
  intros H.
  inversion H as [|? c0 ? w1 H0 T0]; subst.
  inversion T0 as [|? c1 ? w2 H1 T1]; subst.
  inversion T1 as [|? c2 ? w3 H2 T2]; subst.
  inversion T2 as [|? c3 ? w4 H3 T3]; subst.
  inversion T3 as [|? c4 ? w5 H4 T4]; subst. inversion T4; subst.
  unfold charI in *. simpl in H0, H1, H2, H3, H4.
  rewrite !orb_false_r, !orb_true_iff, !N.eqb_eq in H0, H1, H2, H3, H4.
  exists c0, [c1; c2; c3; c4]. split; [reflexivity|]. split; [tauto|].
  unfold notW. repeat constructor; intros ->; intuition discriminate.
Qed.

Lemma whiteSpace_notW (ws : jsstring) :
  Forall (fun x => isWhiteSpace x = true) ws -> Forall notW ws.
Proof. apply Forall_impl. intros a Ha. split; intros ->; discriminate. Qed.

Lemma digits_notW (ds : jsstring) :
  Forall (fun x => isDigit x = true) ds -> Forall notW ds.
Proof. apply Forall_impl. intros a Ha. split; intros ->; discriminate. Qed.

(** A match of the width pattern holds the letter w only as its first unit. *)
Lemma widthRegex_match_shape (m : jsstring) gs :
  matchesC widthRegex m gs ->
  exists c0 body, m = c0 :: body /\ Forall notW body.
Proof.
  intros H. apply widthRegex_matches in H.
  destruct H as (w & ws1 & c & ws2 & q & ds & tail & -> & Hw & Hws1 & Hc & Hws2
                 & Hq & _ & Hds & Htail & _).
  apply sameWord_width in Hw. destruct Hw as (c0 & body & -> & _ & Hbody).
  exists c0, (body ++ ws1 ++ [c] ++ ws2 ++ q ++ ds ++ tail). split; [reflexivity|].
  repeat (apply Forall_app; split); try assumption.
  - now apply whiteSpace_notW.
  - destruct Hc as [->| ->]; repeat constructor; discriminate.
  - now apply whiteSpace_notW.
  - destruct Hq as [->|[->| ->]]; repeat constructor; discriminate.
  - now apply digits_notW.
Qed.

(** *** The leftmost match *)

Lemma exec_finds (r : regex) (t : jsstring) y : forall pre : jsstring,
  matchHere r t = Some y ->
  exists m,
    exec r (pre ++ t) = Some m
    /\ ((groups m = snd y /\ after m = fst y /\ matched m ++ after m = t)
        \/ exists pre1 pre2,
             pre = pre1 ++ pre2 /\ pre2 <> []
             /\ matched m ++ after m = pre2 ++ t).
Proof.
  intros pre Hy. induction pre as [|a pre IH].
  - destruct y as [s' caps]. cbn [app].
    assert (E : exec r t = Some {| matched := firstn (length t - length s') t;
                                   groups := caps; after := s' |}).
    { destruct t; simpl; now rewrite Hy. }
    eexists. split; [exact E|]. left. cbn [groups after matched fst snd].
    repeat split. apply matchHere_inv in Hy. destruct Hy as (p & -> & _).
    now rewrite firstn_app_exact.
  - cbn [app exec].
    destruct (matchHere r (a :: pre ++ t)) as [[s' caps]|] eqn:E.
    + eexists. split; [reflexivity|]. right. exists [], (a :: pre).
      split; [reflexivity|]. split; [discriminate|]. cbn [matched after].
      apply matchHere_inv in E. destruct E as (p & E & _).
      change (a :: pre ++ t) with ((a :: pre) ++ t) in *.
      rewrite E at 1 2. now rewrite firstn_app_exact.
    + destruct IH as (m & Hm & [H|(pre1 & pre2 & -> & Hne & H)]).
      * exists m. split; [exact Hm|]. now left.
      * exists m. split; [exact Hm|]. right. exists (a :: pre1), pre2.
        repeat split; assumption.
Qed.

(** *** What the loop collects *)

Lemma widthOccurrence_suffix (pre s : jsstring) (v : Z) :
  widthOccurrence s v -> widthOccurrence (pre ++ s) v.
Proof.
  intros (p & w & ws1 & c & ws2 & q & ds & post & -> & H).
  exists (pre ++ p), w, ws1, c, ws2, q, ds, post. split; [|exact H].
  now rewrite <- app_assoc.
Qed.

Lemma widthLoop_frame : forall fuel s acc,
  widthLoop fuel s acc
  = match widthLoop fuel s [] with
    | Some l => Some (acc ++ l)
    | None => None
    end.
Proof.
  induction fuel as [|fuel IH]; intros s acc; simpl; [reflexivity|].
  destruct (exec widthRegex s) as [m|]; [|now rewrite app_nil_r].
  set (width := parseInt (group m 1)).
  destruct (negb (isNaN width)); [|apply IH].
  rewrite IH, (IH _ (push [] width)).
  destruct (widthLoop fuel (after m) []); [|reflexivity].
  unfold push. now rewrite <- app_assoc.
Qed.

Lemma widthLoop_collects : forall fuel s,
  length s < fuel ->
  exists l,
    widthLoop fuel s [] = Some l
    /\ (forall w, In w l -> exists v, widthOccurrence s v /\ w = toNumber v)
    /\ (forall v, widthOccurrence s v ->
          exists w, In w l /\ numberLeb (toNumber v) w = true).
Proof.
  induction fuel as [|fuel IH]; intros s Hf; [lia|]. simpl.
  destruct (exec widthRegex s) as [m|] eqn:E.
  - pose proof (@exec_shorter widthRegex s m eq_refl E) as Hlen.
    pose proof (@exec_inv _ _ _ E) as (pre & Es & _ & M & _).
    pose proof (@widthRegex_match_shape _ _ M) as (c0 & body & Em & Hbody).
    apply widthRegex_matches in M.
    destruct M as (w & ws1 & c & ws2 & q & ds & tail & Hm & Hw & Hws1 & Hc & Hws2
                   & Hq & Hne & Hds & _ & Hg).
    unfold group. rewrite Hg. cbn [Nat.sub nth].
    rewrite (@parseInt_digits ds Hne Hds), toNumber_isNaN. cbn [negb].
    rewrite widthLoop_frame.
    destruct (IH (after m)) as (l & -> & Sound & Complete); [lia|].
    exists (toNumber (decimalValue ds) :: l). split; [reflexivity|]. split.
    + intros x [<-|Hx].
      * exists (decimalValue ds). split; [|reflexivity].
        exists pre, w, ws1, c, ws2, q, ds, (tail ++ after m).
        split; [|repeat split; assumption].
        rewrite Es, Hm. now rewrite <- !app_assoc.
      * destruct (Sound x Hx) as (v & Hv & ->). exists v. split; [|reflexivity].
        rewrite Es, app_assoc. now apply widthOccurrence_suffix.
    + intros v Hv.
      destruct Hv as (p0 & w0 & ws10 & c1 & ws20 & q0 & ds0 & post0 & Es0 & Hw0 & Hws10
                      & Hc1 & Hws20 & Hq0 & Hne0 & Hds0 & ->).
      destruct (@widthRegex_at_occurrence w0 ws10 c1 ws20 q0 ds0 post0 Hw0 Hws10 Hc1 Hws20 Hq0 Hne0 Hds0)
        as (s'' & Hhere).
      destruct (@exec_finds widthRegex _ _ p0 Hhere) as (m' & Hm' & Hcase).
      rewrite <- Es0, E in Hm'. injection Hm' as <-.
      destruct Hcase as [(Hgm & _ & _)|(pre1 & pre2 & -> & Hpre2 & Hsplit)].
      * exists (toNumber (decimalValue ds)). split; [now left|].
        cbn [snd] in Hgm. rewrite Hg in Hgm. injection Hgm as ->.
        apply toNumber_mono. split; [now apply decimalValue_nonneg|].
        apply decimalValue_app_ge; [assumption | apply takeWhile_all].
      * assert (Hin : widthOccurrence (after m) (decimalValue ds0)).
        { apply app_eq_app in Hsplit. destruct Hsplit as (x & [[Hx1 Hx2]|[Hx1 Hx2]]).
          - destruct x as [|x0 x].
            + rewrite app_nil_l in Hx2.
              exists [], w0, ws10, c1, ws20, q0, ds0, post0.
              split; [now rewrite <- Hx2 | repeat split; assumption].
            + exfalso. apply sameWord_width in Hw0.
              destruct Hw0 as (y0 & body0 & -> & Hy0 & _).
              cbn [app] in Hx2. injection Hx2 as -> _.
              destruct pre2 as [|a pre2]; [congruence|].
              rewrite Em in Hx1. cbn [app] in Hx1. injection Hx1 as _ ->.
              apply Forall_app in Hbody. destruct Hbody as [_ Hbody].
              inversion Hbody as [|? ? [N1 N2] _]; subst. destruct Hy0; congruence.
          - rewrite Hx2. exists x, w0, ws10, c1, ws20, q0, ds0, post0.
            split; [reflexivity | repeat split; assumption]. }
        destruct (Complete _ Hin) as (x & Hx & Hle).
        exists x. split; [now right | exact Hle].
  - exists []. split; [reflexivity|]. split; [intros w []|].
    intros v Hv.
    destruct Hv as (p0 & w0 & ws10 & c1 & ws20 & q0 & ds0 & post0 & Es0 & Hw0 & Hws10
                    & Hc1 & Hws20 & Hq0 & Hne0 & Hds0 & ->).
    destruct (@widthRegex_at_occurrence w0 ws10 c1 ws20 q0 ds0 post0 Hw0 Hws10 Hc1 Hws20 Hq0 Hne0 Hds0)
      as (s'' & Hhere).
    destruct (@exec_finds widthRegex _ _ p0 Hhere) as (m' & Hm' & _).
    rewrite <- Es0, E in Hm'. discriminate.
Qed.

Lemma widthOccurrence_nonneg (h : jsstring) (v : Z) : widthOccurrence h v -> (0 <= v)%Z.
Proof.
  intros (p0 & w0 & ws10 & c1 & ws20 & q0 & ds0 & post0 & _ & _ & _ & _ & _ & _ & _ & Hds & ->).
  now apply decimalValue_nonneg.
Qed.

(** *** The width error *)

Lemma filter_when {A : Type} (p : A -> bool) (b : bool) (x : A) :
  filter p (when b x) = if b && p x then [x] else [].
Proof. destruct b; simpl; [now destruct (p x) | reflexivity]. Qed.

Lemma filter_isWidthError_warnings (ws : list ValidationError) :
  allOfType warning ws -> filter isWidthError ws = [].
Proof.
  induction 1 as [|f ws Hf _ IH]; simpl; [reflexivity|].
  unfold isWidthError at 1, isError. now rewrite Hf.
Qed.

Lemma maxWidth_spec (h : jsstring) :
  (forall v, widthOccurrence h v -> numberLeb (toNumber v) (maxWidth h) = true)
  /\ ((exists v, widthOccurrence h v) ->
      exists v, widthOccurrence h v /\ maxWidth h = toNumber v)
  /\ ((forall v, ~ widthOccurrence h v) -> maxWidth h = Finite 0).
Proof.
  unfold maxWidth.
  destruct (@widthLoop_collects (S (length h)) h (Nat.lt_succ_diag_r _))
    as (l & -> & Sound & Complete).
  assert (Hl : Forall (fun y => isNaN y = false) l).
  { apply Forall_forall. intros w Hw. destruct (Sound w Hw) as (v & _ & ->).
    apply toNumber_isNaN. }
  split; [|split].
  - intros v Hv. destruct (Complete v Hv) as (w & Hw & Hle).
    apply (@maxWidthOf_ge l w Hl) in Hw. exact (@numberLeb_trans _ _ _ Hle Hw).
  - intros (v & Hv). destruct (Complete v Hv) as (w & Hw & _).
    apply Sound, maxWidthOf_in. intros ->. destruct Hw.
  - intros Hno. destruct l as [|w l]; [reflexivity|].
    exfalso. destruct (Sound w (or_introl eq_refl)) as (v & Hv & _). exact (Hno v Hv).
Qed.

(** The maximum is above the limit exactly when a written value is. *)
Lemma maxWidth_exceeds_iff (h : jsstring) :
  numberLtb (Finite EMAIL_CONSTRAINTS.MAX_WIDTH) (maxWidth h) = true
  <-> exists v, widthOccurrence h v /\ (600 < v)%Z.
Proof.
  destruct (maxWidth_spec h) as (H1 & H2 & H3). unfold EMAIL_CONSTRAINTS.MAX_WIDTH. split.
  - intros Hbig.
    assert (Hsome : exists v, widthOccurrence h v).
    { destruct (@widthLoop_collects (S (length h)) h (Nat.lt_succ_diag_r _)) as (l & Hl & Sound & _).
      destruct l as [|w l].
      - unfold maxWidth in Hbig. rewrite Hl in Hbig. discriminate Hbig.
      - destruct (Sound w (or_introl eq_refl)) as (v & Hv & _). now exists v. }
    destruct (H2 Hsome) as (v & Hv & Ev). exists v. split; [exact Hv|].
    rewrite Ev in Hbig.
    apply (@toNumber_exceeds 600 v); [|exact (widthOccurrence_nonneg Hv)|exact Hbig].
    split; [lia|]. reflexivity.
  - intros (v & Hv & Hbig).
    apply (@numberLtb_leb_trans _ (toNumber v)); [|now apply H1].
    apply (@toNumber_exceeds 600 v); [|exact (widthOccurrence_nonneg Hv)|exact Hbig].
    split; [lia|]. reflexivity.
Qed.

(** The findings about the width limit in a result. *)
Lemma width_errors lc (h : jsstring) :
  exists r,
    validate lc h = Some r
    /\ filter isWidthError (errors r)
       = if numberLtb (Finite EMAIL_CONSTRAINTS.MAX_WIDTH) (maxWidth h)
         then [widthError (maxWidth h)] else [].
Proof.
  destruct (validate_errors lc h) as (widths & ws & Hl & Hw & Hv).
  exists (resultOf (errorFindings h widths) ws). split; [exact Hv|].
  cbn [errors resultOf]. rewrite filter_app, (filter_isWidthError_warnings Hw).
  unfold errorFindings, maxWidth. rewrite Hl, !filter_app, !filter_when.
  change (isWidthError tableError) with false.
  change (isWidthError scriptError) with false.
  change (isWidthError stylesheetError) with false.
  change (isWidthError styleTagError) with false.
  change (isWidthError (widthError (maxWidthOf widths))) with true.
  rewrite !andb_false_r, andb_true_r, !app_nil_r. reflexivity.
Qed.

(** Where every written width is a safe integer the maximum is the
    largest of them, and it is printed with all its digits. *)
Lemma maxWidth_safe (h : jsstring) :
  (forall v, widthOccurrence h v -> (v <= MAX_SAFE_INTEGER)%Z) ->
  exists m,
    maxWidth h = Finite m
    /\ (forall v, widthOccurrence h v -> (v <= m)%Z)
    /\ ((exists v, widthOccurrence h v) -> widthOccurrence h m)
    /\ Number_toString (maxWidth h) = numberToString m.
Proof.
  intros Hsafe. destruct (maxWidth_spec h) as (H1 & H2 & H3).
  assert (Exact : forall v, widthOccurrence h v -> toNumber v = Finite v).
  { intros v Hv. apply toNumber_exact. split; [exact (widthOccurrence_nonneg Hv)|].
    specialize (Hsafe v Hv). unfold MAX_SAFE_INTEGER in Hsafe.
    change (2 ^ 53)%Z with 9007199254740992%Z. lia. }
  assert (Render : forall m, (0 <= m <= MAX_SAFE_INTEGER)%Z ->
                     Number_toString (Finite m) = numberToString m).
  { intros m Hm. unfold Number_toString, magnitudeToString.
    destruct (Z.ltb_spec m 0); [lia|].
    destruct (Z.leb_spec m (2 ^ 53)) as [_|G]; [reflexivity|].
    exfalso. unfold MAX_SAFE_INTEGER in Hm. change (2 ^ 53)%Z with 9007199254740992%Z in G.
    lia. }
  destruct (@widthLoop_collects (S (length h)) h (Nat.lt_succ_diag_r _))
    as (l & Hl & Sound & Complete).
  destruct l as [|w l].
  - assert (Hno : forall v, ~ widthOccurrence h v).
    { intros v Hv. destruct (Complete v Hv) as (x & [] & _). }
    exists 0%Z. rewrite (H3 Hno). split; [reflexivity|]. split; [|split].
    + intros v Hv. destruct (Hno v Hv).
    + intros (v & Hv). destruct (Hno v Hv).
    + apply Render. unfold MAX_SAFE_INTEGER. lia.
  - destruct (Sound w (or_introl eq_refl)) as (v0 & Hv0 & _).
    destruct (H2 (ex_intro _ v0 Hv0)) as (m & Hm & Em).
    exists m. rewrite Em, (Exact m Hm). split; [reflexivity|]. split; [|split].
    + intros v Hv. specialize (H1 v Hv). rewrite Em, (Exact v Hv), (Exact m Hm) in H1.
      now apply numberLeb_Finite.
    + intros _. exact Hm.
    + apply Render. split; [exact (widthOccurrence_nonneg Hm) | now apply Hsafe].
Qed.

(** C5: the scan finds every occurrence of the word width followed by
    [=] or [:], an optional quote and digits, reads each digit run as a
    Number, which rounds it to the nearest double, and takes the largest
    (0 when there is none).  That maximum exceeds 600 exactly when a
    written value does; the result then has exactly one error about the
    width limit, of category css, whose message cites the maximum as the
    template literal prints that Number, and the limit 600; otherwise the
    result has no such error.  When every written value is a safe integer
    the maximum is the largest written value, cited with all its
    digits. *)
Theorem width_limit (toLowerCase : jsstring -> jsstring) (h : jsstring) :
  exists r,
    validate toLowerCase h = Some r
    /\ (forall v, widthOccurrence h v -> numberLeb (toNumber v) (maxWidth h) = true)
    /\ ((exists v, widthOccurrence h v) ->
        exists v, widthOccurrence h v /\ maxWidth h = toNumber v)
    /\ ((forall v, ~ widthOccurrence h v) -> maxWidth h = Finite 0)
    /\ (numberLtb (Finite 600) (maxWidth h) = true
        <-> exists v, widthOccurrence h v /\ (600 < v)%Z)
    /\ (numberLtb (Finite 600) (maxWidth h) = true ->
        exists f,
          filter isWidthError (errors r) = [f]
          /\ type f = error /\ category f = css
          /\ message f
             = lit "Maximum width exceeded: " ++ Number_toString (maxWidth h)
                 ++ lit "px (limit: 600px)")
    /\ (numberLtb (Finite 600) (maxWidth h) = false -> filter isWidthError (errors r) = [])
    /\ ((forall v, widthOccurrence h v -> (v <= MAX_SAFE_INTEGER)%Z) ->
        exists m,
          maxWidth h = Finite m
          /\ (forall v, widthOccurrence h v -> (v <= m)%Z)
          /\ ((exists v, widthOccurrence h v) -> widthOccurrence h m)
          /\ Number_toString (maxWidth h) = numberToString m).
Proof.
  destruct (width_errors toLowerCase h) as (r & Hv & F).
  exists r. split; [exact Hv|].
  destruct (maxWidth_spec h) as (H1 & H2 & H3).
  split; [exact H1|]. split; [exact H2|]. split; [exact H3|].
  split; [exact (maxWidth_exceeds_iff h)|].
  rewrite F. change EMAIL_CONSTRAINTS.MAX_WIDTH with 600%Z.
  split; [|split].
  - intros ->. exists (widthError (maxWidth h)). repeat split.
  - now intros ->.
  - exact (@maxWidth_safe h).
Qed.

(** The second scenario of the specification: the cell of width 601. *)
Lemma width_limit_witness :
  exists r,
    validate asciiToLowerCase wideCell = Some r
    /\ exists f,
         filter isWidthError (errors r) = [f]
         /\ message f = lit "Maximum width exceeded: 601px (limit: 600px)".
Proof.
  destruct (width_limit asciiToLowerCase wideCell) as (r & Hv & _ & _ & _ & _ & Hbig & _).
  exists r. split; [exact Hv|].
  destruct Hbig as (f & Hf & _ & _ & Hm); [vm_compute; reflexivity|].
  exists f. split; [exact Hf|]. rewrite Hm. vm_compute. reflexivity.
Defined.

(** A width of 9007199254740993 is written in [unsafeWidthCell], and no
    larger one; the message cites 9007199254740992, the double the digits
    are read as. *)
Lemma width_message_cites_rounded_maximum :
  exists r f,
    validate asciiToLowerCase unsafeWidthCell = Some r
    /\ widthOccurrence unsafeWidthCell 9007199254740993
    /\ (forall v, widthOccurrence unsafeWidthCell v -> (v <= 9007199254740993)%Z)
    /\ filter isWidthError (errors r) = [f]
    /\ message f = lit "Maximum width exceeded: 9007199254740992px (limit: 600px)"
    /\ message f <> lit "Maximum width exceeded: 9007199254740993px (limit: 600px)".
Proof.
  destruct (width_errors asciiToLowerCase unsafeWidthCell) as (r & Hv & F).
  assert (M : maxWidth unsafeWidthCell = Finite 9007199254740992) by (vm_compute; reflexivity).
  rewrite M in F. change (numberLtb _ _) with true in F.
  exists r, (widthError (Finite 9007199254740992)).
  split; [exact Hv|]. split; [|split; [|split; [exact F|split]]].
  - exists (lit "<table><tr><td style=" ++ dq), (lit "width"), [], 58%N, [], [],
      (lit "9007199254740993"), (lit "px" ++ dq ++ lit ">x</td></tr></table>").
    split; [reflexivity|]. split; [repeat constructor|].
    split; [constructor|]. split; [now right|]. split; [constructor|].
    split; [now left|]. split; [discriminate|]. split; [repeat constructor | reflexivity].
  - intros v Hv'.
    destruct (Z.le_gt_cases v 9007199254740993) as [L|G]; [exact L|]. exfalso.
    pose proof (proj1 (maxWidth_spec unsafeWidthCell) v Hv') as Hle. rewrite M in Hle.
    assert (Hm : numberLeb (toNumber 9007199254740994) (toNumber v) = true)
      by (apply toNumber_mono; lia).
    pose proof (@numberLeb_trans _ _ _ Hm Hle) as Hbad. vm_compute in Hbad.
    discriminate Hbad.
  - vm_compute. reflexivity.
  - vm_compute. discriminate.
Qed.

(** ** Calls the engine refuses *)

Lemma matchHere_width_block (rest : jsstring) :
  matchHere widthRegex (lit "width=1 " ++ rest) = Some (32%N :: rest, [lit "1"]).
Proof.
  unfold matchHere, widthRegex, Plus.
  cbn -[Nat.sub firstn length].
  replace (length (49%N :: 32%N :: rest) - length (32%N :: rest)) with 1
    by (cbn [length]; lia).
  reflexivity.
Qed.

Lemma exec_width_block (rest : jsstring) :
  exec widthRegex (lit "width=1 " ++ rest)
  = Some {| matched := lit "width=1"; groups := [lit "1"]; after := 32%N :: rest |}.
Proof.
  change (lit "width=1 " ++ rest) with (119%N :: (lit "idth=1 " ++ rest)).
  cbn [exec]. change (119%N :: (lit "idth=1 " ++ rest)) with (lit "width=1 " ++ rest).
  rewrite matchHere_width_block. do 2 f_equal.
  change (lit "width=1 " ++ rest) with (lit "width=1" ++ 32%N :: rest).
  apply firstn_app_exact.
Qed.

Lemma widthLoop_skips_space (fuel : nat) (s : jsstring) (widths : list number) :
  widthLoop fuel (32%N :: s) widths = widthLoop fuel s widths.
Proof. destruct fuel as [|fuel]; reflexivity. Qed.

Lemma widthLoop_manyWidths : forall (n fuel : nat) (widths : list number),
  n < fuel ->
  widthLoop fuel (manyWidths n) widths = Some (widths ++ repeat (Finite 1) n).
Proof.
  induction n as [|n IH]; intros fuel widths Hf; (destruct fuel as [|fuel]; [lia|]).
  - cbn. now rewrite app_nil_r.
  - cbn [manyWidths widthLoop]. rewrite exec_width_block.
    change (parseInt (group _ 1)) with (Finite 1). cbn [isNaN negb after].
    rewrite widthLoop_skips_space, IH by lia.
    unfold push. rewrite <- app_assoc. reflexivity.
Qed.

Lemma length_manyWidths (n : nat) : length (manyWidths n) = 8 * n.
Proof.
  induction n as [|n IH]; [reflexivity|].
  cbn [manyWidths]. rewrite length_app, IH. change (length (lit "width=1 ")) with 8. lia.
Qed.

Lemma spreadMax_outcome (argumentLimit : nat) (widths : list number) :
  spreadMax argumentLimit widths
  = if (argumentLimit <? length widths)%nat then Throw RangeError
    else Normal (maxWidthOf widths).
Proof. now destruct widths. Qed.

(** The width check throws when the scan has collected more widths than
    the engine passes, and is [validateCSS] otherwise. *)
Lemma validateCSSOn_outcome (argumentLimit : nat) lc (h : jsstring) st widths :
  widthLoop (S (length h)) h [] = Some widths ->
  validateCSSOn argumentLimit lc h st
  = if (argumentLimit <? length widths)%nat then Some (Throw RangeError)
    else match validateCSS lc h st with
         | Some st' => Some (Normal st')
         | None => None
         end.
Proof.
  intros Hl. unfold validateCSSOn, validateCSS. destruct st as [errors warnings].
  cbv zeta. rewrite Hl, spreadMax_outcome.
  destruct (argumentLimit <? length widths)%nat; [reflexivity|].
  now destruct (fontLoop lc (S (length h)) h _).
Qed.

(** What a call of [validate] comes to: it throws when the scan has
    collected more widths than the engine passes, and returns the result
    otherwise. *)
Lemma validateOn_outcome (argumentLimit : nat) lc (h : jsstring) :
  exists widths r,
    widthLoop (S (length h)) h [] = Some widths
    /\ validate lc h = Some r
    /\ validateOn argumentLimit lc h
       = Some (if (argumentLimit <? length widths)%nat then Throw RangeError else Normal r).
Proof.
  destruct (validate_errors lc h) as (widths & ws & Hl & _ & Hv).
  exists widths. eexists. split; [exact Hl|]. split; [exact Hv|].
  revert Hv. unfold validateOn, validate. cbv zeta.
  rewrite (@validateCSSOn_outcome argumentLimit lc h _ widths Hl).
  destruct (argumentLimit <? length widths)%nat; [reflexivity|].
  destruct (validateCSS lc h _) as [st|]; [|discriminate].
  destruct (validateImages h st) as [st'|]; [|discriminate].
  destruct (validateAccessibility h _) as [errors warnings].
  intros Hv. apply (f_equal (option_map (@Normal _))) in Hv. exact Hv.
Qed.

(** C3: validate does throw.  Where the engine passes at most
    [argumentLimit] arguments to a call, the input that writes width=1
    one more time than that makes the spread call of [Math.max] throw
    [RangeError], and the call of validate with it. *)
Theorem validate_throws_on_many_widths
  (argumentLimit : nat) (toLowerCase : jsstring -> jsstring) :
  validateOn argumentLimit toLowerCase (manyWidths (S argumentLimit))
  = Some (Throw RangeError).
Proof.
  destruct (validateOn_outcome argumentLimit toLowerCase (manyWidths (S argumentLimit)))
    as (widths & r & Hl & _ & ->).
  rewrite widthLoop_manyWidths in Hl by (rewrite length_manyWidths; lia).
  injection Hl as <-. cbn [app length]. rewrite repeat_length.
  now rewrite (proj2 (Nat.ltb_lt argumentLimit (S argumentLimit)) (Nat.lt_succ_diag_r _)).
Qed.

(** ** Every image tag is matched *)

Lemma checkImage_messages (img : jsstring) (index : Z) :
  Forall (fun f => startsWith (message f) (lit "Image ") = true) (checkImage img index []).
Proof. unfold checkImage. pushed_tac. Qed.

Lemma forEach_checkImage_messages : forall imgs index,
  Forall (fun f => startsWith (message f) (lit "Image ") = true)
    (forEach checkImage imgs index []).
Proof.
  induction imgs as [|img imgs IH]; intros index.
  - constructor.
  - rewrite forEach_checkImage_cons. apply Forall_app.
    split; [apply checkImage_messages | apply IH].
Qed.

Lemma filter_plain (l : list ValidationError) :
  Forall plainWarning l ->
  filter (fun f => startsWith (message f) (lit "Image ")) l = [].
Proof.
  induction 1 as [|f l [_ Hf] _ IH]; cbn [filter]; [reflexivity|]. now rewrite Hf.
Qed.

Lemma filter_all {A : Type} (p : A -> bool) (l : list A) :
  Forall (fun x => p x = true) l -> filter p l = l.
Proof. induction 1 as [|x l Hx _ IH]; simpl; [reflexivity|]. now rewrite Hx, IH. Qed.

(** At an image tag the pattern matches the tag. *)
Lemma imgRegex_at_tag (t post : jsstring) :
  isImgTag t -> matchHere imgRegex (t ++ post) = Some (post, []).
Proof.
  intros (name & body & -> & Hname & Hbody).
  unfold matchHere, imgRegex. rewrite <- !app_assoc.
  rewrite mre_seq, mre_litI_app by assumption.
  rewrite mre_seq, mre_star. apply star_run.
  - eapply Forall_impl; [|exact Hbody]. intros a Ha. unfold noneOf. simpl.
    rewrite orb_false_r. apply negb_true_iff, N.eqb_neq. exact Ha.
  - reflexivity.
  - reflexivity.
Qed.

Lemma isImgTag_shape (t : jsstring) :
  isImgTag t ->
  exists u, t = u ++ [62%N] /\ u <> [] /\ Forall (fun c => noneOf (lit ">") c = true) u.
Proof.
  intros (name & body & -> & Hname & Hbody).
  exists (name ++ body). split; [now rewrite <- app_assoc|]. split.
  - inversion Hname; subst. discriminate.
  - apply Forall_app. split.
    + inversion Hname as [|? c0 ? w1 H0 T0]; subst.
      inversion T0 as [|? c1 ? w2 H1 T1]; subst.
      inversion T1 as [|? c2 ? w3 H2 T2]; subst.
      inversion T2 as [|? c3 ? w4 H3 T3]; subst. inversion T3; subst.
      unfold charI in *. simpl in H0, H1, H2, H3.
      rewrite !orb_false_r, ?orb_true_iff, !N.eqb_eq in H0, H1, H2, H3.
      repeat constructor; unfold noneOf; simpl; rewrite orb_false_r;
        apply negb_true_iff, N.eqb_neq; intros ->; intuition discriminate.
    + eapply Forall_impl; [|exact Hbody]. intros a Ha. unfold noneOf. simpl.
      rewrite orb_false_r. apply negb_true_iff, N.eqb_neq. exact Ha.
Qed.

(** A tag that starts inside a match ends it. *)
Lemma tag_inside_match (m t pre2 l0 after post : jsstring) :
  isImgTag m -> isImgTag t -> l0 <> [] ->
  m = pre2 ++ l0 -> t ++ post = l0 ++ after ->
  l0 = t /\ after = post.
Proof.
  intros Hm Ht Hne Em Et.
  apply isImgTag_shape in Hm, Ht.
  destruct Hm as (um & -> & _ & Hum). destruct Ht as (ut & -> & _ & Hut).
  destruct (exists_last Hne) as (l0' & c & ->).
  rewrite app_assoc in Em. apply app_inj_tail in Em. destruct Em as [Em <-].
  assert (Hl0 : Forall (fun c => noneOf (lit ">") c = true) l0').
  { rewrite Em in Hum. now apply Forall_app in Hum. }
  rewrite <- !app_assoc in Et. cbn [app] in Et.
  apply (run_unique (noneOf (lit ">"))) in Et; try assumption; try reflexivity.
  destruct Et as [-> E2]. injection E2 as ->. now split.
Qed.

Lemma inOrder_cons (l : list jsstring) (d : N) (s : jsstring) :
  inOrder l s -> inOrder l (d :: s).
Proof.
  destruct l as [|m l]; [trivial|]. intros (pre & rest & -> & H).
  exists (d :: pre), rest. now split.
Qed.

Lemma matchAll_inOrder (r : regex) : forall fuel s l,
  matchAll fuel r s = Some l -> inOrder l s.
Proof.
  induction fuel as [|fuel IH]; intros s l; simpl; [discriminate|].
  destruct (exec r s) as [m|] eqn:E; [|intros H; injection H as <-; exact I].
  apply exec_inv in E. destruct E as (pre & Es & _).
  destruct (matched m) as [|c mt] eqn:Em; [destruct (after m) as [|d next] eqn:Ea|].
  - intros H. injection H as <-. exists pre, []. now split.
  - destruct (matchAll fuel r next) as [l'|] eqn:El; [|discriminate].
    intros H. injection H as <-. exists pre, (d :: next). split; [exact Es|].
    apply inOrder_cons. now apply IH.
  - destruct (matchAll fuel r (after m)) as [l'|] eqn:El; [|discriminate].
    intros H. injection H as <-. exists pre, (after m). split; [exact Es|]. now apply IH.
Qed.

(** Every image tag of the input ends one of the matches. *)
Lemma matchAll_finds_tags : forall fuel s l,
  matchAll fuel imgRegex s = Some l ->
  forall pre t post,
    s = pre ++ t ++ post -> isImgTag t ->
    exists pre' x, pre = pre' ++ x /\ In (x ++ t) l.
Proof.
  induction fuel as [|fuel IH]; intros s l; cbn [matchAll]; [discriminate|].
  intros Hl pre t post Es Ht.
  destruct (@exec_finds imgRegex _ _ pre (imgRegex_at_tag post Ht)) as (m & Hm & Hcase).
  rewrite <- Es in Hm. rewrite Hm in Hl.
  pose proof (@exec_inv _ _ _ Hm) as (pre0 & Es0 & _ & M & Hne).
  apply imgRegex_matches in M. specialize (Hne eq_refl).
  destruct (matched m) as [|c mt] eqn:Em; [congruence|]. clear Hne.
  destruct (matchAll fuel imgRegex (after m)) as [l'|] eqn:El; [|discriminate].
  injection Hl as <-.
  destruct Hcase as [(_ & Ha & Hsplit)|(pre1 & pre2 & -> & Hpre2 & Hsplit)].
  - cbn [fst] in Ha. rewrite Ha in Hsplit. apply app_inv_tail in Hsplit.
    exists pre, []. split; [now rewrite app_nil_r|]. left. now rewrite Hsplit.
  - apply app_eq_app in Hsplit. destruct Hsplit as (l0 & [[Hx1 Hx2]|[Hx1 Hx2]]).
    + destruct l0 as [|a l0].
      * rewrite app_nil_l in Hx2.
        destruct (IH _ _ El [] t post (eq_sym Hx2) Ht) as (pre' & x & Epre & Hin).
        symmetry in Epre. apply app_eq_nil in Epre. destruct Epre as [-> ->].
        exists (pre1 ++ pre2), []. split; [now rewrite app_nil_r|]. now right.
      * destruct (@tag_inside_match _ t pre2 (a :: l0) (after m) post M Ht
                    ltac:(discriminate) Hx1 Hx2) as [El0 _].
        exists pre1, pre2. split; [reflexivity|]. left. now rewrite Hx1, El0.
    + destruct (IH _ _ El l0 t post Hx2 Ht) as (pre' & x & -> & Hin).
      exists (pre1 ++ (c :: mt) ++ pre'), x. split; [|now right].
      rewrite Hx1, <- !app_assoc. reflexivity.
Qed.

Lemma filter_split_length {A : Type} (p : A -> bool) (l : list A) :
  length l = length (filter p l) + length (filter (fun x => negb (p x)) l).
Proof.
  induction l as [|a l IH]; [reflexivity|]. cbn [filter].
  destruct (p a); cbn [negb length]; lia.
Qed.

(** The four warnings of an image that lacks all four. *)
Lemma checkImage_bare (img : jsstring) :
  includes img (lit "alt=") = false ->
  includes img (lit "width=") = false ->
  includes img (lit "height=") = false ->
  includes img (lit "display: block") || includes img (lit "display:block") = false ->
  map message (checkImage img 0%Z [])
  = [ lit "Image 1 is missing alt text"; lit "Image 1 is missing width attribute";
      lit "Image 1 is missing height attribute"; lit "Image 1 should use display: block" ].
Proof.
  intros Ha Hw Hh Hd. apply orb_false_iff in Hd. destruct Hd as [Hd1 Hd2].
  unfold checkImage. rewrite Ha, Hw, Hh, Hd1, Hd2. reflexivity.
Qed.

(** The score of a result, from the numbers of its findings. *)
Lemma resultOf_score (es ws : list ValidationError) :
  allOfType error es -> allOfType warning ws ->
  score (resultOf es ws)
  = Z.max 0 (Z.min 100
      (100 - 15 * Z.of_nat (length (filter isError (errors (resultOf es ws))))
           - 5 * Z.of_nat (length (warnings (resultOf es ws))))).
Proof.
  intros He Hw. rewrite (proj1 (result_errors_split He Hw)).
  cbn [score warnings resultOf]. unfold calculateCompatibilityScore. cbv zeta.
  rewrite (filter_isError_errors He). f_equal. f_equal. lia.
Qed.

(** C8: the matches of the image pattern are image tags of the input,
    taken from left to right with none over another, and every image tag
    of the input ends one of them.  Each match is checked on its own for
    the four conditions; each condition it lacks adds one warning whose
    message numbers the image by its position, counted from 1, among the
    matches.  So an input whose only match lacks all four gets exactly the
    four warnings of image 1, and they take 20 off its score before it is
    clamped: its score is 20 below that of any input with as many errors
    and four warnings fewer, as the same document is with [completeImage]
    in the place of [bareImage]. *)
Theorem image_checks (toLowerCase : jsstring -> jsstring) (h : jsstring) :
  (exists r imgs,
     validate toLowerCase h = Some r
     /\ matchAll (S (length h)) imgRegex h = Some imgs
     /\ Forall (fun img => substring img h /\ isImgTag img) imgs
     /\ inOrder imgs h
     /\ (forall pre t post,
           h = pre ++ t ++ post -> isImgTag t ->
           exists pre' x, pre = pre' ++ x /\ In (x ++ t) imgs)
     /\ Forall (fun f => type f = warning) (warnings r)
     /\ (forall i img, nth_error imgs i = Some img ->
          let n := (Z.of_nat i + 1)%Z in
          countMessage (lit "Image " ++ numberToString n ++ lit " is missing alt text")
            (warnings r)
          = (if includes img (lit "alt=") then 0 else 1)
          /\ countMessage (lit "Image " ++ numberToString n ++ lit " is missing width attribute")
               (warnings r)
             = (if includes img (lit "width=") then 0 else 1)
          /\ countMessage (lit "Image " ++ numberToString n ++ lit " is missing height attribute")
               (warnings r)
             = (if includes img (lit "height=") then 0 else 1)
          /\ countMessage (lit "Image " ++ numberToString n ++ lit " should use display: block")
               (warnings r)
             = (if includes img (lit "display: block") || includes img (lit "display:block")
                then 0 else 1))
     /\ (forall img,
           imgs = [img] ->
           includes img (lit "alt=") = false ->
           includes img (lit "width=") = false ->
           includes img (lit "height=") = false ->
           includes img (lit "display: block") || includes img (lit "display:block") = false ->
           map message (filter isImageWarning (warnings r))
           = [ lit "Image 1 is missing alt text"; lit "Image 1 is missing width attribute";
               lit "Image 1 is missing height attribute";
               lit "Image 1 should use display: block" ]
           /\ score r
              = Z.max 0 (Z.min 100
                  (100 - 15 * Z.of_nat (length (filter isError (errors r)))
                       - 5 * Z.of_nat (length (filter (fun f => negb (isImageWarning f))
                                                 (warnings r)))
                       - 20)))
     /\ (forall h' r',
           validate toLowerCase h' = Some r' ->
           length (filter isError (errors r')) = length (filter isError (errors r)) ->
           length (warnings r) = length (warnings r') + 4 ->
           (0 <= 100 - 15 * Z.of_nat (length (filter isError (errors r)))
                 - 5 * Z.of_nat (length (warnings r)))%Z ->
           score r = (score r' - 20)%Z))
  /\ (exists rb rc,
        validate asciiToLowerCase (documentAround bareImage) = Some rb
        /\ validate asciiToLowerCase (documentAround completeImage) = Some rc
        /\ map message (warnings rb)
           = [ lit "Image 1 is missing alt text"; lit "Image 1 is missing width attribute";
               lit "Image 1 is missing height attribute"; lit "Image 1 should use display: block" ]
        /\ warnings rc = []
        /\ length (filter isError (errors rc)) = length (filter isError (errors rb))
        /\ score rb = (score rc - 20)%Z).
Proof.
  split.
  - destruct (validate_shape toLowerCase h) as (ec & wc & wi & Hc & Hi & Hv).
    destruct (@matchAll_total imgRegex (S (length h)) h (Nat.lt_succ_diag_r _))
      as [imgs Hm].
    rewrite (validateImages_matches _ Hm) in Hi. injection Hi as <-.
    pose proof (@shape_warnings toLowerCase h ec wc _ Hc (validateImages_matches _ Hm)) as Hws.
    pose proof (validateCSS_type _ _ Hc) as [Hec Hwc].
    assert (Hes : allOfType error (fst (validateStructure h ([], [])) ++ ec)).
    { apply Forall_app. split; [apply structureErrors_type | exact Hec]. }
    set (es := fst (validateStructure h ([], [])) ++ ec) in *.
    set (ws := snd (validateStructure h ([], [])) ++ wc
                 ++ forEach checkImage imgs 0%Z []
                 ++ snd (validateCompatibility h ([], []))
                 ++ snd (validateAccessibility h ([], []))) in *.
    assert (Himg : filter isImageWarning ws = forEach checkImage imgs 0%Z []).
    { subst ws. unfold isImageWarning. rewrite !filter_app.
      rewrite (filter_plain (structureWarnings_plain h)).
      rewrite (filter_plain Hwc).
      rewrite (filter_plain (compatibilityWarnings_plain h)).
      rewrite (filter_plain (accessibilityWarnings_plain h)).
      rewrite (filter_all _ (forEach_checkImage_messages imgs 0%Z)).
      now rewrite !app_nil_l, app_nil_r. }
    exists (resultOf es ws), imgs.
    split; [exact Hv|]. split; [exact Hm|]. split; [|split; [|split; [|split; [|split; [|split]]]]].
    + apply matchAll_sound in Hm. eapply Forall_impl; [|exact Hm].
      intros a [Ha [gs Hg]]. split; [exact Ha | now apply imgRegex_matches in Hg].
    + exact (@matchAll_inOrder _ _ _ _ Hm).
    + exact (@matchAll_finds_tags _ _ _ Hm).
    + exact Hws.
    + intros i img Hn n. cbn [warnings resultOf].
      assert (Count : forall what, In what imageRemarks ->
                countMessage (imageMessage n what) ws
                = if lacks img what then 1 else 0).
      { intros what Hw. subst ws. rewrite !countMessage_app.
        assert (Hs : startsWith (imageMessage n what) (lit "Image ") = true) by reflexivity.
        rewrite (countMessage_plain _ Hs (structureWarnings_plain h)).
        rewrite (countMessage_plain _ Hs Hwc).
        rewrite (countMessage_plain _ Hs (compatibilityWarnings_plain h)).
        rewrite (countMessage_plain _ Hs (accessibilityWarnings_plain h)).
        simpl plus. rewrite Nat.add_0_r. subst n.
        apply (@countMessage_forEach imgs 0%Z i img what); [lia | assumption | assumption]. }
      change (lit "Image " ++ numberToString n ++ lit " is missing alt text")
        with (imageMessage n (lit " is missing alt text")).
      change (lit "Image " ++ numberToString n ++ lit " is missing width attribute")
        with (imageMessage n (lit " is missing width attribute")).
      change (lit "Image " ++ numberToString n ++ lit " is missing height attribute")
        with (imageMessage n (lit " is missing height attribute")).
      change (lit "Image " ++ numberToString n ++ lit " should use display: block")
        with (imageMessage n (lit " should use display: block")).
      split; [|split; [|split]].
      * rewrite (Count (lit " is missing alt text")) by (simpl; tauto).
        unfold lacks. simpl jsstring_eqb. now destruct (includes img (lit "alt=")).
      * rewrite (Count (lit " is missing width attribute")) by (simpl; tauto).
        unfold lacks. simpl jsstring_eqb. now destruct (includes img (lit "width=")).
      * rewrite (Count (lit " is missing height attribute")) by (simpl; tauto).
        unfold lacks. simpl jsstring_eqb. now destruct (includes img (lit "height=")).
      * rewrite (Count (lit " should use display: block")) by (simpl; tauto).
        unfold lacks. simpl jsstring_eqb.
        now destruct (includes img (lit "display: block")),
          (includes img (lit "display:block")).
    + intros img Ei Ha Hw Hh Hd.
      assert (E4 : map message (filter isImageWarning ws)
                   = [ lit "Image 1 is missing alt text";
                       lit "Image 1 is missing width attribute";
                       lit "Image 1 is missing height attribute";
                       lit "Image 1 should use display: block" ]).
      { rewrite Himg, Ei, forEach_checkImage_cons. cbn [forEach]. rewrite app_nil_r.
        now apply checkImage_bare. }
      split; [exact E4|].
      rewrite (resultOf_score Hes Hws). cbn [warnings resultOf].
      rewrite (filter_split_length isImageWarning ws).
      apply (f_equal (@length _)) in E4. rewrite length_map in E4. rewrite E4.
      cbn [length]. f_equal. f_equal. lia.
    + intros h' r' Hr' He Hw Hpos.
      destruct (validate_arrays toLowerCase h') as (es' & ws' & Hv' & He' & Hw').
      assert (Er : r' = resultOf es' ws') by congruence.
      rewrite Er in *. rewrite (resultOf_score Hes Hws), (resultOf_score He' Hw').
      rewrite He. rewrite Hw in *. lia.
  - eexists. eexists. split; [vm_compute; reflexivity|].
    split; [vm_compute; reflexivity|]. vm_compute. repeat split.
Qed.

(** The document with the single image [bareImage]: the four warnings of
    image 1, and the score 80. *)
Lemma image_checks_witness :
  exists r,
    validate asciiToLowerCase (documentAround bareImage) = Some r
    /\ map message (filter isImageWarning (warnings r))
       = [ lit "Image 1 is missing alt text"; lit "Image 1 is missing width attribute";
           lit "Image 1 is missing height attribute"; lit "Image 1 should use display: block" ]
    /\ score r = 80%Z.
Proof.
  destruct (image_checks asciiToLowerCase (documentAround bareImage))
    as [(r & imgs & Hv & Hm & _ & _ & _ & _ & _ & Hone & _) _].
  exists r. split; [exact Hv|].
  assert (Ei : imgs = [bareImage]).
  { vm_compute in Hm. injection Hm as <-. reflexivity. }
  destruct (Hone bareImage Ei eq_refl eq_refl eq_refl eq_refl) as [H4 Hs].
  split; [exact H4|]. rewrite Hs.
  vm_compute in Hv. injection Hv as <-. reflexivity.
Defined.

(** The document of [bareImage] scores 80; with the image written as
    [wideImage], which lacks none of the four, it scores 85. *)
Lemma completed_image_with_wide_width :
  exists rb rc,
    validate asciiToLowerCase (documentAround bareImage) = Some rb
    /\ validate asciiToLowerCase (documentAround wideImage) = Some rc
    /\ matchAll (S (length (documentAround bareImage))) imgRegex (documentAround bareImage)
       = Some [bareImage]
    /\ matchAll (S (length (documentAround wideImage))) imgRegex (documentAround wideImage)
       = Some [wideImage]
    /\ map message (warnings rb)
       = [ lit "Image 1 is missing alt text"; lit "Image 1 is missing width attribute";
           lit "Image 1 is missing height attribute"; lit "Image 1 should use display: block" ]
    /\ filter isImageWarning (warnings rc) = []
    /\ includes wideImage (lit "alt=") = true
    /\ includes wideImage (lit "width=") = true
    /\ includes wideImage (lit "height=") = true
    /\ includes wideImage (lit "display: block") = true
    /\ score rb = 80%Z /\ score rc = 85%Z
    /\ score rb <> (score rc - 20)%Z.
Proof.
  eexists. eexists. split; [vm_compute; reflexivity|].
  split; [vm_compute; reflexivity|]. vm_compute. repeat split. discriminate.
Qed.

(** ** The scenarios of the specification, run on the model *)

(** The empty input: the table error, three warnings, score 70. *)
Example scenario_empty :
  exists r,
    validate asciiToLowerCase [] = Some r
    /\ isValid r = false
    /\ map (fun f => (type f, category f)) (errors r)
       = [(error, structure); (warning, structure); (warning, structure); (warning, structure)]
    /\ score r = 70%Z.
Proof. eexists. split; [vm_compute; reflexivity|]. repeat split. Qed.

(** A cell wider than the limit in a bare table. *)
Example scenario_wide_cell :
  exists r,
    validate asciiToLowerCase wideCell = Some r
    /\ isValid r = false
    /\ map message (filter isError (errors r))
       = [lit "Maximum width exceeded: 601px (limit: 600px)"]
    /\ length (warnings r) = 6
    /\ score r = 55%Z.
Proof. eexists. split; [vm_compute; reflexivity|]. repeat split. Qed.

(** A compliant document has no finding, and its summary is the perfect one. *)
Example scenario_compliant :
  exists r,
    validate asciiToLowerCase (documentAround completeImage) = Some r
    /\ isValid r = true /\ errors r = [] /\ score r = 100%Z
    /\ getValidationSummary r
       = checkMark
           ++ lit " Perfect! Your email template is fully compatible (Score: 100/100)".
Proof. eexists. split; [vm_compute; reflexivity|]. repeat split. Qed.

(** A link to an icon and the word stylesheet in the prose: the
    stylesheet error is there. *)
Example scenario_unrelated_link_and_word :
  exists r,
    validate asciiToLowerCase
      (lit "<table><link rel=" ++ dq ++ lit "icon" ++ dq
         ++ lit "><tr><td>no stylesheet here</td></tr></table>") = Some r
    /\ isValid r = false
    /\ map message (filter isError (errors r))
       = [lit "External stylesheets are blocked by most email clients"].
Proof. eexists. split; [vm_compute; reflexivity|]. repeat split. Qed.

(** A stylesheet link written in capitals: no error. *)
Example scenario_capital_stylesheet :
  exists r,
    validate asciiToLowerCase
      (lit "<table><link rel=" ++ dq ++ lit "STYLESHEET" ++ dq ++ lit " href=" ++ dq
         ++ lit "a.css" ++ dq ++ lit "></table>") = Some r
    /\ filter isError (errors r) = [].
Proof. eexists. split; [vm_compute; reflexivity|]. repeat split. Qed.

(** Widths beyond the safe integers, as the message cites them: rounded
    to the double, in exponent form from 21 zeros on, and as Infinity
    beyond the doubles. *)
Example scenario_widths_beyond_safe_integers :
  (exists r,
     validate asciiToLowerCase (lit "<table width=123456789012345678901>") = Some r
     /\ map message (filter isError (errors r))
        = [lit "Maximum width exceeded: 123456789012345680000px (limit: 600px)"])
  /\ (exists r,
        validate asciiToLowerCase (lit "<table width=1000000000000000000000>") = Some r
        /\ map message (filter isError (errors r))
           = [lit "Maximum width exceeded: 1e+21px (limit: 600px)"])
  /\ (exists r,
        validate asciiToLowerCase (lit "<table width=" ++ repeat 57%N 310 ++ lit ">") = Some r
        /\ map message (filter isError (errors r))
           = [lit "Maximum width exceeded: Infinitypx (limit: 600px)"]).
Proof.
  split; [|split]; (eexists; split; [vm_compute; reflexivity|]); vm_compute; reflexivity.
Qed.

(** * Further properties *)

(** ** The two arrays, part by part *)

Lemma validate_parts lc (h : jsstring) :
  exists widths wf imgs,
    widthLoop (S (length h)) h [] = Some widths
    /\ fontLoop lc (S (length h)) h [] = Some wf
    /\ matchAll (S (length h)) imgRegex h = Some imgs
    /\ validate lc h
       = Some (resultOf (errorFindings h widths)
                 (snd (validateStructure h ([], []))
                    ++ (fold_left (checkProperty lc h) unsupportedProperties [] ++ wf)
                    ++ forEach checkImage imgs 0%Z []
                    ++ snd (validateCompatibility h ([], []))
                    ++ snd (validateAccessibility h ([], [])))).
Proof.
  destruct (validate_shape lc h) as (ec & wc & wi & Hc & Hi & Hv).
  destruct (@matchAll_total imgRegex (S (length h)) h (Nat.lt_succ_diag_r _))
    as [imgs Hm].
  rewrite (validateImages_matches _ Hm) in Hi. injection Hi as <-.
  revert Hc. unfold validateCSS. cbv zeta.
  destruct (widthLoop (S (length h)) h []) as [widths|] eqn:Ew; [|discriminate].
  rewrite fontLoop_frame.
  destruct (fontLoop lc (S (length h)) h []) as [wf|] eqn:Ef; [|discriminate].
  set (wp := fold_left (checkProperty lc h) unsupportedProperties []) in *.
  intros Hc. injection Hc as <- <-.
  exists widths, wf, imgs. repeat split; try reflexivity; [exact Hm|].
  rewrite Hv. f_equal. f_equal.
  unfold validateStructure, errorFindings. cbv zeta. rewrite !if_push. cbn [fst].
  rewrite !app_nil_l, <- !app_assoc. reflexivity.
Qed.

Lemma countMessage_none (m : jsstring) (l : list ValidationError) :
  Forall (fun f => message f <> m) l -> countMessage m l = 0.
Proof.
  induction 1 as [|f l Hf _ IH]; [reflexivity|].
  unfold countMessage in *. simpl.
  destruct (jsstring_eqb (message f) m) eqn:E; [|exact IH].
  apply jsstring_eqb_eq in E. contradiction.
Qed.

Lemma fontLoop_messages lc : forall fuel s wf,
  fontLoop lc fuel s [] = Some wf -> Forall (fun f => f = fontWarning) wf.
Proof.
  induction fuel as [|fuel IH]; intros s wf; simpl; [discriminate|].
  destruct (exec fontFamilyRegex s) as [m|].
  - match goal with |- context [if ?b then _ else _] => destruct b end.
    + rewrite fontLoop_frame.
      destruct (fontLoop lc fuel (after m) []) as [w'|] eqn:E; [|discriminate].
      intros H. injection H as <-. constructor; [reflexivity|].
      now apply (IH (after m)).
    + apply IH.
  - intros H. injection H as <-. constructor.
Qed.

(** A message that is neither of an image nor of a font is counted in
    the parts of the warnings that the checks write out one by one. *)
Lemma count_fixed_warning lc (h m : jsstring) r :
  validate lc h = Some r ->
  startsWith m (lit "Image ") = false ->
  m <> lit "Non-web-safe font detected" ->
  countMessage m (warnings r)
  = countMessage m (snd (validateStructure h ([], [])))
    + countMessage m (fold_left (checkProperty lc h) unsupportedProperties [])
    + countMessage m (snd (validateCompatibility h ([], [])))
    + countMessage m (snd (validateAccessibility h ([], []))).
Proof.
  intros Hr Hi Hf.
  destruct (validate_parts lc h) as (widths & wf & imgs & _ & Ef & _ & Hv).
  assert (Er : r = resultOf (errorFindings h widths)
                 (snd (validateStructure h ([], []))
                    ++ (fold_left (checkProperty lc h) unsupportedProperties [] ++ wf)
                    ++ forEach checkImage imgs 0%Z []
                    ++ snd (validateCompatibility h ([], []))
                    ++ snd (validateAccessibility h ([], [])))) by congruence.
  rewrite Er. cbn [warnings resultOf].
  rewrite !countMessage_app.
  rewrite (@countMessage_none m wf).
  - rewrite (@countMessage_none m (forEach checkImage imgs 0%Z [])); [lia|].
    eapply Forall_impl; [|apply forEach_checkImage_messages].
    intros f Hs E. cbv beta in Hs. rewrite E in Hs. congruence.
  - apply fontLoop_messages in Ef. eapply Forall_impl; [|exact Ef].
    intros f -> E. apply Hf. symmetry. exact E.
Qed.

(** The four parts, with the messages that are written in the checks
    compared by running the comparison. *)
Ltac eval_eqb :=
  repeat match goal with
         | |- context [jsstring_eqb ?a ?b] =>
             let v := eval vm_compute in (jsstring_eqb a b) in
             change (jsstring_eqb a b) with v
         end.

Ltac count_parts :=
  unfold validateStructure, validateAccessibility, validateCompatibility,
    unsupportedProperties, propertyMessage;
  cbv zeta; cbn [fold_left checkProperty snd];
  rewrite ?if_push; cbn [snd]; rewrite ?app_nil_l;
  rewrite ?countMessage_app, ?countMessage_when; unfold finding; cbn [message];
  eval_eqb; rewrite ?andb_false_r, ?andb_true_r.

Ltac split_includes :=
  repeat match goal with
         | |- context [includes ?s ?p] => destruct (includes s p)
         end.

(** ** Warnings about the structure of the document *)

(** X1: The four warnings of [validateStructure]: each is in the result once
    when its condition holds and not at all otherwise. *)
Theorem structure_warnings (toLowerCase : jsstring -> jsstring) (h : jsstring) :
  exists r,
    validate toLowerCase h = Some r
    /\ countMessage (lit "Missing HTML 4.01 Transitional DOCTYPE") (warnings r)
       = (if includes h (lit "DOCTYPE html PUBLIC") then 0 else 1)
    /\ countMessage (lit "Missing proper HTML document structure") (warnings r)
       = (if includes h (lit "<html") && includes h (lit "<body") then 0 else 1)
    /\ countMessage (lit "Missing viewport meta tag") (warnings r)
       = (if includes h (lit "viewport") then 0 else 1)
    /\ countMessage (lit "Forms have limited support in email clients") (warnings r)
       = (if includes h (lit "<form") then 1 else 0).
Proof.
  destruct (validate_arrays toLowerCase h) as (es & ws & Hr & _).
  eexists. split; [exact Hr|].
  repeat split;
    (rewrite (@count_fixed_warning _ _ _ _ Hr) by (reflexivity || discriminate));
    count_parts; split_includes; reflexivity.
Qed.

(** Side conditions of [count_fixed_warning] for a message written out. *)
Ltac fixed_message :=
  solve [ reflexivity
        | let E := fresh "E" in
          intros E; apply (f_equal (firstn 3)) in E; vm_compute in E; discriminate E ].

(** ** Warnings about tables and background images *)

(** X2: The warnings of [validateCompatibility]: the three about table
    attributes appear only in an input that holds the text <table, once
    each when the attribute text is absent; the one about background
    images appears once when the text background-image: is present. *)
Theorem compatibility_warnings (toLowerCase : jsstring -> jsstring) (h : jsstring) :
  exists r,
    validate toLowerCase h = Some r
    /\ countMessage (lit "Tables should include cellpadding=" ++ dq ++ lit "0" ++ dq)
         (warnings r)
       = (if includes h (lit "<table")
             && negb (includes h (lit "cellpadding=" ++ dq ++ lit "0" ++ dq))
          then 1 else 0)
    /\ countMessage (lit "Tables should include cellspacing=" ++ dq ++ lit "0" ++ dq)
         (warnings r)
       = (if includes h (lit "<table")
             && negb (includes h (lit "cellspacing=" ++ dq ++ lit "0" ++ dq))
          then 1 else 0)
    /\ countMessage (lit "Tables should include border=" ++ dq ++ lit "0" ++ dq)
         (warnings r)
       = (if includes h (lit "<table")
             && negb (includes h (lit "border=" ++ dq ++ lit "0" ++ dq))
          then 1 else 0)
    /\ countMessage (lit "Background images have limited support in Outlook") (warnings r)
       = (if includes h (lit "background-image:") then 1 else 0).
Proof.
  destruct (validate_arrays toLowerCase h) as (es & ws & Hr & _).
  eexists. split; [exact Hr|].
  repeat split;
    (rewrite (@count_fixed_warning _ _ _ _ Hr) by fixed_message);
    unfold validateCompatibility; cbv zeta;
    destruct (includes h (lit "<table"));
    count_parts; split_includes; reflexivity.
Qed.

(** ** Warnings about accessibility *)

(** X3: The warnings of [validateAccessibility]: the one about roles appears
    once when the input holds the text <div and nowhere the text role=,
    the one about contrast once when it holds the text color: and nowhere
    the text background-color:. *)
Theorem accessibility_warnings (toLowerCase : jsstring -> jsstring) (h : jsstring) :
  exists r,
    validate toLowerCase h = Some r
    /\ countMessage (lit "Consider using semantic HTML or ARIA roles") (warnings r)
       = (if includes h (lit "<div") && negb (includes h (lit "role=")) then 1 else 0)
    /\ countMessage (lit "Ensure sufficient color contrast") (warnings r)
       = (if includes h (lit "color:") && negb (includes h (lit "background-color:"))
          then 1 else 0).
Proof.
  destruct (validate_arrays toLowerCase h) as (es & ws & Hr & _).
  eexists. split; [exact Hr|].
  repeat split;
    (rewrite (@count_fixed_warning _ _ _ _ Hr) by fixed_message);
    count_parts; split_includes; reflexivity.
Qed.

(** ** Warnings about denylisted declarations *)

(** X4: For every entry of [unsupportedProperties] the warning that names the
    declaration is in the result once when the lower-cased input holds
    the lower-cased declaration, and not at all otherwise. *)
Theorem unsupported_property_warnings (toLowerCase : jsstring -> jsstring) (h : jsstring) :
  exists r,
    validate toLowerCase h = Some r
    /\ forall prop message,
         In (prop, message) unsupportedProperties ->
         countMessage (propertyMessage prop message) (warnings r)
         = (if includes (toLowerCase h) (toLowerCase prop) then 1 else 0).
Proof.
  destruct (validate_arrays toLowerCase h) as (es & ws & Hr & _).
  eexists. split; [exact Hr|].
  intros prop message Hin. unfold unsupportedProperties in Hin. simpl in Hin.
  repeat (destruct Hin as [Hin|Hin]; [injection Hin as <- <-|]); [..|destruct Hin];
    (rewrite (@count_fixed_warning _ _ _ _ Hr) by fixed_message);
    count_parts; split_includes; reflexivity.
Qed.

(** ** Warnings about fonts *)

Lemma fontFamilyRegex_matches (m : jsstring) gs :
  matchesC fontFamilyRegex m gs ->
  exists w rest, m = w ++ rest /\ sameWordI (lit "font-family") w.
Proof.
  unfold fontFamilyRegex. cbn [matchesC].
  intros (w & rest & g1 & g2 & -> & _ & Hw & _).
  apply matchesC_litI in Hw. destruct Hw as [Hw _].
  exists w, rest. split; [reflexivity | exact Hw].
Qed.

Lemma fontLoop_mentions lc (fuel : nat) (s : jsstring) wf :
  fontLoop lc fuel s [] = Some wf -> wf <> [] -> mentionsFontFamily s.
Proof.
  destruct fuel as [|fuel]; simpl; [discriminate|].
  destruct (exec fontFamilyRegex s) as [m|] eqn:E.
  - intros _ _. apply exec_inv in E. destruct E as (pre & -> & _ & M & _).
    apply fontFamilyRegex_matches in M. destruct M as (w & rest & Em & Hw).
    exists w. split; [exact Hw|]. exists pre, (rest ++ after m).
    rewrite Em. now rewrite <- app_assoc.
  - intros H. injection H as <-. congruence.
Qed.

Lemma countMessage_fontWarnings (wf : list ValidationError) :
  Forall (fun f => f = fontWarning) wf ->
  countMessage (lit "Non-web-safe font detected") wf = length wf.
Proof.
  induction 1 as [|f l -> _ IH]; [reflexivity|].
  unfold countMessage in *. cbn [filter].
  change (jsstring_eqb (message fontWarning) (lit "Non-web-safe font detected"))
    with true.
  cbv iota. cbn [length]. f_equal. exact IH.
Qed.

(** X5: The warning about fonts is never given to an input that does not
    hold the words font-family, in some case; and the result has as many
    of these warnings as the font scan pushed. *)
Theorem font_warning_needs_declaration (toLowerCase : jsstring -> jsstring) (h : jsstring) :
  exists r wf,
    validate toLowerCase h = Some r
    /\ fontLoop toLowerCase (S (length h)) h [] = Some wf
    /\ countMessage (lit "Non-web-safe font detected") (warnings r) = length wf
    /\ (0 < countMessage (lit "Non-web-safe font detected") (warnings r) ->
        mentionsFontFamily h).
Proof.
  destruct (validate_parts toLowerCase h) as (widths & wf & imgs & _ & Ef & _ & Hv).
  eexists. exists wf. split; [exact Hv|]. split; [exact Ef|].
  assert (C : countMessage (lit "Non-web-safe font detected")
                (warnings
                   (resultOf (errorFindings h widths)
                      (snd (validateStructure h ([], []))
                         ++ (fold_left (checkProperty toLowerCase h) unsupportedProperties []
                               ++ wf)
                         ++ forEach checkImage imgs 0%Z []
                         ++ snd (validateCompatibility h ([], []))
                         ++ snd (validateAccessibility h ([], [])))))
              = length wf).
  { cbn [warnings resultOf]. rewrite !countMessage_app.
    rewrite (@countMessage_none _ (forEach checkImage imgs 0%Z [])).
    - assert (Cf : countMessage (lit "Non-web-safe font detected") wf = length wf).
      { apply countMessage_fontWarnings. exact (fontLoop_messages _ _ _ Ef). }
      rewrite Cf.
      assert (C0 : countMessage (lit "Non-web-safe font detected")
                     (snd (validateStructure h ([], [])))
                   + countMessage (lit "Non-web-safe font detected")
                       (fold_left (checkProperty toLowerCase h) unsupportedProperties [])
                   + countMessage (lit "Non-web-safe font detected")
                       (snd (validateCompatibility h ([], [])))
                   + countMessage (lit "Non-web-safe font detected")
                       (snd (validateAccessibility h ([], []))) = 0).
      { unfold validateCompatibility; cbv zeta.
        destruct (includes h (lit "<table")); count_parts; reflexivity. }
      lia.
    - eapply Forall_impl; [|apply forEach_checkImage_messages].
      intros f Hs E. cbv beta in Hs. rewrite E in Hs. discriminate Hs. }
  split; [exact C|]. rewrite C. intros Hpos.
  apply (fontLoop_mentions _ _ _ Ef). intros ->. simpl in Hpos. lia.
Qed.

(** ** When an input is valid *)

Lemma errorFindings_nil (h : jsstring) widths :
  errorFindings h widths = [] <->
    includes h (lit "<table") = true
    /\ includes h (lit "<script") = false
    /\ includes h (lit "javascript:") = false
    /\ includes h (lit "<link") && includes h (lit "stylesheet") = false
    /\ includes h (lit "<style>") = false
    /\ numberLtb (Finite EMAIL_CONSTRAINTS.MAX_WIDTH) (maxWidthOf widths) = false.
Proof.
  unfold errorFindings.
  destruct (includes h (lit "<table")), (includes h (lit "<script")),
    (includes h (lit "javascript:")),
    (includes h (lit "<link") && includes h (lit "stylesheet")),
    (includes h (lit "<style>")),
    (numberLtb (Finite EMAIL_CONSTRAINTS.MAX_WIDTH) (maxWidthOf widths));
    cbn [negb orb when app]; split;
    solve [ intros H; discriminate H
          | intros (H1 & H2 & H3 & H4 & H5 & H6); discriminate
          | intros _; repeat split ].
Qed.

Lemma maxWidth_within_iff (h : jsstring) :
  numberLtb (Finite EMAIL_CONSTRAINTS.MAX_WIDTH) (maxWidth h) = false
  <-> (forall v, widthOccurrence h v -> (v <= 600)%Z).
Proof.
  pose proof (maxWidth_exceeds_iff h) as E.
  destruct (numberLtb (Finite EMAIL_CONSTRAINTS.MAX_WIDTH) (maxWidth h)).
  - split; [discriminate|]. intros H. destruct (proj1 E eq_refl) as (v & Hv & Hbig).
    specialize (H v Hv). exfalso. lia.
  - split; [|reflexivity]. intros _ v Hv.
    destruct (Z.le_gt_cases v 600) as [L|G]; [exact L|].
    assert (F : false = true) by (apply E; exists v; split; [exact Hv | lia]).
    discriminate F.
Qed.

Lemma isValid_passes lc (h : jsstring) r :
  validate lc h = Some r -> (isValid r = true <-> passesErrorChecks h).
Proof.
  intros Hr.
  destruct (validate_errors lc h) as (widths & ws & Hl & _ & Hv).
  assert (Er : r = resultOf (errorFindings h widths) ws) by congruence.
  rewrite Er. cbn [isValid resultOf]. rewrite Nat.eqb_eq, length_zero_iff_nil.
  rewrite errorFindings_nil. unfold passesErrorChecks.
  rewrite <- (maxWidth_within_iff h).
  unfold maxWidth. rewrite Hl.
  rewrite <- !includes_iff, andb_false_iff.
  repeat match goal with
         | |- context [includes h ?p] => destruct (includes h p)
         end; intuition congruence.
Qed.

(** X6: An input is valid exactly when it holds the text <table, holds
    neither <script nor javascript:, does not hold both <link and
    stylesheet, does not hold the bare tag <style>, and writes no width
    above 600. *)
Theorem valid_iff_passes_error_checks (toLowerCase : jsstring -> jsstring) (h : jsstring) :
  exists r,
    validate toLowerCase h = Some r
    /\ (isValid r = true <-> passesErrorChecks h).
Proof.
  destruct (validate_arrays toLowerCase h) as (es & ws & Hr & _).
  eexists. split; [exact Hr|]. exact (@isValid_passes _ _ _ Hr).
Qed.

(** ** How many errors a result can hold *)

Lemma errorFindings_bound (h : jsstring) widths :
  length (errorFindings h widths) <= 5
  /\ NoDup (map message (errorFindings h widths)).
Proof.
  split.
  - unfold errorFindings. rewrite !length_app.
    repeat match goal with
           | |- context [when ?b ?x] => destruct b; cbn [when length]
           end; lia.
  - apply (NoDup_map_inv (firstn 3)). rewrite map_map. unfold errorFindings.
    rewrite !map_app.
    repeat match goal with
           | |- context [when ?b ?x] => destruct b; cbn [when map]
           end;
      vm_compute; repeat constructor; simpl; intuition discriminate.
Qed.

Lemma result_error_part lc (h : jsstring) r :
  validate lc h = Some r ->
  exists widths ws,
    widthLoop (S (length h)) h [] = Some widths
    /\ allOfType warning ws
    /\ r = resultOf (errorFindings h widths) ws
    /\ filter isError (errors r) = errorFindings h widths.
Proof.
  intros Hr.
  destruct (validate_errors lc h) as (widths & ws & Hl & Hw & Hv).
  exists widths, ws. split; [exact Hl|]. split; [exact Hw|].
  assert (Er : r = resultOf (errorFindings h widths) ws) by congruence.
  split; [exact Er|]. rewrite Er.
  assert (He : allOfType error (errorFindings h widths)).
  { unfold errorFindings, allOfType.
    repeat (apply Forall_app; split); apply Forall_when; reflexivity. }
  exact (proj1 (result_errors_split He Hw)).
Qed.

(** X7: A result never holds more than five findings of type error, and no
    two of them have the same message. *)
Theorem at_most_five_errors (toLowerCase : jsstring -> jsstring) (h : jsstring) :
  exists r,
    validate toLowerCase h = Some r
    /\ length (filter isError (errors r)) <= 5
    /\ NoDup (map message (filter isError (errors r))).
Proof.
  destruct (validate_arrays toLowerCase h) as (es & ws & Hr & _).
  eexists. split; [exact Hr|].
  destruct (@result_error_part _ _ _ Hr) as (widths & ws' & _ & _ & _ & ->).
  apply errorFindings_bound.
Qed.

(** ** The errors about the table layout and about style tags *)

Lemma error_in_result lc (h : jsstring) r :
  validate lc h = Some r ->
  exists widths,
    forall f, (In f (errors r) /\ type f = error) <-> In f (errorFindings h widths).
Proof.
  intros Hr. destruct (@result_error_part _ _ _ Hr) as (widths & ws & _ & Hw & -> & _).
  exists widths. intros f. rewrite (In_result_error _ f Hw). split; [tauto|].
  intros H. split; [exact H|].
  apply In_errorFindings in H.
  destruct H as [[_ ->]|[[_ ->]|[[_ ->]|[[_ ->]|[_ ->]]]]]; reflexivity.
Qed.

(** X8: The error about table-based layout is in the result exactly when the
    input does not hold the text <table. *)
Theorem table_error_iff (toLowerCase : jsstring -> jsstring) (h : jsstring) :
  exists r,
    validate toLowerCase h = Some r
    /\ ((exists f, In f (errors r) /\ type f = error /\ category f = structure
           /\ message f
              = lit "Email must use table-based layout for maximum email client compatibility")
        <-> ~ substring (lit "<table") h).
Proof.
  destruct (validate_arrays toLowerCase h) as (es & ws & Hr & _).
  eexists. split; [exact Hr|].
  destruct (@error_in_result _ _ _ Hr) as (widths & Hin).
  rewrite <- includes_iff. split.
  - intros (f & Hf & Tf & _ & M).
    assert (Hf' : In f (errorFindings h widths)) by (apply Hin; tauto).
    apply In_errorFindings in Hf'.
    destruct Hf' as [[Hb _]|[[_ ->]|[[_ ->]|[[_ ->]|[_ ->]]]]];
      solve [congruence | differ M].
  - intros Hb. exists tableError. repeat split.
    apply Hin, In_errorFindings. left. split; [|reflexivity].
    now destruct (includes h (lit "<table")).
Qed.

(** X9: The error about style tags is in the result exactly when the input
    holds the tag written bare, <style> with its closing bracket. *)
Theorem style_tag_error_iff (toLowerCase : jsstring -> jsstring) (h : jsstring) :
  exists r,
    validate toLowerCase h = Some r
    /\ ((exists f, In f (errors r) /\ type f = error /\ category f = css
           /\ message f = lit "Style tags have limited support in email clients")
        <-> substring (lit "<style>") h).
Proof.
  destruct (validate_arrays toLowerCase h) as (es & ws & Hr & _).
  eexists. split; [exact Hr|].
  destruct (@error_in_result _ _ _ Hr) as (widths & Hin).
  rewrite <- includes_iff. split.
  - intros (f & Hf & Tf & _ & M).
    assert (Hf' : In f (errorFindings h widths)) by (apply Hin; tauto).
    apply In_errorFindings in Hf'.
    destruct Hf' as [[_ ->]|[[_ ->]|[[_ ->]|[[Hb _]|[_ ->]]]]];
      solve [exact Hb | differ M].
  - intros Hb. exists styleTagError. repeat split.
    apply Hin, In_errorFindings. tauto.
Qed.

(** ** The score of a result *)

Lemma result_score lc (h : jsstring) r :
  validate lc h = Some r ->
  let e := Z.of_nat (length (filter isError (errors r))) in
  let w := Z.of_nat (length (warnings r)) in
  score r = Z.max 0 (Z.min 100 (100 - 15 * e - 5 * w))
  /\ (isValid r = true <-> e = 0%Z)
  /\ (errors r = [] <-> e = 0%Z /\ w = 0%Z)
  /\ (e <= 5)%Z.
Proof.
  intros Hr e w. subst e w.
  destruct (@result_error_part _ _ _ Hr) as (widths & ws & _ & Hw & Er & ->).
  pose proof (proj1 (errorFindings_bound h widths)) as Hb.
  rewrite Er. cbn [score isValid errors warnings resultOf].
  unfold calculateCompatibilityScore. cbv zeta.
  assert (He : allOfType error (errorFindings h widths)).
  { unfold errorFindings, allOfType.
    repeat (apply Forall_app; split); apply Forall_when; reflexivity. }
  rewrite (filter_isError_errors He). rewrite Nat.eqb_eq.
  split; [f_equal; f_equal; lia|]. split; [lia|]. split; [|lia].
  split.
  - intros Hnil. apply app_eq_nil in Hnil. destruct Hnil as [-> ->]. now split.
  - intros [H1 H2].
    destruct (errorFindings h widths); [|simpl in H1; lia].
    destruct ws; [reflexivity | simpl in H2; lia].
Qed.

(** X10: The score is 100 exactly when the result holds no finding at all; it
    is a multiple of 5; an invalid result scores at most 85; a valid one
    scores 100 less 5 for each warning, and not below 0; and no result
    scores below 25 less 5 for each warning. *)
Theorem score_facts (toLowerCase : jsstring -> jsstring) (h : jsstring) :
  exists r,
    validate toLowerCase h = Some r
    /\ (score r = 100%Z <-> errors r = [])
    /\ (exists k, score r = (5 * k)%Z)
    /\ (isValid r = false -> (score r <= 85)%Z)
    /\ (isValid r = true ->
        score r = Z.max 0 (100 - 5 * Z.of_nat (length (warnings r))))
    /\ (25 - 5 * Z.of_nat (length (warnings r)) <= score r)%Z.
Proof.
  destruct (validate_arrays toLowerCase h) as (es & ws & Hr & _).
  eexists. split; [exact Hr|].
  destruct (@result_score _ _ _ Hr) as (Hs & Hv & Hn & Hb).
  set (e := Z.of_nat (length (filter isError (errors (resultOf es ws))))) in *.
  set (w := Z.of_nat (length (warnings (resultOf es ws)))) in *.
  assert (He : (0 <= e)%Z) by (subst e; lia).
  assert (Hw : (0 <= w)%Z) by (subst w; lia).
  rewrite Hs, Hn. repeat split; try lia.
  - exists (Z.max 0 (Z.min 20 (20 - 3 * e - w))). lia.
  - intros Hf. destruct (isValid (resultOf es ws)); [discriminate|].
    assert (e <> 0%Z) by (intros E; apply Hv in E; discriminate). lia.
  - intros Ht. apply Hv in Ht. lia.
Qed.

(** ** The entry point kept for older callers *)

(** X11: [validateEmailHTML] throws what the call of validate throws.
    When validate returns, it returns the validity flag of the result, as
    [warnings] the messages of the warnings, and as [errors] the messages
    of the findings of type error, at most five, followed by the whole
    list [warnings]: a caller that reads [errors] alone also reads every
    warning.  The flag is true exactly when no finding is of type error,
    which is when the input passes every check of type error. *)
Theorem validateEmailHTML_lists
  (argumentLimit : nat) (toLowerCase : jsstring -> jsstring) (h : jsstring) :
  exists c,
    validateOn argumentLimit toLowerCase h = Some c
    /\ match c with
       | Throw e => validateEmailHTML argumentLimit toLowerCase h = Some (Throw e)
       | Normal r =>
           exists l,
             validateEmailHTML argumentLimit toLowerCase h = Some (Normal l)
             /\ Legacy.isValid l = isValid r
             /\ Legacy.warnings l = map message (warnings r)
             /\ Legacy.errors l
                = map message (filter isError (errors r)) ++ Legacy.warnings l
             /\ length (filter isError (errors r)) <= 5
             /\ (Legacy.isValid l = true <-> filter isError (errors r) = [])
             /\ (Legacy.isValid l = true <-> passesErrorChecks h)
       end.
Proof.
  destruct (validateOn_outcome argumentLimit toLowerCase h) as (widths & r & _ & Hr & Ho).
  eexists. split; [exact Ho|]. unfold validateEmailHTML. rewrite Ho.
  destruct (argumentLimit <? length widths)%nat; [reflexivity|].
  eexists. split; [reflexivity|]. cbn [Legacy.isValid Legacy.errors Legacy.warnings].
  destruct (@result_error_part _ _ _ Hr) as (widths' & ws & _ & Hw & Er & Hf).
  pose proof (@isValid_passes _ _ _ Hr) as Hp.
  split; [reflexivity|]. split; [reflexivity|].
  split; [|split; [|split; [|exact Hp]]].
  - rewrite Hf, Er. cbn [errors warnings resultOf]. apply map_app.
  - rewrite Hf. apply errorFindings_bound.
  - rewrite Hf, Er. cbn [isValid resultOf]. rewrite Nat.eqb_eq. apply length_zero_iff_nil.
Qed.

(** ** The send route and the send form *)


(** ** Saving from the canvas editor *)

(** X13: [handleSave] decides on the validation it has at hand, whichever
    content that validation was computed from.  With the validation of
    an input [h] at hand it hands the current content to [onSave] exactly
    when [h] passes every check of type error, and the score it stores is
    that of [h]: 100 less 5 for each warning, not below 0.  Without a
    validation it saves nothing.  So content that holds a script is saved
    with the score 100 when the validation at hand is that of a clean
    document. *)
Theorem handleSave_decides_on_validation_at_hand
  (toLowerCase : jsstring -> jsstring) (content h : jsstring) :
  handleSave content None = None
  /\ (exists r,
        validate toLowerCase h = Some r
        /\ (passesErrorChecks h ->
            handleSave content (Some r)
            = Some (content, Z.max 0 (100 - 5 * Z.of_nat (length (warnings r)))))
        /\ (~ passesErrorChecks h -> handleSave content (Some r) = None))
  /\ (exists r,
        validate asciiToLowerCase (documentAround completeImage) = Some r
        /\ handleSave scriptContent (Some r) = Some (scriptContent, 100%Z)
        /\ ~ passesErrorChecks scriptContent).
Proof.
  split; [reflexivity|]. split.
  - destruct (validate_arrays toLowerCase h) as (es & ws & Hr & _).
    eexists. split; [exact Hr|].
    pose proof (@isValid_passes _ _ _ Hr) as Hp.
    destruct (@result_score _ _ _ Hr) as (Hs & Hv & _ & _).
    unfold handleSave. cbv beta iota zeta.
    split.
    + intros H. apply Hp, Hv in H.
      assert (L : length (filter isError (errors (resultOf es ws))) = 0) by lia.
      rewrite L. cbn [Nat.ltb Nat.leb]. do 2 f_equal. rewrite Hs. lia.
    + intros H.
      destruct (length (filter isError (errors (resultOf es ws)))) eqn:L; [|reflexivity].
      exfalso. apply H, Hp, Hv. reflexivity.
  - eexists. split; [vm_compute; reflexivity|]. split; [vm_compute; reflexivity|].
    intros (_ & H & _). apply H, includes_iff. vm_compute. reflexivity.
Qed.

(** ** The colours of the score *)

Lemma getScoreColor_green (s : Z) :
  getScoreColor s = lit "text-green-600" <-> (90 <= s)%Z.
Proof.
  unfold getScoreColor.
  destruct (Z.leb_spec 90 s); [tauto|].
  destruct (Z.leb_spec 70 s); (split; [intros E; vm_compute in E; discriminate E | lia]).
Qed.

Lemma getScoreColor_red (s : Z) :
  getScoreColor s = lit "text-red-600" <-> (s < 70)%Z.
Proof.
  unfold getScoreColor.
  destruct (Z.leb_spec 90 s);
    [split; [intros E; vm_compute in E; discriminate E | lia]|].
  destruct (Z.leb_spec 70 s);
    [split; [intros E; vm_compute in E; discriminate E | lia] | tauto].
Qed.

(** X14: In the canvas editor the score of a result is shown green exactly
    when the result has no finding of type error and at most two
    warnings, and red exactly when 15 per error and 5 per warning come
    to more than 30; the background follows the same two thresholds. *)
Theorem score_colour (toLowerCase : jsstring -> jsstring) (h : jsstring) :
  exists r,
    validate toLowerCase h = Some r
    /\ (getScoreColor (score r) = lit "text-green-600"
        <-> isValid r = true /\ length (warnings r) <= 2)
    /\ (getScoreColor (score r) = lit "text-red-600"
        <-> 30 < 15 * length (filter isError (errors r)) + 5 * length (warnings r))
    /\ (getScoreBgColor (score r) = lit "bg-green-50 border-green-200"
        <-> getScoreColor (score r) = lit "text-green-600")
    /\ (getScoreBgColor (score r) = lit "bg-red-50 border-red-200"
        <-> getScoreColor (score r) = lit "text-red-600").
Proof.
  destruct (validate_arrays toLowerCase h) as (es & ws & Hr & _).
  eexists. split; [exact Hr|].
  destruct (@result_score _ _ _ Hr) as (Hs & Hv & _ & _).
  rewrite getScoreColor_green, getScoreColor_red, Hv, Hs.
  split; [lia|]. split; [lia|].
  unfold getScoreBgColor.
  split.
  - destruct (Z.leb_spec 90 (Z.max 0 (Z.min 100
      (100 - 15 * Z.of_nat (length (filter isError (errors (resultOf es ws))))
         - 5 * Z.of_nat (length (warnings (resultOf es ws))))))); [tauto|].
    match goal with |- context [(70 <=? ?x)%Z] => destruct (Z.leb_spec 70 x) end;
      (split; [intros E; vm_compute in E; discriminate E | lia]).
  - destruct (Z.leb_spec 90 (Z.max 0 (Z.min 100
      (100 - 15 * Z.of_nat (length (filter isError (errors (resultOf es ws))))
         - 5 * Z.of_nat (length (warnings (resultOf es ws)))))));
      [split; [intros E; vm_compute in E; discriminate E | lia]|].
    match goal with |- context [(70 <=? ?x)%Z] => destruct (Z.leb_spec 70 x) end;
      [split; [intros E; vm_compute in E; discriminate E | lia] | tauto].
Qed.

(** ** The simple editor *)

(** X15: The simple editor lists the first five entries of [errors]: every
    finding of type error is among them, what it leaves out are warnings
    only, and the number it announces is the number left out. *)
Theorem simple_editor_lists_every_error (toLowerCase : jsstring -> jsstring) (h : jsstring) :
  exists r,
    validate toLowerCase h = Some r
    /\ (forall f, In f (errors r) -> type f = error ->
          In f (SimpleCanvasEditor.listedIssues r))
    /\ Forall (fun f => type f = warning) (skipn 5 (errors r))
    /\ (forall n, SimpleCanvasEditor.moreIssues r = Some n <->
          n = length (skipn 5 (errors r)) /\ 0 < n).
Proof.
  destruct (validate_arrays toLowerCase h) as (es & ws & Hr & _).
  eexists. split; [exact Hr|].
  destruct (@result_error_part _ _ _ Hr) as (widths & ws' & _ & Hw & Er & _).
  pose proof (proj1 (errorFindings_bound h widths)) as Hb.
  rewrite Er. unfold SimpleCanvasEditor.listedIssues, SimpleCanvasEditor.moreIssues.
  cbn [errors resultOf]. split; [|split].
  - intros f Hf Tf. rewrite firstn_app, (firstn_all2 (n := 5)) by exact Hb.
    apply in_app_iff. left. apply in_app_iff in Hf. destruct Hf as [Hf|Hf]; [exact Hf|].
    unfold allOfType in Hw. rewrite Forall_forall in Hw. apply Hw in Hf. congruence.
  - rewrite skipn_app, (skipn_all2 (n := 5)) by exact Hb. cbn [app].
    unfold allOfType in Hw. rewrite Forall_forall in *.
    intros f Hf. apply Hw.
    rewrite <- (firstn_skipn (5 - length (errorFindings h widths)) ws').
    apply in_or_app. now right.
  - intros n. rewrite length_skipn.
    destruct (Nat.ltb_spec 5 (length (errorFindings h widths ++ ws'))).
    + split; [intros E; injection E as <-; lia | intros [-> _]; reflexivity].
    + split; [discriminate | lia].
Qed.

Lemma scoreClass_green (s : Z) :
  SimpleCanvasEditor.scoreClass s = lit "text-green-600" <-> (80 <= s)%Z.
Proof.
  unfold SimpleCanvasEditor.scoreClass.
  destruct (Z.leb_spec 80 s); [tauto|].
  destruct (Z.leb_spec 60 s); (split; [intros E; vm_compute in E; discriminate E | lia]).
Qed.

(** X16: The simple editor shows the score green from 80 on, that is exactly
    when 15 per error and 5 per warning come to at most 20: green in the
    canvas editor is green here, and a result with one error and at most
    one warning is shown green although it is not valid. *)
Theorem simple_editor_green (toLowerCase : jsstring -> jsstring) (h : jsstring) :
  exists r,
    validate toLowerCase h = Some r
    /\ (SimpleCanvasEditor.scoreClass (score r) = lit "text-green-600"
        <-> 15 * length (filter isError (errors r)) + 5 * length (warnings r) <= 20)
    /\ (getScoreColor (score r) = lit "text-green-600" ->
        SimpleCanvasEditor.scoreClass (score r) = lit "text-green-600")
    /\ (length (filter isError (errors r)) = 1 -> length (warnings r) <= 1 ->
        isValid r = false
        /\ SimpleCanvasEditor.scoreClass (score r) = lit "text-green-600").
Proof.
  destruct (validate_arrays toLowerCase h) as (es & ws & Hr & _).
  eexists. split; [exact Hr|].
  destruct (@result_score _ _ _ Hr) as (Hs & Hv & _ & _).
  rewrite scoreClass_green, getScoreColor_green, Hs.
  split; [lia|]. split; [lia|].
  intros He Hw. split; [|lia].
  destruct (isValid (resultOf es ws)); [|reflexivity].
  assert (Z.of_nat (length (filter isError (errors (resultOf es ws)))) = 0%Z)
    by now apply Hv.
  lia.
Qed.

(** ** The shape of every finding *)

Ltac well_formed_tac :=
  cbv zeta; rewrite ?if_push; cbn [fst snd]; rewrite ?app_nil_l;
  repeat (apply Forall_app; split);
  apply Forall_when; (split; [discriminate | split; reflexivity]).

Lemma forEach_checkImage_wellFormed : forall imgs index,
  Forall wellFormedFinding (forEach checkImage imgs index []).
Proof.
  induction imgs as [|img imgs IH]; intros index.
  - constructor.
  - rewrite forEach_checkImage_cons. apply Forall_app. split; [|apply IH].
    unfold checkImage. well_formed_tac.
Qed.

(** X17: Every finding of a result carries a suggestion, and none carries a
    line or a column. *)
Theorem findings_well_formed (toLowerCase : jsstring -> jsstring) (h : jsstring) :
  exists r,
    validate toLowerCase h = Some r
    /\ Forall wellFormedFinding (errors r).
Proof.
  destruct (validate_parts toLowerCase h) as (widths & wf & imgs & _ & Ef & _ & Hv).
  eexists. split; [exact Hv|]. cbn [errors resultOf].
  apply Forall_app; split; [unfold errorFindings; well_formed_tac|].
  apply Forall_app; split; [unfold validateStructure; well_formed_tac|].
  apply Forall_app; split; [apply Forall_app; split|].
  - unfold unsupportedProperties. cbn [fold_left checkProperty]. well_formed_tac.
  - apply fontLoop_messages in Ef. eapply Forall_impl; [|exact Ef].
    intros f ->. split; [discriminate | split; reflexivity].
  - apply Forall_app; split; [apply forEach_checkImage_wellFormed|].
    apply Forall_app; split; [|unfold validateAccessibility; well_formed_tac].
    unfold validateCompatibility. cbv zeta. cbn [snd].
    destruct (includes h (lit "<table")); [well_formed_tac|].
    rewrite if_push. apply Forall_when. split; [discriminate | split; reflexivity].
Qed.

(** ** The summary of a result of the validator *)

(** X18: For a result of [validate] the summary is the perfect one exactly
    when the score is 100, and it then reads 100/100; it is the one that
    counts errors exactly when the result is not valid. *)
Theorem summary_of_result (toLowerCase : jsstring -> jsstring) (h : jsstring) :
  exists r,
    validate toLowerCase h = Some r
    /\ (startsWith (getValidationSummary r) checkMark = true <-> score r = 100%Z)
    /\ (score r = 100%Z ->
        getValidationSummary r
        = checkMark
            ++ lit " Perfect! Your email template is fully compatible (Score: 100/100)")
    /\ (startsWith (getValidationSummary r) crossMark = true <-> isValid r = false).
Proof.
  destruct (validate_arrays toLowerCase h) as (es & ws & Hr & _).
  eexists. split; [exact Hr|].
  destruct (@result_score _ _ _ Hr) as (Hs & Hv & Hn & _).
  set (r := resultOf es ws) in *.
  assert (H100 : score r = 100%Z <->
                 Z.of_nat (length (filter isError (errors r))) = 0%Z
                 /\ Z.of_nat (length (warnings r)) = 0%Z) by lia.
  unfold getValidationSummary. cbv zeta.
  destruct (Z.eqb_spec (Z.of_nat (length (filter isError (errors r)))) 0) as [E|E];
    [destruct (Z.eqb_spec (Z.of_nat (length (warnings r))) 0) as [W|W]|];
    cbn [andb].
  - assert (S100 : score r = 100%Z) by (apply H100; now split).
    rewrite S100. split; [split; [intros _; reflexivity | intros _; reflexivity]|].
    split; [intros _; reflexivity|].
    split; [intros C; vm_compute in C; discriminate C|].
    intros F. apply Hv in E. congruence.
  - split; [split; [intros C; vm_compute in C; discriminate C | intros S; apply H100 in S; tauto]|].
    split; [intros S; apply H100 in S; tauto|].
    split; [intros C; vm_compute in C; discriminate C|].
    intros F. apply Hv in E. congruence.
  - split; [split; [intros C; vm_compute in C; discriminate C | intros S; apply H100 in S; tauto]|].
    split; [intros S; apply H100 in S; tauto|].
    split; [intros _ | intros _; reflexivity].
    destruct (isValid r); [|reflexivity]. exfalso. apply E. now apply Hv.
Qed.

(** ** How many warnings the images bring *)

Lemma checkImage_length (img : jsstring) (index : Z) :
  length (checkImage img index []) <= 4.
Proof.
  unfold checkImage. cbv zeta. rewrite !if_push, app_nil_l, !length_app.
  repeat match goal with
         | |- context [when ?b ?x] => destruct b; cbn [when length]
         end; lia.
Qed.

Lemma forEach_checkImage_length : forall imgs index,
  length (forEach checkImage imgs index []) <= 4 * length imgs.
Proof.
  induction imgs as [|img imgs IH]; intros index; [simpl; lia|].
  rewrite forEach_checkImage_cons, length_app. cbn [length].
  pose proof (checkImage_length img index). specialize (IH (index + 1)%Z). lia.
Qed.

(** X19: The warnings whose message speaks of a numbered image are those the
    image check pushed: at most four for each match of the image
    pattern, and none when nothing matches. *)
Theorem image_warnings_bound (toLowerCase : jsstring -> jsstring) (h : jsstring) :
  exists r imgs,
    validate toLowerCase h = Some r
    /\ matchAll (S (length h)) imgRegex h = Some imgs
    /\ filter (fun f => startsWith (message f) (lit "Image ")) (warnings r)
       = forEach checkImage imgs 0%Z []
    /\ length (filter (fun f => startsWith (message f) (lit "Image ")) (warnings r))
       <= 4 * length imgs.
Proof.
  destruct (validate_parts toLowerCase h) as (widths & wf & imgs & _ & Ef & Hm & Hv).
  eexists. exists imgs. split; [exact Hv|]. split; [exact Hm|].
  assert (F : filter (fun f => startsWith (message f) (lit "Image "))
                (warnings
                   (resultOf (errorFindings h widths)
                      (snd (validateStructure h ([], []))
                         ++ (fold_left (checkProperty toLowerCase h) unsupportedProperties []
                               ++ wf)
                         ++ forEach checkImage imgs 0%Z []
                         ++ snd (validateCompatibility h ([], []))
                         ++ snd (validateAccessibility h ([], [])))))
              = forEach checkImage imgs 0%Z []).
  { cbn [warnings resultOf]. rewrite !filter_app.
    rewrite (filter_plain (structureWarnings_plain h)).
    rewrite (filter_plain (checkProperty_plain toLowerCase h unsupportedProperties)).
    rewrite (filter_plain (fontLoop_plain _ _ _ Ef)).
    rewrite (filter_plain (compatibilityWarnings_plain h)).
    rewrite (filter_plain (accessibilityWarnings_plain h)).
    rewrite (filter_all _ (forEach_checkImage_messages imgs 0%Z)).
    now rewrite !app_nil_l, app_nil_r. }
  split; [exact F|]. rewrite F. apply forEach_checkImage_length.
Qed.
